(** * pet-back: the streaming answer pipeline of [app.py]

    A shallow embedding of the text functions of [app.py]
    ([get_rag_info], [build_system_prompt], [filter_thinking_content],
    [format_ai_response]) and of the generator
    [stream_zhipu_ai_response], followed by the properties proved about
    them.

    Python [str] values are sequences of Unicode code points; they are
    modelled as [list N].  The [re] module is modelled by a small
    backtracking matcher with the priorities of the original engine
    (leftmost match, greedy and lazy repetition, ordered alternation). *)

From Stdlib Require Import String Ascii.
From Stdlib Require Import List NArith Lia Bool PeanoNat.
Import ListNotations.
Open Scope N_scope.

(* ===================================================================== *)
(** * Part I. The embedding                                               *)
(* ===================================================================== *)

(** ** Text *)

Definition char := N.
Definition str := list char.

(** Decoding of the UTF-8 literals of this file into code points. *)

Fixpoint utf8_cont (n : nat) (acc : N) (bs : list N) : N * list N :=
  match n with
  | O => (acc, bs)
  | S n' =>
      match bs with
      | b :: bs' => utf8_cont n' (acc * 64 + N.land b 63) bs'
      | [] => (acc, [])
      end
  end.

Fixpoint utf8_decode (fuel : nat) (bs : list N) : str :=
  match fuel with
  | O => []
  | S fuel' =>
      match bs with
      | [] => []
      | b :: bs' =>
          let '(n, a0) :=
            if b <? 128 then (0%nat, b)
            else if b <? 224 then (1%nat, N.land b 31)
            else if b <? 240 then (2%nat, N.land b 15)
            else (3%nat, N.land b 7) in
          let '(c, rest) := utf8_cont n a0 bs' in
          c :: utf8_decode fuel' rest
      end
  end.

Definition u (s : string) : str :=
  let bs := map N_of_ascii (list_ascii_of_string s) in
  utf8_decode (List.length bs) bs.

Definition nl : char := 10.
Definition LT : char := 60.
Definition GT : char := 62.
Definition SLASH : char := 47.
Definition COLON : char := 58.
(** The full-width colon U+FF1A and the bracket U+3010. *)
Definition ZH_COLON : char := 65306.
Definition LBRACKET : char := 12304.

(** [Py_UNICODE_ISSPACE]: the characters removed by [str.strip()] and
    matched by [\s] in a [str] pattern. *)
Definition is_space (c : char) : bool :=
  ((9 <=? c) && (c <=? 13)) || ((28 <=? c) && (c <=? 32))
  || (c =? 133) || (c =? 160) || (c =? 5760)
  || ((8192 <=? c) && (c <=? 8202))
  || (c =? 8232) || (c =? 8233) || (c =? 8239) || (c =? 8287)
  || (c =? 12288).

(** [not s], for a string and for a list. *)
Definition is_empty {A} (s : list A) : bool :=
  match s with [] => true | _ :: _ => false end.

Fixpoint str_eqb (a b : str) : bool :=
  match a, b with
  | [], [] => true
  | x :: a', y :: b' => (x =? y) && str_eqb a' b'
  | _, _ => false
  end.

Fixpoint starts_with (p s : str) : bool :=
  match p with
  | [] => true
  | x :: p' =>
      match s with
      | [] => false
      | y :: s' => (x =? y) && starts_with p' s'
      end
  end.

(** [p in s] *)
Fixpoint contains (p s : str) : bool :=
  starts_with p s ||
  match s with
  | [] => false
  | _ :: s' => contains p s'
  end.

Fixpoint drop_while (f : char -> bool) (s : str) : str :=
  match s with
  | [] => []
  | c :: s' => if f c then drop_while f s' else s
  end.

Definition lstrip (s : str) : str := drop_while is_space s.
Definition rstrip (s : str) : str := rev (drop_while is_space (rev s)).
(** [s.strip()] *)
Definition strip (s : str) : str := rstrip (lstrip s).

(** [s.split('\n')] *)
Fixpoint split_nl (s : str) : list str :=
  match s with
  | [] => [[]]
  | c :: s' =>
      if c =? nl then [] :: split_nl s'
      else match split_nl s' with
           | l :: ls => (c :: l) :: ls
           | [] => [[c]]
           end
  end.

(** [sep.join(ls)]; also used for lists of lines. *)
Fixpoint join {A} (sep : list A) (ls : list (list A)) : list A :=
  match ls with
  | [] => []
  | l :: ls' =>
      match ls' with
      | [] => l
      | _ :: _ => l ++ sep ++ join sep ls'
      end
  end.

(** ** Regular expressions *)

(** The fragment of [re] syntax that [app.py] uses.  Repetition is only
    ever applied to a single character class ([[^>]*], [\s*], [.*?],
    [[^【]*?], [\n{3,}]), which is what [Star] covers; its flag is [true]
    for the greedy form and [false] for the lazy one. *)
Inductive regex : Type :=
| Eps : regex
| Chr : (char -> bool) -> regex
| Seq : regex -> regex -> regex
| Alt : regex -> regex -> regex
| Star : bool -> (char -> bool) -> regex
| Opt : regex -> regex
| Group : regex -> regex
| Ahead : regex -> regex
| Eos : regex.

Declare Scope regex_scope.
Delimit Scope regex_scope with re.
Bind Scope regex_scope with regex.
Notation "r1 ';;' r2" := (Seq r1 r2)
  (at level 61, right associativity) : regex_scope.
Notation "r1 '<|>' r2" := (Alt r1 r2)
  (at level 62, right associativity) : regex_scope.

Fixpoint star_greedy {A} (p : char -> bool) (s : str)
         (k : str -> option A) : option A :=
  match s with
  | c :: s' =>
      if p c then
        match star_greedy p s' k with
        | Some a => Some a
        | None => k s
        end
      else k s
  | [] => k s
  end.

Fixpoint star_lazy {A} (p : char -> bool) (s : str)
         (k : str -> option A) : option A :=
  match k s with
  | Some a => Some a
  | None =>
      match s with
      | c :: s' => if p c then star_lazy p s' k else None
      | [] => None
      end
  end.

(** [mt r s g k]: match [r] at the front of [s]; [g] is the text of
    capture group 1 so far; [k] is what remains to be matched.  The first
    success in priority order is returned, as by a backtracking engine. *)
Fixpoint mt {A} (r : regex) (s : str) (g : option str)
         (k : str -> option str -> option A) {struct r} : option A :=
  match r with
  | Eps => k s g
  | Chr p =>
      match s with
      | c :: s' => if p c then k s' g else None
      | [] => None
      end
  | Seq r1 r2 => mt r1 s g (fun s1 g1 => mt r2 s1 g1 k)
  | Alt r1 r2 =>
      match mt r1 s g k with
      | Some a => Some a
      | None => mt r2 s g k
      end
  | Star true p => star_greedy p s (fun s' => k s' g)
  | Star false p => star_lazy p s (fun s' => k s' g)
  | Opt r1 =>
      match mt r1 s g k with
      | Some a => Some a
      | None => k s g
      end
  | Group r1 =>
      mt r1 s g
         (fun s' _ => k s' (Some (firstn (length s - length s') s)))
  | Ahead r1 =>
      match mt r1 s g (fun _ _ => Some tt) with
      | Some _ => k s g
      | None => None
      end
  | Eos =>
      (* [$] without MULTILINE: at the end, or before a final newline *)
      match s with
      | [] => k s g
      | c :: [] => if c =? nl then k s g else None
      | _ :: _ :: _ => None
      end
  end.

(** One match attempt at the front of [s]: the text after the match and
    the capture. *)
Definition match_at (r : regex) (s : str) : option (str * option str) :=
  mt r s None (fun s' g => Some (s', g)).

(** [re.sub]: the scan keeps a count of characters still covered by the
    match in progress.  An empty match emits the replacement and copies
    one character (no pattern of this program can match the empty
    string). *)
Fixpoint sub_from (r : regex) (repl : option str -> str)
         (skip : nat) (s : str) : str :=
  match s with
  | [] =>
      match skip with
      | O =>
          match match_at r [] with
          | Some (_, g) => repl g
          | None => []
          end
      | S _ => []
      end
  | c :: s' =>
      match skip with
      | S n => sub_from r repl n s'
      | O =>
          match match_at r s with
          | Some (rest, g) =>
              match (length s - length rest)%nat with
              | O => repl g ++ c :: sub_from r repl O s'
              | S n => repl g ++ sub_from r repl n s'
              end
          | None => c :: sub_from r repl O s'
          end
      end
  end.

Definition re_sub (r : regex) (repl : option str -> str) (s : str) : str :=
  sub_from r repl O s.

(** Replacement by a fixed string, and the group reference [\1]. *)
Definition fixed (t : str) : option str -> str := fun _ => t.
Definition group1 (g : option str) : str :=
  match g with Some t => t | None => [] end.

(** Pattern literals. *)
Definition lit (c : char) : regex := Chr (N.eqb c).
Fixpoint lits (s : str) : regex :=
  match s with
  | [] => Eps
  | c :: s' => Seq (lit c) (lits s')
  end.

(** [re.IGNORECASE] on a [str] pattern: a character matches the literal
    [p] when its simple lower case is [p] or one of the extra
    equivalents of [p] (dotless i for i, long s for s).  [unicode_tolower]
    lists every character whose lower case is a character of a pattern of
    this program (the ASCII capitals, capital I with dot U+0130, the
    Kelvin sign U+212A); all other cased characters have a lower case
    outside that set, so leaving them fixed does not change a match. *)
Definition unicode_tolower (c : char) : char :=
  if (65 <=? c) && (c <=? 90) then c + 32
  else if c =? 304 then 105
  else if c =? 8490 then 107
  else c.

Definition ci_char (p c : char) : bool :=
  let lo := unicode_tolower c in
  (lo =? p) || ((p =? 105) && (lo =? 305)) || ((p =? 115) && (lo =? 383)).

Definition ilit (c : char) : regex := Chr (ci_char c).
Fixpoint ilits (s : str) : regex :=
  match s with
  | [] => Eps
  | c :: s' => Seq (ilit c) (ilits s')
  end.

Definition any_char : char -> bool := fun _ => true.
Definition not_char (x : char) : char -> bool := fun c => negb (c =? x).
Definition is_colon : char -> bool :=
  fun c => (c =? COLON) || (c =? ZH_COLON).

Arguments u s%_string.

(** ** Constants of [app.py] *)

Definition M_RISK_LEVEL : str := Eval vm_compute in u "【风险等级】".
Definition M_RISK_POINT : str := Eval vm_compute in u "【风险点】".
Definition M_FEEDING : str := Eval vm_compute in u "【喂养建议】".
Definition KW_THINKING : str := Eval vm_compute in u "thinking".
Definition KW_REASONING : str := Eval vm_compute in u "reasoning".
Definition KW_REDACTED : str := Eval vm_compute in u "redacted".
Definition LBL_THINKING : str := Eval vm_compute in u "思考过程".
Definition LBL_REASONING : str := Eval vm_compute in u "推理过程".

(** [PET_KNOWLEDGE]: a dict literal, enumerated in insertion order. *)
Definition PET_KNOWLEDGE : list (str * str) := Eval vm_compute in
  [ (u "巧克力", u "【高危预警】含可可碱，对宠物有毒，剂量大有生命危险。");
    (u "葡萄", u "【高危预警】可能导致肾衰竭，少量也危险。建议立即就医。");
    (u "洋葱", u "【高危预警】破坏红细胞，引起贫血，剂量大有生命危险。");
    (u "木糖醇", u "【高危预警】导致胰岛素大量分泌，引起低血糖、肝衰竭，对宠物极度危险。");
    (u "牛油果", u "【中危预警】含毒性物质persin，虽然狗猫反应较小，但不建议食用。");
    (u "生鸡蛋", u "【中危预警】可能含有沙门氏菌，应煮熟，长期食用生蛋白会影响生物素吸收。");
    (u "咖啡", u "【高危预警】含咖啡因，可能引起中毒。");
    (u "茶", u "【高危预警】含咖啡因。");
    (u "西瓜", u "【低风险】少量果肉安全，但种子和瓜皮不宜食用，糖尿病宠物需谨慎。");
    (u "苹果", u "【低风险】果肉安全，但果核含有氰化物，必须去除。") ].

Definition RAG_PREFIX : str := Eval vm_compute in nl :: u "参考：".
Definition LBRACK : str := Eval vm_compute in u "【".
Definition RBRACK : str := Eval vm_compute in u "】".

Definition BASE_PROMPT : str := Eval vm_compute in
  u "你是宠物营养专家。简要回答。" ++ nl ::
  u "重要：只输出最终答案，不要输出思考过程、推理过程或任何标签（如<thinking>、<reasoning>等）。".
Definition DEFAULT_PET_NAME : str := Eval vm_compute in u "该宠物".
Definition ALLERGY_HEAD : str := Eval vm_compute in nl :: u "过敏原：".
Definition ALLERGY_TO : str := Eval vm_compute in u "对".
Definition ALLERGY_SEP : str := Eval vm_compute in u "、".
Definition ALLERGY_TAIL : str := Eval vm_compute in
  u "过敏。如食物含过敏原，标记【高危预警】，禁止喂食。".
Definition FORMAT_DIRECTIVE : str := Eval vm_compute in
  nl :: u "格式：" ++ nl :: u "【风险等级】：[等级]" ++ nl ::
  u "【风险点】：[风险]" ++ nl :: u "【喂养建议】：[建议]".

Definition MSG_NO_KEY : str := Eval vm_compute in
  u "服务器未配置 AI 服务，请联系管理员。".
Definition MSG_INIT_FAILED : str := Eval vm_compute in
  u "AI 客户端初始化失败，请检查配置。".
Definition MSG_UNAVAILABLE : str := Eval vm_compute in
  u "AI 服务暂时不可用，请稍后再试。".
Definition STATUS_THINKING : str := Eval vm_compute in u "thinking".

(** ** [build_system_prompt] *)

Record PetProfile : Type := {
  name : option str;
  type : option str;
  breed : option str;
  allergies : option (list str)
}.

(** [x or default] on an optional string: [None] and [""] are falsy. *)
Definition str_or (x : option str) (default : str) : str :=
  match x with
  | Some (c :: s) => c :: s
  | Some [] => default
  | None => default
  end.

Definition build_system_prompt (pet_profile : option PetProfile) : str :=
  let base_prompt := BASE_PROMPT in
  let base_prompt :=
    match pet_profile with
    | Some p =>
        match allergies p with
        | Some (a :: l) =>
            let pet_name := str_or (name p) DEFAULT_PET_NAME in
            let allergies_str := join ALLERGY_SEP (a :: l) in
            base_prompt ++
              ALLERGY_HEAD ++ pet_name ++ ALLERGY_TO ++ allergies_str
              ++ ALLERGY_TAIL
        | Some [] => base_prompt
        | None => base_prompt
        end
    | None => base_prompt
    end in
  base_prompt ++ FORMAT_DIRECTIVE.

(** ** [get_rag_info] *)

Section Lookup.

(** [str.lower()] is the interpreter's Unicode lower-casing; the lookup
    is stated for any such function. *)
Variable str_lower : str -> str.

(** The [for ... break] loop: the list [retrieved_facts] it builds. *)
Fixpoint rag_loop (table : list (str * str)) (lower_question : str)
  : list str :=
  match table with
  | [] => []
  | (item, fact) :: table' =>
      if contains item lower_question
      then [LBRACK ++ item ++ RBRACK ++ fact]
      else rag_loop table' lower_question
  end.

Definition get_rag_info (question : str) : str :=
  let lower_question := str_lower question in
  match rag_loop PET_KNOWLEDGE lower_question with
  | fact0 :: _ => RAG_PREFIX ++ fact0
  | [] => []
  end.

End Lookup.

(** ** [filter_thinking_content] *)

(** Characters without case are compiled to plain literals and classes
    even under [re.IGNORECASE]; only the letters of the three tag names
    are matched through [ci_char]. *)
Definition KEYWORD : regex :=
  (ilits KW_THINKING <|> ilits KW_REASONING <|> ilits KW_REDACTED)%re.

(** [[^>]*(?:thinking|reasoning|redacted)[^>]*] *)
Definition TAG_BODY : regex :=
  (Star true (not_char GT) ;; KEYWORD ;; Star true (not_char GT))%re.

(** [<[^>]*(?:...)[^>]*>.*?</[^>]*(?:...)[^>]*>] with DOTALL *)
Definition RE_PAIRED_TAG : regex :=
  (lit LT ;; TAG_BODY ;; lit GT ;; Star false any_char ;;
   lit LT ;; lit SLASH ;; TAG_BODY ;; lit GT)%re.

(** [<[^>]*(?:...)[^>]*/?>] *)
Definition RE_SINGLE_TAG : regex :=
  (lit LT ;; TAG_BODY ;; Opt (lit SLASH) ;; lit GT)%re.

Definition filter_thinking_content (content : str) : str :=
  if is_empty content then content
  else
    let content := re_sub RE_PAIRED_TAG (fixed []) content in
    let content := re_sub RE_SINGLE_TAG (fixed []) content in
    content.

(** ** [format_ai_response] *)

(** [label[：:].*?(?=【|$)] with DOTALL *)
Definition RE_LABELLED (label : str) : regex :=
  (lits label ;; Chr is_colon ;; Star false any_char ;;
   Ahead (lits LBRACK <|> Eos))%re.

(** [marker:\s*] *)
Definition RE_ASCII_COLON (marker : str) : regex :=
  (lits marker ;; lit COLON ;; Star true is_space)%re.

(** [first[:：]?([^【]*?)second] *)
Definition RE_BETWEEN (first second : str) : regex :=
  (lits first ;; Opt (Chr is_colon) ;;
   Group (Star false (not_char LBRACKET)) ;; lits second)%re.

(** The template [first：\1\n\nsecond]. *)
Definition between_repl (first second : str) (g : option str) : str :=
  first ++ [ZH_COLON] ++ group1 g ++ [nl; nl] ++ second.

(** [marker\s*[:：]\s*] *)
Definition RE_COLON (marker : str) : regex :=
  (lits marker ;; Star true is_space ;; Chr is_colon ;;
   Star true is_space)%re.

(** [marker\s*[:：]?\s*] *)
Definition RE_HEADER (marker : str) : regex :=
  (lits marker ;; Star true is_space ;; Opt (Chr is_colon) ;;
   Star true is_space)%re.

(** [\n{3,}] *)
Definition RE_NEWLINES : regex :=
  (lit nl ;; lit nl ;; lit nl ;; Star true (N.eqb nl))%re.

Definition with_colon (marker : str) : str := marker ++ [ZH_COLON].

(** The local variables of the line loop that outlive an iteration. *)
Record sections : Type := {
  formatted_lines : list str;
  current_section : list str
}.

Definition is_header (line : str) : bool :=
  contains M_RISK_LEVEL line || contains M_RISK_POINT line
  || contains M_FEEDING line.

Definition normalize_header (line : str) : str :=
  let line :=
    re_sub (RE_HEADER M_RISK_LEVEL) (fixed (with_colon M_RISK_LEVEL)) line in
  let line :=
    re_sub (RE_HEADER M_RISK_POINT) (fixed (with_colon M_RISK_POINT)) line in
  let line :=
    re_sub (RE_HEADER M_FEEDING) (fixed (with_colon M_FEEDING)) line in
  line.

(** One iteration of [for line in lines]. *)
Definition line_step (st : sections) (line : str) : sections :=
  let line := strip line in
  if is_empty line then st
  else if is_header line then
    let out :=
      if is_empty (current_section st) then formatted_lines st
      else formatted_lines st ++ current_section st ++ [[]] in
    {| formatted_lines := out;
       current_section := [normalize_header line] |}
  else if is_empty (current_section st) then
    {| formatted_lines := formatted_lines st ++ [line];
       current_section := [] |}
  else
    {| formatted_lines := formatted_lines st;
       current_section := current_section st ++ [line] |}.

Definition rebuild_lines (lines : list str) : list str :=
  let st :=
    fold_left line_step lines
              {| formatted_lines := []; current_section := [] |} in
  if is_empty (current_section st) then formatted_lines st
  else formatted_lines st ++ current_section st.

(** The two tag substitutions and the two label substitutions at the
    head of [format_ai_response]. *)
Definition strip_thinking (text : str) : str :=
  let text := re_sub RE_PAIRED_TAG (fixed []) text in
  let text := re_sub RE_SINGLE_TAG (fixed []) text in
  let text := re_sub (RE_LABELLED LBL_THINKING) (fixed []) text in
  let text := re_sub (RE_LABELLED LBL_REASONING) (fixed []) text in
  text.

(** Steps one to four of the source: colons, forced breaks, colons. *)
Definition normalize_markers (text : str) : str :=
  let text :=
    re_sub (RE_ASCII_COLON M_RISK_LEVEL) (fixed (with_colon M_RISK_LEVEL))
           text in
  let text :=
    re_sub (RE_ASCII_COLON M_RISK_POINT) (fixed (with_colon M_RISK_POINT))
           text in
  let text :=
    re_sub (RE_ASCII_COLON M_FEEDING) (fixed (with_colon M_FEEDING)) text in
  let text :=
    re_sub (RE_BETWEEN M_RISK_LEVEL M_RISK_POINT)
           (between_repl M_RISK_LEVEL M_RISK_POINT) text in
  let text :=
    re_sub (RE_BETWEEN M_RISK_POINT M_FEEDING)
           (between_repl M_RISK_POINT M_FEEDING) text in
  let text :=
    re_sub (RE_COLON M_RISK_LEVEL) (fixed (with_colon M_RISK_LEVEL)) text in
  let text :=
    re_sub (RE_COLON M_RISK_POINT) (fixed (with_colon M_RISK_POINT)) text in
  let text :=
    re_sub (RE_COLON M_FEEDING) (fixed (with_colon M_FEEDING)) text in
  text.

Definition format_ai_response (text : str) : str :=
  if is_empty text then text
  else
    let text := strip text in
    let text := strip_thinking text in
    let text := normalize_markers text in
    let lines := split_nl text in
    let text := join [nl] (rebuild_lines lines) in
    let text := re_sub RE_NEWLINES (fixed [nl; nl]) text in
    let text := strip text in
    text.

(** ** [stream_zhipu_ai_response] *)

(** The events the generator yields, without the [data: ...] framing. *)
Inductive event : Type :=
| EvStatus : str -> event
| EvContent : str -> event
| EvFormatted : str -> event
| EvDone : event
| EvError : str -> event.

(** Upstream chunks.  A chunk, a choice and a delta are each either a
    dict or object (the source reads key and attribute alike) whose
    field may be missing, or a value with neither. *)
Inductive delta : Type :=
| Delta (content reasoning_content : option str)
| DeltaOpaque.

Inductive choice : Type :=
| Choice (d : option delta)
| ChoiceOpaque.

Inductive chunk : Type :=
| Chunk (choices : option (list choice))
| ChunkOpaque.

Definition chunk_choices (c : chunk) : list choice :=
  match c with
  | Chunk (Some cs) => cs
  | Chunk None => []
  | ChunkOpaque => []
  end.

Definition choice_delta (c : choice) : delta :=
  match c with
  | Choice (Some d) => d
  | Choice None => Delta None None
  | ChoiceOpaque => Delta None None
  end.

Definition delta_content (d : delta) : option str :=
  match d with
  | Delta content _ => content
  | DeltaOpaque => None
  end.

(** The [content] a chunk contributes; [None] when the loop body
    [continue]s before reaching it. *)
Definition chunk_content (c : chunk) : option str :=
  match chunk_choices c with
  | [] => None
  | ch :: _ =>
      match delta_content (choice_delta ch) with
      | Some (x :: s) => Some (x :: s)
      | Some [] => None
      | None => None
      end
  end.

(** What one turn of the loop over the response stream meets: a chunk,
    or an exception, raised by the iterator or by the loop body on a
    chunk it cannot handle (both are inside the [try]).  The end of the
    list is the normal end of the stream. *)
Inductive stream_item : Type :=
| Yield : chunk -> stream_item
| Raise : stream_item.

(** The upstream as one request sees it: whether constructing the client
    succeeds, and what [client.chat.completions.create] does ([None]: it
    raises). *)
Record upstream : Type := {
  construct_ok : bool;
  create_result : option (list stream_item)
}.

(** The observable outcome of one run of the generator. *)
Record run : Type := {
  events : list event;
  full_content_buffer : list str;
  constructions : nat;
  create_calls : nat;
  client_cached : bool;
  messages : option (str * str)
}.

(** The [for chunk in response_stream] loop: the events yielded from
    here on, the final buffer, and whether an exception escaped. *)
Fixpoint stream_loop (items : list stream_item) (buffer : list str)
  : list event * list str * bool :=
  match items with
  | [] => ([], buffer, false)
  | Raise :: _ => ([], buffer, true)
  | Yield c :: rest =>
      match chunk_content c with
      | None => stream_loop rest buffer
      | Some content =>
          let filtered_content := filter_thinking_content content in
          if is_empty filtered_content then stream_loop rest buffer
          else
            let '(evs, buffer', raised) :=
              stream_loop rest (buffer ++ [content]) in
            (EvContent filtered_content :: evs, buffer', raised)
      end
  end.

(** The code after the loop, inside the [try]. *)
Definition finalize (buffer : list str) : list event :=
  (if is_empty buffer then []
   else
     let full_text := concat buffer in
     let formatted_text := format_ai_response full_text in
     if str_eqb formatted_text full_text then []
     else [EvFormatted formatted_text])
  ++ [EvDone].

Section Pipeline.

Variable str_lower : str -> str.

(** [api_key] is [os.getenv("ZHIPU_API_KEY")]; [cached] tells whether
    the module-level [_zhipu_client] is already set. *)
Definition stream_zhipu_ai_response
           (api_key : option str) (cached : bool) (up : upstream)
           (question : str) (pet_profile : option PetProfile) : run :=
  match api_key with
  | None | Some [] =>
      {| events := [EvError MSG_NO_KEY]; full_content_buffer := [];
         constructions := 0; create_calls := 0;
         client_cached := cached; messages := None |}
  | Some (_ :: _) =>
      let status := EvStatus STATUS_THINKING in
      if negb cached && negb (construct_ok up) then
        {| events := [status; EvError MSG_INIT_FAILED];
           full_content_buffer := [];
           constructions := 1; create_calls := 0;
           client_cached := false; messages := None |}
      else
        let built := if cached then 0%nat else 1%nat in
        let rag_context := get_rag_info str_lower question in
        let system_prompt := build_system_prompt pet_profile in
        let full_user_prompt :=
          if is_empty rag_context then question
          else question ++ rag_context in
        let msgs := Some (system_prompt, full_user_prompt) in
        match create_result up with
        | None =>
            {| events := [status; EvError MSG_UNAVAILABLE];
               full_content_buffer := [];
               constructions := built; create_calls := 1;
               client_cached := true; messages := msgs |}
        | Some response_stream =>
            let '(evs, buffer, raised) :=
              stream_loop response_stream [] in
            {| events :=
                 status :: evs ++
                 (if raised then [EvError MSG_UNAVAILABLE]
                  else finalize buffer);
               full_content_buffer := buffer;
               constructions := built; create_calls := 1;
               client_cached := true; messages := msgs |}
        end
  end.

End Pipeline.

(** ** [ask_ai] *)

Record AskRequest : Type := {
  question : str;
  pet_profile : option PetProfile
}.

Definition DETAIL_EMPTY_QUESTION : str := Eval vm_compute in
  u "问题不能为空，请提供宠物食品或健康相关的问题。".
Definition MEDIA_TYPE : str := Eval vm_compute in u "text/event-stream".
Definition STREAM_HEADERS : list (str * str) := Eval vm_compute in
  [ (u "Cache-Control", u "no-cache");
    (u "Connection", u "keep-alive");
    (u "X-Accel-Buffering", u "no") ].

(** What the handler does: raise [HTTPException], or return a
    [StreamingResponse] over the generator, whose outcome when it is
    consumed is the [run]. *)
Inductive http_result : Type :=
| HTTPException (status_code : nat) (detail : str)
| StreamingResponse (content : run) (media_type : str)
                    (headers : list (str * str)).

Section Endpoint.

Variable str_lower : str -> str.

Definition ask_ai (api_key : option str) (cached : bool) (up : upstream)
           (request : AskRequest) : http_result :=
  let question := strip (question request) in
  if is_empty question then HTTPException 400 DETAIL_EMPTY_QUESTION
  else
    StreamingResponse
      (stream_zhipu_ai_response str_lower api_key cached up question
                                (pet_profile request))
      MEDIA_TYPE STREAM_HEADERS.

End Endpoint.

(** ** Notions used to state the properties *)

(** The profile's allergy list, empty when the profile or the list is
    absent. *)
Definition allergy_list (pet_profile : option PetProfile) : list str :=
  match pet_profile with
  | Some p => match allergies p with Some l => l | None => [] end
  | None => []
  end.

(** The pet's name, or the placeholder when the name is absent. *)
Definition name_or_placeholder (p : PetProfile) : str :=
  match name p with Some n => n | None => DEFAULT_PET_NAME end.

Definition ALLERGY_WORD : str := Eval vm_compute in u "过敏".

(** The chunks the loop receives: those before the first exception. *)
Fixpoint delivered (items : list stream_item) : list chunk :=
  match items with
  | [] => []
  | Raise :: _ => []
  | Yield c :: rest => c :: delivered rest
  end.

(** The raw content fragments of a sequence of chunks, in arrival
    order. *)
Fixpoint raw_fragments (cs : list chunk) : list str :=
  match cs with
  | [] => []
  | c :: cs' =>
      match chunk_content c with
      | Some content => content :: raw_fragments cs'
      | None => raw_fragments cs'
      end
  end.

(** The fragments that survive the filter. *)
Definition survives (content : str) : bool :=
  negb (is_empty (filter_thinking_content content)).

(** The fragments the loop records. *)
Definition kept_fragments (items : list stream_item) : list str :=
  filter survives (raw_fragments (delivered items)).

(** The text of the content events of a trace. *)
Definition contents_of (evs : list event) : list str :=
  flat_map (fun e => match e with EvContent s => [s] | _ => [] end) evs.

Definition is_terminal (e : event) : bool :=
  match e with
  | EvDone | EvError _ => true
  | _ => false
  end.

(** The order of events of the wire protocol. *)
Definition well_ordered (evs : list event) : Prop :=
  exists status contents formatted terminal,
    evs = status ++ map EvContent contents ++ formatted ++ [terminal]
    /\ (status = [] \/ exists s, status = [EvStatus s])
    /\ (formatted = [] \/ exists f, formatted = [EvFormatted f])
    /\ is_terminal terminal = true.

(** The strings a pattern can match: [matches r w rest] says that [r]
    can consume [w] when [rest] is what follows it. *)
Inductive matches : regex -> str -> str -> Prop :=
| M_Eps rest : matches Eps [] rest
| M_Chr p c rest : p c = true -> matches (Chr p) [c] rest
| M_Seq r1 r2 w1 w2 rest :
    matches r1 w1 (w2 ++ rest) -> matches r2 w2 rest ->
    matches (Seq r1 r2) (w1 ++ w2) rest
| M_AltL r1 r2 w rest : matches r1 w rest -> matches (Alt r1 r2) w rest
| M_AltR r1 r2 w rest : matches r2 w rest -> matches (Alt r1 r2) w rest
| M_Star g p w rest : forallb p w = true -> matches (Star g p) w rest
| M_OptSome r w rest : matches r w rest -> matches (Opt r) w rest
| M_OptNone r rest : matches (Opt r) [] rest
| M_Group r w rest : matches r w rest -> matches (Group r) w rest
| M_Ahead r w rest : matches r w rest -> matches (Ahead r) [] (w ++ rest)
| M_Eos rest : rest = [] \/ rest = [nl] -> matches Eos [] rest.

(** No attempt of [r] succeeds at any position of [s]. *)
Fixpoint no_match (r : regex) (s : str) : Prop :=
  match_at r s = None /\
  match s with
  | [] => True
  | _ :: s' => no_match r s'
  end.

(** Tag constructs, read off the text: [<], then text without [>] that
    contains one of the three tag names in any letter case, then [>]. *)
Fixpoint ci_starts_with (p s : str) : bool :=
  match p with
  | [] => true
  | x :: p' =>
      match s with
      | [] => false
      | y :: s' => ci_char x y && ci_starts_with p' s'
      end
  end.

Definition keyword_here (s : str) : bool :=
  ci_starts_with KW_THINKING s || ci_starts_with KW_REASONING s
  || ci_starts_with KW_REDACTED s.

Fixpoint has_keyword (s : str) : bool :=
  keyword_here s ||
  match s with
  | [] => false
  | _ :: s' => has_keyword s'
  end.

(** No [>] occurs in [s]. *)
Definition no_gt (s : str) : bool := forallb (not_char GT) s.

(** The text before the first [>], when there is one. *)
Fixpoint tag_body (s : str) : option str :=
  match s with
  | [] => None
  | c :: s' =>
      if c =? GT then Some []
      else match tag_body s' with
           | Some b => Some (c :: b)
           | None => None
           end
  end.

Definition tag_at (s : str) : bool :=
  match s with
  | [] => false
  | c :: s' =>
      (c =? LT) &&
      match tag_body s' with
      | Some b => has_keyword b
      | None => false
      end
  end.

(** [s] contains a denylisted tag construct. *)
Fixpoint has_tag (s : str) : bool :=
  tag_at s ||
  match s with
  | [] => false
  | _ :: s' => has_tag s'
  end.

(** A string without leading or trailing whitespace. *)
Definition trimmed (s : str) : bool :=
  match s with
  | [] => true
  | c :: s' => negb (is_space c) && negb (is_space (last s' c))
  end.

Definition NL3 : str := [nl; nl; nl].

(** The number of newlines a string starts with. *)
Fixpoint count_nl (s : str) : nat :=
  match s with
  | [] => O
  | c :: s' => if nl =? c then S (count_nl s') else O
  end.

(** The one-line answer of the worked example, and its three sections. *)
Definition EXAMPLE_RAW : str := Eval vm_compute in
  u "【风险等级】：高【风险点】：巧克力中毒【喂养建议】：禁止喂食".
Definition EXAMPLE_LEVEL : str := Eval vm_compute in u "【风险等级】：高".
Definition EXAMPLE_POINT : str := Eval vm_compute in
  u "【风险点】：巧克力中毒".
Definition EXAMPLE_ADVICE : str := Eval vm_compute in
  u "【喂养建议】：禁止喂食".

(** No newline occurs in [s]. *)
Definition no_nl (s : str) : bool := forallb (not_char nl) s.

(** The lines of a text as the line loop sees them when no line is a
    header: trimmed, blank lines dropped. *)
Definition clean_lines (text : str) : list str :=
  filter (fun l => negb (is_empty l)) (map strip (split_nl text)).

(** A line of the output that is not a separator: non-empty, without
    outer whitespace, without newline. *)
Definition good (l : str) : Prop :=
  l <> [] /\ trimmed l = true /\ no_nl l = true.

(** The declarative reading of the line loop, on lines already trimmed
    and non-empty: the lines before the first header, then the sections,
    each a header line (with its colon normalised) and the lines that
    follow it up to the next header. *)
Fixpoint sections_of (lines : list str) : list str * list (list str) :=
  match lines with
  | [] => ([], [])
  | l :: lines' =>
      let '(pre, secs) := sections_of lines' in
      if is_header l then ([], (normalize_header l :: pre) :: secs)
      else (l :: pre, secs)
  end.

(** What the loop state holds once the last section is flushed. *)
Definition finish (st : sections) : list str :=
  if is_empty (current_section st) then formatted_lines st
  else formatted_lines st ++ current_section st.

(** The output lines: the leading lines as they are, then the sections
    with one empty line between consecutive sections. *)
Definition layout (lines : list str) : list str :=
  let '(pre, secs) := sections_of lines in
  pre ++ join [[]] secs.

(** Lists of good lines in which an empty line may stand between two
    good lines, and nowhere else. *)
Inductive spaced : list str -> Prop :=
| spaced_one l : good l -> spaced [l]
| spaced_cons l ls : good l -> spaced ls -> spaced (l :: ls)
| spaced_blank l ls : good l -> spaced ls -> spaced (l :: [] :: ls).

(** [a] is [s] with some characters deleted. *)
Inductive subseq : str -> str -> Prop :=
| subseq_nil : subseq [] []
| subseq_keep c a s : subseq a s -> subseq (c :: a) (c :: s)
| subseq_drop c a s : subseq a s -> subseq a (c :: s).

(** A delta, a choice, a chunk and a stream item without the upstream's
    reasoning text. *)
Definition delta_without_reasoning (d : delta) : delta :=
  match d with
  | Delta content _ => Delta content None
  | DeltaOpaque => DeltaOpaque
  end.

Definition choice_without_reasoning (c : choice) : choice :=
  match c with
  | Choice (Some d) => Choice (Some (delta_without_reasoning d))
  | Choice None => Choice None
  | ChoiceOpaque => ChoiceOpaque
  end.

Definition chunk_without_reasoning (c : chunk) : chunk :=
  match c with
  | Chunk (Some cs) => Chunk (Some (map choice_without_reasoning cs))
  | Chunk None => Chunk None
  | ChunkOpaque => ChunkOpaque
  end.

Definition item_without_reasoning (i : stream_item) : stream_item :=
  match i with
  | Yield c => Yield (chunk_without_reasoning c)
  | Raise => Raise
  end.

(** A chunk cut down to its first choice. *)
Definition chunk_first_choice (c : chunk) : chunk :=
  match c with
  | Chunk (Some (ch :: _)) => Chunk (Some [ch])
  | _ => c
  end.

Definition is_raise (i : stream_item) : bool :=
  match i with Raise => true | Yield _ => false end.

Definition is_error (e : event) : bool :=
  match e with EvError _ => true | _ => false end.

(** The plain thinking tags. *)
Definition TAG_OPEN_THINKING : str := Eval vm_compute in u "<thinking>".
Definition TAG_CLOSE_THINKING : str := Eval vm_compute in u "</thinking>".
Definition KW_CHOCOLATE : str := Eval vm_compute in u "巧克力".
Definition FACT_CHOCOLATE : str := Eval vm_compute in
  u "【高危预警】含可可碱，对宠物有毒，剂量大有生命危险。".

(** Whether a run gets through: a credential, a client, a stream that
    is created and ends without an exception. *)
Definition completes (api_key : option str) (cached : bool) (up : upstream)
  : bool :=
  match api_key with
  | Some (_ :: _) =>
      (cached || construct_ok up) &&
      match create_result up with
      | Some items => negb (existsb is_raise items)
      | None => false
      end
  | _ => false
  end.

(** The requests of one process, served one after the other: each run
    starts with the client the previous one left. *)
Record served : Type := {
  env_key : option str;
  env_upstream : upstream;
  env_request : AskRequest
}.

Fixpoint serve (str_lower : str -> str) (cached : bool)
         (reqs : list served) : list run :=
  match reqs with
  | [] => []
  | e :: rest =>
      let r := stream_zhipu_ai_response str_lower (env_key e) cached
                 (env_upstream e) (question (env_request e))
                 (pet_profile (env_request e)) in
      r :: serve str_lower (client_cached r) rest
  end.

(** The closing half of the paired pattern: [</[^>]*NAME[^>]*>]. *)
Definition RE_CLOSING_TAG : regex :=
  (lit LT ;; lit SLASH ;; TAG_BODY ;; lit GT)%re.

(** Section content as a well-formed answer has it: a good line without
    [【], without [<] and without a thinking label. *)
Definition plain (c : str) : Prop :=
  good c
  /\ forallb (not_char LBRACKET) c = true
  /\ forallb (not_char LT) c = true
  /\ contains LBL_THINKING c = false
  /\ contains LBL_REASONING c = false.

(** A section on one line: the marker, the full-width colon, the
    content. *)
Definition section_text (marker content : str) : str :=
  marker ++ ZH_COLON :: content.

Definition markers : list str := [M_RISK_LEVEL; M_RISK_POINT; M_FEEDING].

(** The three sections in order, with [s12] and [s23] standing between
    them. *)
Definition three_sections (s12 s23 c1 c2 c3 : str) : str :=
  M_RISK_LEVEL ++ ZH_COLON :: c1 ++ s12 ++
  M_RISK_POINT ++ ZH_COLON :: c2 ++ s23 ++
  M_FEEDING ++ ZH_COLON :: c3.

(* ===================================================================== *)
(** * Part II. Properties                                                 *)
(* ===================================================================== *)

#[local] Arguments N.eqb : simpl never.
#[local] Arguments N.leb : simpl never.

(** ** Strings *)

Lemma str_eqb_refl (a : str) : str_eqb a a = true.
Proof.
  induction a as [|x a IH]; simpl; [reflexivity|].
  now rewrite N.eqb_refl.
Qed.

Lemma str_eqb_eq (a b : str) : str_eqb a b = true <-> a = b.
Proof.
  split.
  - revert b. induction a as [|x a IH]; intros [|y b]; simpl; try discriminate.
    + reflexivity.
    + intros H. apply andb_true_iff in H as [Hx Hr].
      apply N.eqb_eq in Hx. subst. f_equal. now apply IH.
  - intros ->. apply str_eqb_refl.
Qed.

Lemma str_eqb_neq (a b : str) : str_eqb a b = false <-> a <> b.
Proof.
  split.
  - intros H E. apply str_eqb_eq in E. congruence.
  - intros H. destruct (str_eqb a b) eqn:E; [|reflexivity].
    apply str_eqb_eq in E. contradiction.
Qed.

Lemma starts_with_app (p t : str) : starts_with p (p ++ t) = true.
Proof.
  induction p as [|x p IH]; simpl; [reflexivity|].
  now rewrite N.eqb_refl.
Qed.

Lemma starts_with_inv (p s : str) :
  starts_with p s = true -> exists t, s = p ++ t.
Proof.
  revert s. induction p as [|x p IH]; intros s H; simpl in *.
  - now exists s.
  - destruct s as [|y s]; [discriminate|].
    apply andb_true_iff in H as [Hx Hr]. apply N.eqb_eq in Hx. subst y.
    destruct (IH _ Hr) as [t ->]. now exists t.
Qed.

Lemma contains_cons (p : str) (c : char) (s : str) :
  contains p (c :: s) = starts_with p (c :: s) || contains p s.
Proof. reflexivity. Qed.

Lemma contains_intro (p a b : str) : contains p (a ++ p ++ b) = true.
Proof.
  induction a as [|x a IH].
  - simpl. destruct (p ++ b) eqn:E.
    + destruct p; [reflexivity|discriminate].
    + rewrite contains_cons, <- E, starts_with_app. reflexivity.
  - rewrite <- app_comm_cons, contains_cons, IH. apply orb_true_r.
Qed.

Lemma contains_inv (p s : str) :
  contains p s = true -> exists a b, s = a ++ p ++ b.
Proof.
  induction s as [|c s IH]; intros H.
  - simpl in H. rewrite orb_false_r in H.
    apply starts_with_inv in H as [t Ht]. now exists [], t.
  - rewrite contains_cons in H. apply orb_true_iff in H as [H|H].
    + apply starts_with_inv in H as [t Ht]. now exists [], t.
    + destruct (IH H) as (a & b & ->). now exists (c :: a), b.
Qed.

(** Containment only grows when text is added around. *)
Lemma contains_mono (p a s b : str) :
  contains p s = true -> contains p (a ++ s ++ b) = true.
Proof.
  intros H. apply contains_inv in H as (x & y & ->).
  replace (a ++ (x ++ p ++ y) ++ b) with ((a ++ x) ++ p ++ (y ++ b))
    by (now rewrite <- !app_assoc).
  apply contains_intro.
Qed.

Lemma contains_absent (p a s b : str) :
  contains p (a ++ s ++ b) = false -> contains p s = false.
Proof.
  intros H. destruct (contains p s) eqn:E; [|reflexivity].
  now rewrite (contains_mono p a s b E) in H.
Qed.

Lemma join_In (sep a : str) (l : list str) :
  In a l -> exists x y, join sep l = x ++ a ++ y.
Proof.
  induction l as [|b l IH]; [contradiction|].
  intros [->|H].
  - destruct l as [|b' l].
    + exists [], []. simpl. now rewrite app_nil_r.
    + exists [], (sep ++ join sep (b' :: l)). reflexivity.
  - destruct l as [|b' l]; [contradiction|].
    destruct (IH H) as (x & y & E).
    exists (b ++ sep ++ x), y.
    change (join sep (b :: b' :: l)) with (b ++ sep ++ join sep (b' :: l)).
    rewrite E. now rewrite <- !app_assoc.
Qed.

(** ** [build_system_prompt] *)

Lemma build_system_prompt_plain (pet_profile : option PetProfile) :
  allergy_list pet_profile = [] ->
  build_system_prompt pet_profile = BASE_PROMPT ++ FORMAT_DIRECTIVE.
Proof.
  unfold allergy_list, build_system_prompt.
  destruct pet_profile as [p|]; [|reflexivity].
  destruct (allergies p) as [[|a l]|]; try reflexivity. discriminate.
Qed.

Lemma build_system_prompt_clause (p : PetProfile) (a : str) (l : list str) :
  allergies p = Some (a :: l) ->
  build_system_prompt (Some p) =
    BASE_PROMPT ++ ALLERGY_HEAD ++ str_or (name p) DEFAULT_PET_NAME
      ++ ALLERGY_TO ++ join ALLERGY_SEP (a :: l) ++ ALLERGY_TAIL
      ++ FORMAT_DIRECTIVE.
Proof.
  intros E. unfold build_system_prompt. rewrite E.
  now rewrite <- !app_assoc.
Qed.

Lemma contains_str_or (x : option str) (d pre post : str) :
  contains (match x with Some n => n | None => d end)
           (pre ++ str_or x d ++ post) = true.
Proof.
  destruct x as [[|c n]|]; simpl str_or.
  - exact (contains_intro [] [] _).
  - apply contains_intro.
  - apply contains_intro.
Qed.

(** C8. The allergy clause is present exactly when the allergy list is
    non-empty.  With a non-empty list the prompt contains the clause head,
    every allergy term and the pet's name (the placeholder when the name
    is absent); with an empty or absent list, or no profile, the prompt
    is the fixed base text followed by the format directive, which
    mentions no allergy. *)
Theorem build_system_prompt_allergy_clause (pet_profile : option PetProfile) :
  (allergy_list pet_profile <> [] ->
     contains ALLERGY_HEAD (build_system_prompt pet_profile) = true
     /\ (forall a, In a (allergy_list pet_profile) ->
                   contains a (build_system_prompt pet_profile) = true)
     /\ (forall p, pet_profile = Some p ->
                   contains (name_or_placeholder p)
                            (build_system_prompt pet_profile) = true))
  /\ (allergy_list pet_profile = [] ->
        build_system_prompt pet_profile = BASE_PROMPT ++ FORMAT_DIRECTIVE
        /\ contains ALLERGY_HEAD (build_system_prompt pet_profile) = false
        /\ contains ALLERGY_WORD (build_system_prompt pet_profile) = false).
Proof.
  split.
  - intros Hne. destruct pet_profile as [p|]; [|now elim Hne].
    unfold allergy_list in *.
    destruct (allergies p) as [[|a l]|] eqn:E; try now elim Hne.
    rewrite (build_system_prompt_clause p a l E).
    split; [|split].
    + apply contains_intro.
    + intros b Hb. destruct (join_In ALLERGY_SEP b (a :: l) Hb) as (x & y & ->).
      replace (BASE_PROMPT ++ ALLERGY_HEAD ++ str_or (name p) DEFAULT_PET_NAME
                 ++ ALLERGY_TO ++ (x ++ b ++ y) ++ ALLERGY_TAIL
                 ++ FORMAT_DIRECTIVE)
        with ((BASE_PROMPT ++ ALLERGY_HEAD ++ str_or (name p) DEFAULT_PET_NAME
                 ++ ALLERGY_TO ++ x) ++ b ++ (y ++ ALLERGY_TAIL
                 ++ FORMAT_DIRECTIVE))
        by (now rewrite <- !app_assoc).
      apply contains_intro.
    + intros p' [= <-]. unfold name_or_placeholder.
      rewrite (app_assoc BASE_PROMPT ALLERGY_HEAD).
      apply contains_str_or.
  - intros Hnil. rewrite (build_system_prompt_plain pet_profile Hnil).
    repeat split; vm_compute; reflexivity.
Qed.

Lemma build_system_prompt_allergy_clause_witness :
  let p := {| name := None; type := None; breed := None;
              allergies := Some [u "鸡肉"; u "牛奶"] |} in
  allergy_list (Some p) <> []
  /\ contains (u "牛奶") (build_system_prompt (Some p)) = true
  /\ contains DEFAULT_PET_NAME (build_system_prompt (Some p)) = true
  /\ allergy_list None = []
  /\ contains ALLERGY_WORD (build_system_prompt None) = false.
Proof.
  intros p.
  assert (Hne : allergy_list (Some p) <> []) by discriminate.
  destruct (build_system_prompt_allergy_clause (Some p)) as [H1 _].
  destruct (H1 Hne) as (_ & Hterms & Hname).
  destruct (build_system_prompt_allergy_clause None) as [_ H2].
  destruct (H2 eq_refl) as (_ & _ & Hword).
  split; [exact Hne|]. split; [|split; [|split]].
  - apply Hterms. right. left. reflexivity.
  - exact (Hname p eq_refl).
  - reflexivity.
  - exact Hword.
Defined.

(** ** [get_rag_info] *)

Lemma rag_loop_first (pre post : list (str * str)) (item fact lq : str) :
  contains item lq = true ->
  (forall kv, In kv pre -> contains (fst kv) lq = false) ->
  rag_loop (pre ++ (item, fact) :: post) lq
  = [LBRACK ++ item ++ RBRACK ++ fact].
Proof.
  intros Hin. induction pre as [|[k v] pre IH]; intros Hpre; simpl.
  - now rewrite Hin.
  - pose proof (Hpre (k, v) (or_introl eq_refl)) as Hk. simpl in Hk.
    rewrite Hk. apply IH.
    intros kv Hkv. apply Hpre. now right.
Qed.

Lemma rag_loop_none (table : list (str * str)) (lq : str) :
  (forall kv, In kv table -> contains (fst kv) lq = false) ->
  rag_loop table lq = [].
Proof.
  induction table as [|[k v] table IH]; intros H; simpl; [reflexivity|].
  pose proof (H (k, v) (or_introl eq_refl)) as Hk. simpl in Hk.
  rewrite Hk. apply IH.
  intros kv Hkv. apply H. now right.
Qed.

(** C9. The lookup is a function of the question; the entry returned is
    the first one, in table order, whose keyword occurs in the lower-cased
    question, formatted as a newline, the reference prefix, the keyword
    in brackets and the fact; with no keyword present the result is
    empty. *)
Theorem get_rag_info_first_match (str_lower : str -> str) (question : str) :
  (forall pre item fact post,
      PET_KNOWLEDGE = pre ++ (item, fact) :: post ->
      contains item (str_lower question) = true ->
      (forall kv, In kv pre -> contains (fst kv) (str_lower question) = false) ->
      get_rag_info str_lower question
      = RAG_PREFIX ++ LBRACK ++ item ++ RBRACK ++ fact)
  /\ ((forall kv, In kv PET_KNOWLEDGE ->
                  contains (fst kv) (str_lower question) = false) ->
      get_rag_info str_lower question = [])
  /\ (forall question',
         question' = question ->
         get_rag_info str_lower question' = get_rag_info str_lower question).
Proof.
  split; [|split].
  - intros pre item fact post Htab Hin Hpre.
    unfold get_rag_info. rewrite Htab.
    now rewrite (rag_loop_first pre post item fact _ Hin Hpre).
  - intros Hnone. unfold get_rag_info.
    now rewrite (rag_loop_none PET_KNOWLEDGE _ Hnone).
  - now intros ? ->.
Qed.

(** A question naming grapes before chocolate: chocolate is registered
    first and wins. *)
Lemma get_rag_info_first_match_witness :
  let lower := map unicode_tolower in
  let q := u "葡萄和巧克力can my dog EAT?" in
  contains (u "葡萄") (lower q) = true
  /\ get_rag_info lower q
     = RAG_PREFIX ++ LBRACK ++ u "巧克力" ++ RBRACK
         ++ u "【高危预警】含可可碱，对宠物有毒，剂量大有生命危险。"
  /\ get_rag_info lower (u "狗粮") = [].
Proof.
  intros lower q. split; [reflexivity|]. split.
  - apply (proj1 (get_rag_info_first_match lower q)
             [] _ _ (tl PET_KNOWLEDGE)).
    + reflexivity.
    + reflexivity.
    + intros kv [].
  - apply (proj1 (proj2 (get_rag_info_first_match lower (u "狗粮")))).
    intros kv Hkv. unfold PET_KNOWLEDGE in Hkv. simpl in Hkv.
    repeat (destruct Hkv as [<-|Hkv]; [reflexivity|]). contradiction.
Defined.

(** ** The streaming loop *)

Lemma chunk_content_nonempty (c : chunk) (content : str) :
  chunk_content c = Some content -> content <> [].
Proof.
  unfold chunk_content. destruct (chunk_choices c) as [|ch ?]; [discriminate|].
  destruct (delta_content (choice_delta ch)) as [[|x s]|]; try discriminate.
  now intros [= <-].
Qed.

Lemma raw_fragments_nonempty (cs : list chunk) :
  Forall (fun s => s <> []) (raw_fragments cs).
Proof.
  induction cs as [|c cs IH]; simpl; [constructor|].
  destruct (chunk_content c) eqn:E; [|exact IH].
  constructor; [now apply (chunk_content_nonempty c)|exact IH].
Qed.

Lemma concat_nonempty (l : list str) :
  Forall (fun s => s <> []) l -> is_empty (concat l) = is_empty l.
Proof.
  intros H. destruct H as [|s l Hs Hl]; [reflexivity|].
  simpl. destruct s; [now elim Hs|reflexivity].
Qed.

Lemma stream_loop_spec (items : list stream_item) (buffer : list str) :
  stream_loop items buffer =
    (map (fun c => EvContent (filter_thinking_content c)) (kept_fragments items),
     buffer ++ kept_fragments items,
     existsb (fun i => match i with Raise => true | Yield _ => false end) items).
Proof.
  unfold kept_fragments. revert buffer.
  induction items as [|[c|] items IH]; intros buffer; simpl.
  - now rewrite app_nil_r.
  - destruct (chunk_content c) as [content|] eqn:E; [|apply IH].
    simpl filter.
    assert (Hs : survives content
                 = negb (is_empty (filter_thinking_content content)))
      by reflexivity.
    destruct (is_empty (filter_thinking_content content));
      rewrite Hs; simpl negb; cbv iota.
    + apply IH.
    + rewrite IH. simpl. now rewrite <- app_assoc.
  - now rewrite app_nil_r.
Qed.

Lemma no_raise_existsb (items : list stream_item) :
  ~ In Raise items ->
  existsb (fun i => match i with Raise => true | Yield _ => false end) items
  = false.
Proof.
  induction items as [|[c|] items IH]; simpl; intros H; [reflexivity| |].
  - apply IH. intros Hin. apply H. now right.
  - elim H. now left.
Qed.

Lemma contents_of_map (f : str -> str) (l : list str) :
  contents_of (map (fun c => EvContent (f c)) l) = map f l.
Proof. induction l as [|x l IH]; simpl; [reflexivity|now rewrite IH]. Qed.

Lemma contents_of_app (a b : list event) :
  contents_of (a ++ b) = contents_of a ++ contents_of b.
Proof. apply flat_map_app. Qed.

Lemma contents_of_finalize (buffer : list str) :
  contents_of (finalize buffer) = [].
Proof.
  unfold finalize. destruct (is_empty buffer); [reflexivity|].
  destruct (str_eqb _ _); reflexivity.
Qed.

Lemma kept_fragments_nonempty (items : list stream_item) :
  Forall (fun s => s <> []) (kept_fragments items).
Proof.
  unfold kept_fragments. apply Forall_forall. intros s Hs.
  apply filter_In in Hs as [Hs _].
  exact (proj1 (Forall_forall _ _) (raw_fragments_nonempty _) s Hs).
Qed.

(** The shape of a run that reaches the upstream call. *)
Lemma run_with_stream (str_lower : str -> str) (key : str) (cached : bool)
      (up : upstream) (question : str) (pet_profile : option PetProfile)
      (items : list stream_item) :
  key <> [] ->
  cached = true \/ construct_ok up = true ->
  create_result up = Some items ->
  let r := stream_zhipu_ai_response str_lower (Some key) cached up
                                    question pet_profile in
  full_content_buffer r = kept_fragments items
  /\ events r =
       EvStatus STATUS_THINKING ::
       map (fun c => EvContent (filter_thinking_content c))
           (kept_fragments items)
       ++ (if existsb (fun i => match i with Raise => true | _ => false end)
                      items
           then [EvError MSG_UNAVAILABLE]
           else finalize (kept_fragments items)).
Proof.
  intros Hkey Hclient Hcreate. unfold stream_zhipu_ai_response.
  destruct key as [|k0 key]; [now elim Hkey|].
  assert (negb cached && negb (construct_ok up) = false) as ->.
  { destruct Hclient as [-> | ->]; [reflexivity|apply andb_false_r]. }
  rewrite Hcreate, stream_loop_spec. simpl. split; reflexivity.
Qed.

(** C3. Without a credential (unset, or set to the empty string) the run
    yields exactly one event, an error, and neither constructs a client
    nor calls the chat completion. *)
Theorem missing_key_single_error
        (str_lower : str -> str) (api_key : option str) (cached : bool)
        (up : upstream) (question : str) (pet_profile : option PetProfile) :
  api_key = None \/ api_key = Some [] ->
  let r := stream_zhipu_ai_response str_lower api_key cached up
                                    question pet_profile in
  events r = [EvError MSG_NO_KEY]
  /\ constructions r = 0%nat
  /\ create_calls r = 0%nat
  /\ messages r = None.
Proof.
  intros [-> | ->]; simpl; repeat split.
Qed.

Lemma missing_key_single_error_witness :
  let up := {| construct_ok := true;
               create_result := Some [Yield (Chunk (Some [Choice (Some
                 (Delta (Some (u "ok")) None))]))] |} in
  let r := stream_zhipu_ai_response (map unicode_tolower) None false up
                                    (u "狗能吃巧克力吗") None in
  events r = [EvError MSG_NO_KEY] /\ constructions r = 0%nat
  /\ create_calls r = 0%nat /\ messages r = None.
Proof.
  intros up r.
  apply (missing_key_single_error (map unicode_tolower) None false up
           (u "狗能吃巧克力吗") None).
  left. reflexivity.
Defined.

Ltac solve_ordered :=
  simpl; repeat split;
  solve [ reflexivity | left; reflexivity | right; eexists; reflexivity ].

(** C2. Every run yields at most one status event, then content events,
    then at most one formatted event, then one terminal event, which is
    the last event of the run. *)
Theorem events_well_ordered
        (str_lower : str -> str) (api_key : option str) (cached : bool)
        (up : upstream) (question : str) (pet_profile : option PetProfile) :
  well_ordered (events (stream_zhipu_ai_response str_lower api_key cached up
                                                 question pet_profile)).
Proof.
  unfold well_ordered.
  destruct api_key as [[|k0 key]|].
  - exists [], [], [], (EvError MSG_NO_KEY). solve_ordered.
  - destruct (negb cached && negb (construct_ok up)) eqn:Hc.
    + exists [EvStatus STATUS_THINKING], [], [], (EvError MSG_INIT_FAILED).
      unfold stream_zhipu_ai_response. rewrite Hc. solve_ordered.
    + destruct (create_result up) as [items|] eqn:Hcr.
      * assert (Hclient : cached = true \/ construct_ok up = true).
        { destruct cached; [now left|right].
          destruct (construct_ok up); [reflexivity|discriminate]. }
        destruct (run_with_stream str_lower (k0 :: key) cached up question
                    pet_profile items ltac:(discriminate) Hclient Hcr)
          as [_ ->].
        exists [EvStatus STATUS_THINKING],
               (map filter_thinking_content (kept_fragments items)).
        rewrite map_map.
        destruct (existsb _ items).
        -- exists [], (EvError MSG_UNAVAILABLE). solve_ordered.
        -- unfold finalize.
           destruct (is_empty (kept_fragments items)).
           ++ exists [], EvDone. solve_ordered.
           ++ destruct (str_eqb _ _).
              ** exists [], EvDone. solve_ordered.
              ** eexists [EvFormatted _], EvDone. solve_ordered.
      * exists [EvStatus STATUS_THINKING], [], [], (EvError MSG_UNAVAILABLE).
        unfold stream_zhipu_ai_response. rewrite Hc, Hcr. solve_ordered.
  - exists [], [], [], (EvError MSG_NO_KEY). solve_ordered.
Qed.

(** C7. When the stream ends without an exception, the run yields the
    status event, the content events, then a formatted event exactly when
    the accumulated answer is non-empty and formatting changes it (the
    event carries the formatter's output), and then the done event. *)
Theorem formatted_iff_changed
        (str_lower : str -> str) (key : str) (cached : bool)
        (up : upstream) (question : str) (pet_profile : option PetProfile)
        (items : list stream_item) :
  key <> [] ->
  cached = true \/ construct_ok up = true ->
  create_result up = Some items ->
  ~ In Raise items ->
  let r := stream_zhipu_ai_response str_lower (Some key) cached up
                                    question pet_profile in
  let answer := concat (full_content_buffer r) in
  exists contents,
    events r =
      EvStatus STATUS_THINKING :: map EvContent contents
      ++ (if negb (is_empty answer)
             && negb (str_eqb (format_ai_response answer) answer)
          then [EvFormatted (format_ai_response answer)]
          else [])
      ++ [EvDone].
Proof.
  intros Hkey Hclient Hcreate Hraise r answer.
  destruct (run_with_stream str_lower key cached up question pet_profile
              items Hkey Hclient Hcreate) as [Hbuf Hev].
  fold r in Hbuf, Hev. subst answer. rewrite Hbuf, Hev.
  rewrite (no_raise_existsb items Hraise).
  exists (map filter_thinking_content (kept_fragments items)).
  rewrite map_map. do 2 f_equal.
  unfold finalize.
  rewrite (concat_nonempty _ (kept_fragments_nonempty items)).
  destruct (is_empty (kept_fragments items)); [reflexivity|].
  destruct (str_eqb _ _); reflexivity.
Qed.

Lemma formatted_iff_changed_witness :
  let items := [Yield (Chunk (Some [Choice (Some
                  (Delta (Some (u "ab ")) None))]))] in
  let up := {| construct_ok := true; create_result := Some items |} in
  let r := stream_zhipu_ai_response (map unicode_tolower) (Some (u "key"))
                                    false up (u "q") None in
  let answer := concat (full_content_buffer r) in
  format_ai_response answer = u "ab" /\ answer = u "ab "
  /\ exists contents,
    events r =
      EvStatus STATUS_THINKING :: map EvContent contents
      ++ (if negb (is_empty answer)
             && negb (str_eqb (format_ai_response answer) answer)
          then [EvFormatted (format_ai_response answer)]
          else [])
      ++ [EvDone].
Proof.
  intros items up r answer.
  split; [reflexivity|]. split; [reflexivity|].
  apply (formatted_iff_changed (map unicode_tolower) (u "key") false up
           (u "q") None items).
  - discriminate.
  - right. reflexivity.
  - reflexivity.
  - intros [H|[]]. discriminate H.
Defined.

(** C1 as stated fails: a fragment that the filter empties is not
    recorded, so the accumulated answer differs from the concatenation of
    the raw fragments. *)
Lemma filtered_fragment_not_recorded :
  let raw := u "<thinking/>" in
  let items := [Yield (Chunk (Some [Choice (Some
                  (Delta (Some raw) None))]))] in
  let up := {| construct_ok := true; create_result := Some items |} in
  let r := stream_zhipu_ai_response (map unicode_tolower) (Some (u "key"))
                                    false up (u "q") None in
  raw_fragments (delivered items) = [raw]
  /\ filter_thinking_content raw = []
  /\ contents_of (events r) = []
  /\ concat (full_content_buffer r) = []
  /\ concat (full_content_buffer r)
     <> concat (raw_fragments (delivered items)).
Proof.
  intros raw items up r. repeat split. discriminate.
Qed.

(** C1, amended. A fragment that the filter empties yields no content
    event and is not recorded: the buffer holds, in arrival order, the
    raw fragments whose filtered form is non-empty, and the content
    events carry the filtered forms of exactly those fragments. *)
Theorem buffer_holds_surviving_fragments
        (str_lower : str -> str) (key : str) (cached : bool)
        (up : upstream) (question : str) (pet_profile : option PetProfile)
        (items : list stream_item) :
  key <> [] ->
  cached = true \/ construct_ok up = true ->
  create_result up = Some items ->
  let r := stream_zhipu_ai_response str_lower (Some key) cached up
                                    question pet_profile in
  full_content_buffer r
  = filter survives (raw_fragments (delivered items))
  /\ contents_of (events r)
     = map filter_thinking_content
           (filter survives (raw_fragments (delivered items))).
Proof.
  intros Hkey Hclient Hcreate r.
  destruct (run_with_stream str_lower key cached up question pet_profile
              items Hkey Hclient Hcreate) as [Hbuf Hev].
  fold r in Hbuf, Hev. split; [exact Hbuf|].
  rewrite Hev. change (?a :: ?b ++ ?c) with ([a] ++ b ++ c).
  rewrite !contents_of_app, contents_of_map. simpl contents_of at 1.
  destruct (existsb _ items).
  - simpl. now rewrite app_nil_r.
  - rewrite contents_of_finalize. simpl. now rewrite app_nil_r.
Qed.

Lemma buffer_holds_surviving_fragments_witness :
  let items := [Yield (Chunk (Some [Choice (Some
                  (Delta (Some (u "<thinking/>")) None))]));
                Yield (Chunk (Some [Choice (Some
                  (Delta (Some (u "a<redacted>b")) (Some (u "hm"))))]));
                Raise] in
  let up := {| construct_ok := true; create_result := Some items |} in
  let r := stream_zhipu_ai_response (map unicode_tolower) (Some (u "key"))
                                    false up (u "q") None in
  full_content_buffer r = [u "a<redacted>b"]
  /\ contents_of (events r) = [u "ab"].
Proof.
  intros items up r.
  apply (buffer_holds_surviving_fragments (map unicode_tolower) (u "key")
           false up (u "q") None items).
  - discriminate.
  - right. reflexivity.
  - reflexivity.
Defined.

(** ** The matcher against the pattern semantics *)

Lemma star_greedy_sound {A} (p : char -> bool) (s : str)
      (k : str -> option A) (a : A) :
  star_greedy p s k = Some a ->
  exists w rest, s = w ++ rest /\ forallb p w = true /\ k rest = Some a.
Proof.
  induction s as [|c s IH]; simpl; intros H.
  - now exists [], [].
  - destruct (p c) eqn:Hp.
    + destruct (star_greedy p s k) as [a'|] eqn:E.
      * injection H as ->. destruct (IH eq_refl) as (w & rest & -> & Hw & Hk).
        exists (c :: w), rest. simpl. now rewrite Hp, Hw.
      * now exists [], (c :: s).
    + now exists [], (c :: s).
Qed.

Lemma star_lazy_sound {A} (p : char -> bool) (s : str)
      (k : str -> option A) (a : A) :
  star_lazy p s k = Some a ->
  exists w rest, s = w ++ rest /\ forallb p w = true /\ k rest = Some a.
Proof.
  induction s as [|c s IH]; simpl; intros H.
  - destruct (k []) eqn:E; [|discriminate].
    injection H as ->. now exists [], [].
  - destruct (k (c :: s)) eqn:E.
    + injection H as ->. now exists [], (c :: s).
    + destruct (p c) eqn:Hp; [|discriminate].
      destruct (IH H) as (w & rest & -> & Hw & Hk).
      exists (c :: w), rest. simpl. now rewrite Hp, Hw.
Qed.

(** Soundness: a successful attempt consumed a word of the pattern and
    handed the rest to its continuation. *)
Lemma mt_sound (r : regex) :
  forall A (s : str) (g : option str) (k : str -> option str -> option A)
         (a : A),
    mt r s g k = Some a ->
    exists w rest g', s = w ++ rest /\ matches r w rest /\ k rest g' = Some a.
Proof.
  induction r as [|p|r1 IH1 r2 IH2|r1 IH1 r2 IH2|gr p|r1 IH1|r1 IH1|r1 IH1|];
    intros A s g k a H; simpl in H.
  - exists [], s, g. repeat split; [constructor|assumption].
  - destruct s as [|c s]; [discriminate|].
    destruct (p c) eqn:Hp; [|discriminate].
    exists [c], s, g. repeat split; [now constructor|assumption].
  - apply IH1 in H as (w1 & rest1 & g1 & -> & M1 & H).
    apply IH2 in H as (w2 & rest & g2 & -> & M2 & H).
    exists (w1 ++ w2), rest, g2. rewrite <- app_assoc.
    repeat split; [now constructor|assumption].
  - destruct (mt r1 s g k) as [a'|] eqn:E.
    + injection H as ->. apply IH1 in E as (w & rest & g' & -> & M & Hk).
      exists w, rest, g'. repeat split; [now apply M_AltL|assumption].
    + apply IH2 in H as (w & rest & g' & -> & M & Hk).
      exists w, rest, g'. repeat split; [now apply M_AltR|assumption].
  - destruct gr.
    + apply star_greedy_sound in H as (w & rest & -> & Hw & Hk).
      exists w, rest, g. repeat split; [now constructor|assumption].
    + apply star_lazy_sound in H as (w & rest & -> & Hw & Hk).
      exists w, rest, g. repeat split; [now constructor|assumption].
  - destruct (mt r1 s g k) as [a'|] eqn:E.
    + injection H as ->. apply IH1 in E as (w & rest & g' & -> & M & Hk).
      exists w, rest, g'. repeat split; [now apply M_OptSome|assumption].
    + exists [], s, g. repeat split; [apply M_OptNone|assumption].
  - apply IH1 in H as (w & rest & g' & -> & M & Hk).
    eexists w, rest, _. repeat split; [now constructor|exact Hk].
  - destruct (mt r1 s g (fun _ _ => Some tt)) as [[]|] eqn:E; [|discriminate].
    apply IH1 in E as (w & rest & g' & -> & M & _).
    exists [], (w ++ rest), g. repeat split; [now constructor|assumption].
  - destruct s as [|c [|c' s]]; try discriminate.
    + exists [], [], g. repeat split; [constructor; now left|assumption].
    + destruct (c =? nl) eqn:Hc; [|discriminate].
      apply N.eqb_eq in Hc. subst c.
      exists [], [nl], g. repeat split; [constructor; now right|assumption].
Qed.

Lemma star_greedy_some {A} (p : char -> bool) (s : str)
      (k : str -> option A) :
  k s <> None -> star_greedy p s k <> None.
Proof.
  destruct s as [|c s]; simpl; [auto|].
  intros H. destruct (p c); [|assumption].
  destruct (star_greedy p s k); [discriminate|assumption].
Qed.

Lemma star_greedy_complete {A} (p : char -> bool) (w rest : str)
      (k : str -> option A) :
  forallb p w = true -> k rest <> None ->
  star_greedy p (w ++ rest) k <> None.
Proof.
  induction w as [|c w IH]; simpl; intros Hw Hk.
  - now apply star_greedy_some.
  - apply andb_true_iff in Hw as [Hc Hw]. rewrite Hc.
    specialize (IH Hw Hk).
    destruct (star_greedy p (w ++ rest) k); [discriminate|contradiction].
Qed.

Lemma star_lazy_some {A} (p : char -> bool) (s : str)
      (k : str -> option A) :
  k s <> None -> star_lazy p s k <> None.
Proof.
  destruct s as [|c s]; simpl; intros H.
  - destruct (k []); [discriminate|contradiction].
  - destruct (k (c :: s)); [discriminate|contradiction].
Qed.

Lemma star_lazy_complete {A} (p : char -> bool) (w rest : str)
      (k : str -> option A) :
  forallb p w = true -> k rest <> None ->
  star_lazy p (w ++ rest) k <> None.
Proof.
  induction w as [|c w IH]; intros Hw Hk.
  - now apply star_lazy_some.
  - simpl in Hw. apply andb_true_iff in Hw as [Hc Hw].
    simpl. destruct (k (c :: w ++ rest)); [discriminate|].
    rewrite Hc. now apply IH.
Qed.

(** Completeness: when the pattern can consume a prefix after which the
    continuation succeeds, the attempt succeeds. *)
Lemma mt_complete (r : regex) (w rest : str) :
  matches r w rest ->
  forall A (g : option str) (k : str -> option str -> option A),
    (forall g', k rest g' <> None) ->
    mt r (w ++ rest) g k <> None.
Proof.
  induction 1 as [rest|p c rest Hp|r1 r2 w1 w2 rest _ IH1 _ IH2
                  |r1 r2 w rest _ IH|r1 r2 w rest _ IH|gr p w rest Hw
                  |r w rest _ IH|r rest|r w rest _ IH|r w rest _ IH
                  |rest Hrest];
    intros A g k Hk; simpl.
  - apply Hk.
  - rewrite Hp. apply Hk.
  - rewrite <- app_assoc. apply IH1. intros g'. now apply IH2.
  - specialize (IH A g k Hk).
    destruct (mt r1 (w ++ rest) g k); [discriminate|contradiction].
  - destruct (mt r1 (w ++ rest) g k); [discriminate|]. now apply IH.
  - destruct gr.
    + apply star_greedy_complete; [assumption|apply Hk].
    + apply star_lazy_complete; [assumption|apply Hk].
  - specialize (IH A g k Hk).
    destruct (mt r (w ++ rest) g k); [discriminate|contradiction].
  - destruct (mt r rest g k); [discriminate|apply Hk].
  - apply IH. intros g'. apply Hk.
  - assert (Hl : mt r (w ++ rest) g (fun _ _ => Some tt) <> None)
      by (apply IH; discriminate).
    destruct (mt r (w ++ rest) g (fun _ _ => Some tt)); [apply Hk|contradiction].
  - destruct Hrest as [-> | ->]; simpl; apply Hk.
Qed.

Lemma match_at_sound (r : regex) (s rest : str) (g : option str) :
  match_at r s = Some (rest, g) ->
  exists w, s = w ++ rest /\ matches r w rest.
Proof.
  unfold match_at. intros H.
  apply mt_sound in H as (w & rest' & g' & -> & M & [= -> _]).
  now exists w.
Qed.

Lemma match_at_complete (r : regex) (w rest : str) :
  matches r w rest -> match_at r (w ++ rest) <> None.
Proof.
  intros M. unfold match_at. apply (mt_complete r w rest M). discriminate.
Qed.

(** Inversion of the semantics, by pattern shape. *)

Lemma matches_seq (r1 r2 : regex) (w rest : str) :
  matches (Seq r1 r2) w rest ->
  exists w1 w2, w = w1 ++ w2 /\ matches r1 w1 (w2 ++ rest)
                /\ matches r2 w2 rest.
Proof. inversion 1; subst. eauto. Qed.

Lemma matches_chr (p : char -> bool) (w rest : str) :
  matches (Chr p) w rest -> exists c, w = [c] /\ p c = true.
Proof. inversion 1; subst. eauto. Qed.

Lemma matches_lit (c : char) (w rest : str) :
  matches (lit c) w rest -> w = [c].
Proof.
  intros H. apply matches_chr in H as (c' & -> & E).
  apply N.eqb_eq in E. now subst.
Qed.

Lemma matches_star (g : bool) (p : char -> bool) (w rest : str) :
  matches (Star g p) w rest -> forallb p w = true.
Proof. now inversion 1. Qed.

Lemma matches_lits (m w rest : str) : matches (lits m) w rest -> w = m.
Proof.
  revert w. induction m as [|c m IH]; intros w H; simpl in H.
  - now inversion H.
  - apply matches_seq in H as (w1 & w2 & -> & H1 & H2).
    apply matches_lit in H1. apply IH in H2. now subst.
Qed.

Lemma matches_lits_intro (m rest : str) : matches (lits m) m rest.
Proof.
  induction m as [|c m IH]; simpl; [constructor|].
  change (c :: m) with ([c] ++ m). constructor; [|exact IH].
  constructor. apply N.eqb_refl.
Qed.

(** A pattern that begins with a literal only matches where the literal
    stands. *)
Lemma match_at_lits_prefix (m : str) (r : regex) (s : str) :
  starts_with m s = false -> match_at (Seq (lits m) r) s = None.
Proof.
  intros H. destruct (match_at (Seq (lits m) r) s) as [[rest g]|] eqn:E;
    [|reflexivity].
  apply match_at_sound in E as (w & -> & M).
  apply matches_seq in M as (w1 & w2 & -> & M1 & _).
  apply matches_lits in M1. subst w1.
  rewrite <- app_assoc, starts_with_app in H. discriminate.
Qed.

Lemma contains_false_cons (p : str) (c : char) (s : str) :
  contains p (c :: s) = false ->
  starts_with p (c :: s) = false /\ contains p s = false.
Proof. rewrite contains_cons. apply orb_false_iff. Qed.

Lemma no_match_lits (m : str) (r : regex) (s : str) :
  contains m s = false -> no_match (Seq (lits m) r) s.
Proof.
  induction s as [|c s IH]; intros H.
  - split; [|exact I]. apply match_at_lits_prefix.
    simpl in H. now apply orb_false_iff in H as [H _].
  - apply contains_false_cons in H as [H1 H2]. split.
    + now apply match_at_lits_prefix.
    + now apply IH.
Qed.

(** ** [re.sub] *)

Lemma sub_from_skip (r : regex) (f : option str -> str) (w rest : str) :
  sub_from r f (length w) (w ++ rest) = sub_from r f 0 rest.
Proof.
  induction w as [|c w IH]; [reflexivity|].
  simpl. destruct (w ++ rest) eqn:E; exact IH.
Qed.

Lemma sub_from_cons (r : regex) (f : option str -> str) (c : char) (s : str) :
  sub_from r f 0 (c :: s) =
    match match_at r (c :: s) with
    | Some (rest, g) =>
        match (length (c :: s) - length rest)%nat with
        | O => f g ++ c :: sub_from r f 0 s
        | S n => f g ++ sub_from r f n s
        end
    | None => c :: sub_from r f 0 s
    end.
Proof. reflexivity. Qed.

Lemma re_sub_nil (r : regex) (f : option str -> str) :
  match_at r [] = None -> re_sub r f [] = [].
Proof. unfold re_sub. simpl. now intros ->. Qed.

Lemma re_sub_nomatch (r : regex) (f : option str -> str) (c : char) (s : str) :
  match_at r (c :: s) = None -> re_sub r f (c :: s) = c :: re_sub r f s.
Proof. unfold re_sub. rewrite sub_from_cons. now intros ->. Qed.

Lemma re_sub_match (r : regex) (f : option str -> str)
      (c : char) (w rest : str) (g : option str) :
  match_at r (c :: w ++ rest) = Some (rest, g) ->
  re_sub r f (c :: w ++ rest) = f g ++ re_sub r f rest.
Proof.
  unfold re_sub. intros H. rewrite sub_from_cons, H.
  replace (length (c :: w ++ rest) - length rest)%nat with (S (length w))
    by (change (length (c :: w ++ rest)) with (S (length (w ++ rest)));
        rewrite length_app; lia).
  now rewrite sub_from_skip.
Qed.

Lemma re_sub_no_match (r : regex) (f : option str -> str) (s : str) :
  no_match r s -> re_sub r f s = s.
Proof.
  induction s as [|c s IH]; intros [H1 H2].
  - now apply re_sub_nil.
  - rewrite re_sub_nomatch by assumption. f_equal. now apply IH.
Qed.

(** ** Tag constructs and the two tag patterns *)

Lemma ci_char_not_gt (p c : char) :
  (p =? GT) = false -> ci_char p c = true -> not_char GT c = true.
Proof.
  intros Hp H. unfold not_char. destruct (c =? GT) eqn:E; [|reflexivity].
  apply N.eqb_eq in E. subst c. unfold ci_char in H.
  change (unicode_tolower GT) with GT in H.
  change (GT =? 305) with false in H. change (GT =? 383) with false in H.
  rewrite !andb_false_r, !orb_false_r, N.eqb_sym, Hp in H. discriminate.
Qed.

Lemma matches_ilits (kw w rest : str) :
  matches (ilits kw) w rest ->
  (forall t, ci_starts_with kw (w ++ t) = true)
  /\ (forallb (fun p => negb (p =? GT)) kw = true -> no_gt w = true).
Proof.
  revert w. induction kw as [|p kw IH]; intros w H; simpl in H.
  - inversion H; subst. split; reflexivity.
  - apply matches_seq in H as (w1 & w2 & -> & H1 & H2).
    apply matches_chr in H1 as (c & -> & Hc).
    destruct (IH _ H2) as [IHa IHb]. split.
    + intros t. simpl. now rewrite Hc, IHa.
    + simpl. intros Hkw. apply andb_true_iff in Hkw as [Hp Hkw].
      apply negb_true_iff in Hp.
      now rewrite (ci_char_not_gt p c Hp Hc), IHb.
Qed.

Lemma ilits_intro (kw s : str) :
  ci_starts_with kw s = true ->
  exists w t, s = w ++ t /\ forall rest, matches (ilits kw) w rest.
Proof.
  revert s. induction kw as [|p kw IH]; intros s H; simpl in *.
  - exists [], s. split; [reflexivity|]. constructor.
  - destruct s as [|c s]; [discriminate|].
    apply andb_true_iff in H as [Hc H].
    destruct (IH _ H) as (w & t & -> & M).
    exists (c :: w), t. split; [reflexivity|]. intros rest.
    change (c :: w) with ([c] ++ w). constructor; [|apply M].
    now constructor.
Qed.

Lemma matches_alt (r1 r2 : regex) (w rest : str) :
  matches (Alt r1 r2) w rest -> matches r1 w rest \/ matches r2 w rest.
Proof. inversion 1; subst; auto. Qed.

Lemma matches_opt (r : regex) (w rest : str) :
  matches (Opt r) w rest -> matches r w rest \/ w = [].
Proof. inversion 1; subst; auto. Qed.

Lemma matches_keyword (w rest : str) :
  matches KEYWORD w rest ->
  (forall t, keyword_here (w ++ t) = true) /\ no_gt w = true.
Proof.
  unfold KEYWORD, keyword_here. intros H.
  apply matches_alt in H as [H|H]; [|apply matches_alt in H as [H|H]];
    apply matches_ilits in H as [Ha Hb];
    (split; [intros t; rewrite Ha|now apply Hb]).
  - reflexivity.
  - now rewrite orb_true_r.
  - now rewrite orb_true_r.
Qed.

Lemma keyword_intro (s : str) :
  keyword_here s = true ->
  exists w t, s = w ++ t /\ forall rest, matches KEYWORD w rest.
Proof.
  unfold keyword_here, KEYWORD. intros H.
  apply orb_true_iff in H as [H|H]; [apply orb_true_iff in H as [H|H]|];
    apply ilits_intro in H as (w & t & -> & M); exists w, t;
    (split; [reflexivity|]); intros rest.
  - apply M_AltL, M.
  - apply M_AltR, M_AltL, M.
  - apply M_AltR, M_AltR, M.
Qed.

Lemma has_keyword_cons (c : char) (s : str) :
  has_keyword (c :: s) = keyword_here (c :: s) || has_keyword s.
Proof. reflexivity. Qed.

Lemma has_keyword_here (s : str) :
  keyword_here s = true -> has_keyword s = true.
Proof.
  intros H. destruct s as [|c s].
  - change (has_keyword []) with (keyword_here [] || false). now rewrite H.
  - now rewrite has_keyword_cons, H.
Qed.

Lemma has_keyword_app (a s : str) :
  has_keyword s = true -> has_keyword (a ++ s) = true.
Proof.
  intros H. induction a as [|c a IH]; [exact H|].
  rewrite <- app_comm_cons, has_keyword_cons, IH. apply orb_true_r.
Qed.

Lemma has_keyword_inv (s : str) :
  has_keyword s = true ->
  exists a t, s = a ++ t /\ keyword_here t = true.
Proof.
  induction s as [|c s IH]; intros H.
  - change (has_keyword []) with (keyword_here [] || false) in H.
    rewrite orb_false_r in H. now exists [], [].
  - rewrite has_keyword_cons in H. apply orb_true_iff in H as [H|H].
    + now exists [], (c :: s).
    + destruct (IH H) as (a & t & -> & Ht). now exists (c :: a), t.
Qed.

Lemma no_gt_app (a b : str) : no_gt (a ++ b) = no_gt a && no_gt b.
Proof. apply forallb_app. Qed.

Lemma tag_body_app (body rest : str) :
  no_gt body = true -> tag_body (body ++ GT :: rest) = Some body.
Proof.
  induction body as [|c body IH]; simpl; intros H; [reflexivity|].
  apply andb_true_iff in H as [Hc H]. unfold not_char in Hc.
  apply negb_true_iff in Hc. now rewrite Hc, IH.
Qed.

Lemma tag_body_inv (s body : str) :
  tag_body s = Some body ->
  no_gt body = true /\ exists rest, s = body ++ GT :: rest.
Proof.
  revert body. induction s as [|c s IH]; intros body H; simpl in H.
  - discriminate.
  - destruct (c =? GT) eqn:E.
    + injection H as <-. apply N.eqb_eq in E. subst c.
      split; [reflexivity|]. now exists s.
    + destruct (tag_body s) as [b|]; [|discriminate].
      injection H as <-. destruct (IH b eq_refl) as [Hb [rest ->]].
      split.
      * simpl. unfold not_char at 1. now rewrite E, Hb.
      * now exists rest.
Qed.

Lemma tag_body_none (s : str) : tag_body s = None <-> no_gt s = true.
Proof.
  induction s as [|c s IH]; simpl; [tauto|].
  unfold not_char at 1. destruct (c =? GT); simpl.
  - split; discriminate.
  - destruct (tag_body s); split; intros H; try discriminate.
    + apply IH in H. discriminate.
    + now apply IH.
    + reflexivity.
Qed.

Lemma tag_at_intro (body rest : str) :
  no_gt body = true -> has_keyword body = true ->
  tag_at (LT :: body ++ GT :: rest) = true.
Proof.
  intros Hb Hk. unfold tag_at. now rewrite N.eqb_refl, tag_body_app, Hk.
Qed.

Lemma tag_at_inv (s : str) :
  tag_at s = true ->
  exists body rest, s = LT :: body ++ GT :: rest
                    /\ no_gt body = true /\ has_keyword body = true.
Proof.
  destruct s as [|c s]; [discriminate|]. unfold tag_at.
  intros H. apply andb_true_iff in H as [Hc H].
  apply N.eqb_eq in Hc. subst c.
  destruct (tag_body s) as [b|] eqn:E; [|discriminate].
  destruct (tag_body_inv s b E) as [Hb [rest ->]].
  now exists b, rest.
Qed.

(** What [<[^>]*NAME[^>]*] consumes. *)
Lemma matches_tag_open (r : regex) (w rest : str) :
  matches (Seq (lit LT) (Seq TAG_BODY r)) w rest ->
  exists body x, w = LT :: body ++ x /\ no_gt body = true
                 /\ (forall t, has_keyword (body ++ t) = true)
                 /\ matches r x rest.
Proof.
  intros H. apply matches_seq in H as (w0 & w' & -> & H0 & H).
  apply matches_lit in H0. subst w0.
  apply matches_seq in H as (wb & x & -> & Hb & Hx).
  unfold TAG_BODY in Hb.
  apply matches_seq in Hb as (a & w1 & -> & Ha & Hb).
  apply matches_seq in Hb as (k & b & -> & Hk & Hb).
  apply matches_star in Ha. apply matches_star in Hb.
  apply matches_keyword in Hk as [Hk1 Hk2].
  exists (a ++ k ++ b), x. repeat split.
  - unfold no_gt in *. now rewrite !forallb_app, Ha, Hk2, Hb.
  - intros t. rewrite <- app_assoc. apply has_keyword_app.
    apply has_keyword_here. rewrite <- app_assoc. apply Hk1.
  - exact Hx.
Qed.

Lemma single_tag_sound (s rest : str) (g : option str) :
  match_at RE_SINGLE_TAG s = Some (rest, g) ->
  exists body, s = LT :: body ++ GT :: rest
               /\ no_gt body = true /\ has_keyword body = true.
Proof.
  intros H. apply match_at_sound in H as (w & -> & M).
  apply matches_tag_open in M as (body & x & -> & Hb & Hk & Hx).
  apply matches_seq in Hx as (o & e & -> & Ho & He).
  apply matches_lit in He. subst e.
  apply matches_opt in Ho as [Hs| ->].
  - apply matches_lit in Hs. subst o. exists (body ++ [SLASH]).
    repeat split.
    + simpl. now rewrite <- !app_assoc.
    + now rewrite no_gt_app, Hb.
    + apply Hk.
  - exists body. repeat split.
    + simpl. now rewrite <- app_assoc.
    + exact Hb.
    + rewrite <- (app_nil_r body). apply Hk.
Qed.

Lemma single_tag_none (s : str) :
  tag_at s = false -> match_at RE_SINGLE_TAG s = None.
Proof.
  intros H. destruct (match_at RE_SINGLE_TAG s) as [[rest g]|] eqn:E;
    [|reflexivity].
  apply single_tag_sound in E as (body & -> & Hb & Hk).
  now rewrite tag_at_intro in H.
Qed.

Lemma paired_tag_none (s : str) :
  tag_at s = false -> match_at RE_PAIRED_TAG s = None.
Proof.
  intros H. destruct (match_at RE_PAIRED_TAG s) as [[rest g]|] eqn:E;
    [|reflexivity].
  apply match_at_sound in E as (w & -> & M).
  apply matches_tag_open in M as (body & x & -> & Hb & Hk & Hx).
  apply matches_seq in Hx as (e & y & -> & He & _).
  apply matches_lit in He. subst e.
  replace ((LT :: body ++ [GT] ++ y) ++ rest)
    with (LT :: body ++ GT :: (y ++ rest)) in H
    by (simpl; now rewrite <- app_assoc).
  rewrite (tag_at_intro body (y ++ rest) Hb) in H; [discriminate|].
  rewrite <- (app_nil_r body). apply Hk.
Qed.

Lemma single_tag_some (s : str) :
  tag_at s = true ->
  exists body rest g,
    s = LT :: body ++ GT :: rest
    /\ match_at RE_SINGLE_TAG s = Some (rest, g)
    /\ no_gt body = true /\ has_keyword body = true.
Proof.
  intros H. pose proof H as H0.
  apply tag_at_inv in H as (body & rest & -> & Hb & Hk).
  assert (M : matches RE_SINGLE_TAG (LT :: body ++ [GT]) rest).
  { apply has_keyword_inv in Hk as (a & t & -> & Ht).
    apply keyword_intro in Ht as (k & b & -> & Mk).
    rewrite !no_gt_app in Hb.
    apply andb_true_iff in Hb as [Ha Hb].
    apply andb_true_iff in Hb as [_ Hb].
    unfold RE_SINGLE_TAG, TAG_BODY.
    change (LT :: (a ++ k ++ b) ++ [GT])
      with ([LT] ++ ((a ++ k ++ b) ++ [GT])).
    constructor; [constructor; apply N.eqb_refl|].
    constructor.
    - constructor; [now constructor|]. constructor; [apply Mk|].
      now constructor.
    - change [GT] with ([] ++ [GT]). constructor; [apply M_OptNone|].
      constructor. apply N.eqb_refl. }
  pose proof (match_at_complete _ _ _ M) as Hc.
  destruct (match_at RE_SINGLE_TAG ((LT :: body ++ [GT]) ++ rest))
    as [[rest' g]|] eqn:E; [|contradiction].
  simpl in E. rewrite <- app_assoc in E. simpl in E.
  pose proof E as E'.
  apply single_tag_sound in E' as (body' & Heq & Hb' & Hk').
  injection Heq as Heq.
  pose proof (tag_body_app body rest Hb) as T1.
  pose proof (tag_body_app body' rest' Hb') as T2.
  rewrite Heq, T2 in T1. injection T1 as ->.
  apply app_inv_head in Heq. injection Heq as <-.
  exists body, rest, g. repeat split; assumption.
Qed.

(** ** [filter_thinking_content] leaves no tag construct *)

Lemma has_tag_cons (c : char) (s : str) :
  has_tag (c :: s) = tag_at (c :: s) || has_tag s.
Proof. reflexivity. Qed.

Lemma has_tag_nil : has_tag [] = false.
Proof. reflexivity. Qed.

Lemma no_tag_no_single (s : str) :
  has_tag s = false -> no_match RE_SINGLE_TAG s.
Proof.
  induction s as [|c s IH]; intros H.
  - split; [now apply single_tag_none|exact I].
  - rewrite has_tag_cons in H. apply orb_false_iff in H as [H1 H2].
    split; [now apply single_tag_none|now apply IH].
Qed.

Lemma no_tag_no_paired (s : str) :
  has_tag s = false -> no_match RE_PAIRED_TAG s.
Proof.
  induction s as [|c s IH]; intros H.
  - split; [now apply paired_tag_none|exact I].
  - rewrite has_tag_cons in H. apply orb_false_iff in H as [H1 H2].
    split; [now apply paired_tag_none|now apply IH].
Qed.

Lemma no_gt_no_tag (s : str) : no_gt s = true -> has_tag s = false.
Proof.
  induction s as [|c s IH]; intros H; [reflexivity|].
  simpl in H. apply andb_true_iff in H as [_ H].
  rewrite has_tag_cons, (IH H). unfold tag_at.
  now rewrite (proj2 (tag_body_none s) H), andb_false_r.
Qed.

(** Up to the first [>], text without a tag name is copied. *)
Lemma single_tag_sub_body (body rest : str) :
  no_gt body = true -> has_keyword body = false ->
  re_sub RE_SINGLE_TAG (fixed []) (body ++ GT :: rest)
  = body ++ GT :: re_sub RE_SINGLE_TAG (fixed []) rest.
Proof.
  induction body as [|x b IH]; intros Hb Hk.
  - apply re_sub_nomatch. now apply single_tag_none.
  - simpl in Hb. apply andb_true_iff in Hb as [_ Hb].
    rewrite has_keyword_cons in Hk. apply orb_false_iff in Hk as [_ Hk].
    rewrite <- app_comm_cons, re_sub_nomatch.
    + now rewrite IH.
    + apply single_tag_none. unfold tag_at.
      now rewrite (tag_body_app b rest Hb), Hk, andb_false_r.
Qed.

Lemma single_tag_sub_clean_le (n : nat) :
  forall s, (length s <= n)%nat ->
            has_tag (re_sub RE_SINGLE_TAG (fixed []) s) = false.
Proof.
  induction n as [|n IH]; intros s Hn.
  - destruct s; [|simpl in Hn; lia].
    now rewrite re_sub_nil by (now apply single_tag_none).
  - destruct s as [|c s].
    { now rewrite re_sub_nil by (now apply single_tag_none). }
    destruct (tag_at (c :: s)) eqn:T.
    + apply single_tag_some in T as (body & rest & g & E & M & _ & _).
      injection E as -> ->.
      replace (LT :: body ++ GT :: rest)
        with (LT :: (body ++ [GT]) ++ rest) in *
        by (now rewrite <- app_assoc).
      rewrite (re_sub_match _ _ _ _ _ _ M). simpl app.
      apply IH. simpl in Hn. rewrite !length_app in Hn. lia.
    + rewrite re_sub_nomatch by (now apply single_tag_none).
      rewrite has_tag_cons, (IH s) by (simpl in Hn; lia).
      rewrite orb_false_r. unfold tag_at in *.
      destruct (c =? LT); [|reflexivity]. simpl in *.
      destruct (tag_body s) as [body|] eqn:B.
      * destruct (tag_body_inv s body B) as [Hb [rest ->]].
        rewrite single_tag_sub_body by assumption.
        now rewrite tag_body_app.
      * apply tag_body_none in B.
        rewrite (re_sub_no_match _ _ _ (no_tag_no_single _ (no_gt_no_tag _ B))).
        now rewrite (proj2 (tag_body_none s) B).
Qed.

Lemma single_tag_sub_clean (s : str) :
  has_tag (re_sub RE_SINGLE_TAG (fixed []) s) = false.
Proof. now apply (single_tag_sub_clean_le (length s)). Qed.

Lemma filter_thinking_content_clean (x : str) :
  has_tag (filter_thinking_content x) = false.
Proof.
  unfold filter_thinking_content.
  destruct x; [reflexivity|apply single_tag_sub_clean].
Qed.

Lemma filter_thinking_content_id (x : str) :
  has_tag x = false -> filter_thinking_content x = x.
Proof.
  intros H. unfold filter_thinking_content.
  destruct (is_empty x); [reflexivity|].
  rewrite (re_sub_no_match _ _ _ (no_tag_no_paired x H)).
  now apply re_sub_no_match, no_tag_no_single.
Qed.

Lemma ci_starts_with_app (p s t : str) :
  ci_starts_with p s = true -> ci_starts_with p (s ++ t) = true.
Proof.
  revert s. induction p as [|x p IH]; intros s H; [reflexivity|].
  destruct s as [|y s]; [discriminate|]. simpl in *.
  apply andb_true_iff in H as [-> H]. now apply IH.
Qed.

Lemma keyword_here_app (s t : str) :
  keyword_here s = true -> keyword_here (s ++ t) = true.
Proof.
  unfold keyword_here. intros H.
  apply orb_true_iff in H as [H|H]; [apply orb_true_iff in H as [H|H]|];
    rewrite (ci_starts_with_app _ _ t H); now rewrite ?orb_true_r.
Qed.

Lemma has_keyword_infix (a s b : str) :
  has_keyword s = true -> has_keyword (a ++ s ++ b) = true.
Proof.
  intros H. apply has_keyword_app.
  apply has_keyword_inv in H as (x & t & -> & Ht).
  rewrite <- app_assoc. apply has_keyword_app, has_keyword_here.
  now apply keyword_here_app.
Qed.

(** Text without any of the tag names has no tag construct. *)
Lemma no_keyword_no_tag (s : str) :
  has_keyword s = false -> has_tag s = false.
Proof.
  induction s as [|c s IH]; intros H; [reflexivity|].
  rewrite has_tag_cons. apply orb_false_iff. split.
  - destruct (tag_at (c :: s)) eqn:T; [|reflexivity].
    apply tag_at_inv in T as (body & rest & E & _ & Hk).
    rewrite E in H.
    change (LT :: body ++ GT :: rest) with ([LT] ++ body ++ GT :: rest) in H.
    now rewrite has_keyword_infix in H.
  - apply IH. rewrite has_keyword_cons in H.
    now apply orb_false_iff in H as [_ H].
Qed.

(** C5. Filtering is idempotent, and text that holds no denylisted tag
    construct (in particular text that mentions none of the three tag
    names) is returned unchanged. *)
Theorem filter_thinking_content_idempotent (x : str) :
  filter_thinking_content (filter_thinking_content x)
  = filter_thinking_content x
  /\ (has_tag x = false -> filter_thinking_content x = x)
  /\ (has_keyword x = false -> filter_thinking_content x = x).
Proof.
  split; [|split].
  - apply filter_thinking_content_id, filter_thinking_content_clean.
  - apply filter_thinking_content_id.
  - intros H. now apply filter_thinking_content_id, no_keyword_no_tag.
Qed.

Lemma filter_thinking_content_idempotent_witness :
  let x := u "<b>thinking aloud</b> 2 > 1" in
  has_tag x = false /\ filter_thinking_content x = x
  /\ has_keyword (u "a < b") = false
  /\ filter_thinking_content (u "a < b") = u "a < b".
Proof.
  intros x.
  destruct (filter_thinking_content_idempotent x) as (_ & H1 & _).
  destruct (filter_thinking_content_idempotent (u "a < b")) as (_ & _ & H2).
  split; [reflexivity|]. split; [apply H1; reflexivity|].
  split; [reflexivity|apply H2; reflexivity].
Defined.

(** ** Trimming *)

Lemma drop_while_split (f : char -> bool) (s : str) :
  exists a, s = a ++ drop_while f s /\ forallb f a = true.
Proof.
  induction s as [|c s (a & E & Ha)]; simpl.
  - now exists [].
  - destruct (f c) eqn:Hc.
    + exists (c :: a). simpl. rewrite Hc, Ha. split; [now f_equal|reflexivity].
    + now exists [].
Qed.

Lemma drop_while_head (f : char -> bool) (s : str) (c : char) (r : str) :
  drop_while f s = c :: r -> f c = false.
Proof.
  induction s as [|x s IH]; simpl; [discriminate|].
  destruct (f x) eqn:Hx; [exact IH|]. now intros [= <- _].
Qed.

Lemma drop_while_id (f : char -> bool) (c : char) (s : str) :
  f c = false -> drop_while f (c :: s) = c :: s.
Proof. simpl. now intros ->. Qed.

Lemma strip_infix (s : str) : exists a b, s = a ++ strip s ++ b.
Proof.
  unfold strip, rstrip, lstrip.
  destruct (drop_while_split is_space s) as (a & Ea & _).
  destruct (drop_while_split is_space (rev (drop_while is_space s)))
    as (b & Eb & _).
  exists a, (rev b). rewrite <- rev_app_distr, <- Eb, rev_involutive.
  exact Ea.
Qed.

Lemma last_cons (c d : char) (s : str) : last (c :: s) d = last s c.
Proof.
  revert c d. induction s as [|x s IH]; intros c d; [reflexivity|].
  change (last (c :: x :: s) d) with (last (x :: s) d).
  now rewrite (IH x d), (IH x c).
Qed.

Lemma trimmed_spec (s : str) :
  trimmed s = true <->
  s = [] \/ exists c r d, s = c :: r /\ is_space c = false
                          /\ is_space (last s d) = false.
Proof.
  destruct s as [|c r]; simpl trimmed.
  - split; [now left|reflexivity].
  - rewrite andb_true_iff, !negb_true_iff. split.
    + intros [H1 H2]. right. exists c, r, c. now rewrite last_cons.
    + intros [H|(c' & r' & d & [= <- <-] & H1 & H2)]; [discriminate|].
      rewrite last_cons in H2. now split.
Qed.

Lemma rstrip_trimmed (s : str) : trimmed s = true -> trimmed (rstrip s) = true.
Proof.
  intros H. unfold rstrip.
  destruct (drop_while_split is_space (rev s)) as (b & Eb & _).
  destruct (drop_while is_space (rev s)) as [|h v] eqn:E; [reflexivity|].
  apply drop_while_head in E.
  assert (Es : s = (rev v ++ [h]) ++ rev b).
  { rewrite <- (rev_involutive s), Eb, rev_app_distr. reflexivity. }
  simpl rev. apply trimmed_spec. right.
  destruct (rev v ++ [h]) as [|c r] eqn:Ev.
  { now destruct (rev v). }
  exists c, r, h. split; [reflexivity|]. split.
  - apply trimmed_spec in H as [H|(c' & r' & d & E' & H1 & _)].
    + subst s. discriminate.
    + rewrite Es in E'. injection E' as <- _. exact H1.
  - rewrite <- Ev, last_last. exact E.
Qed.

Lemma lstrip_head (s : str) :
  lstrip s = [] \/ exists c r, lstrip s = c :: r /\ is_space c = false.
Proof.
  unfold lstrip. destruct (drop_while is_space s) as [|c r] eqn:E.
  - now left.
  - right. exists c, r. split; [reflexivity|].
    now apply (drop_while_head is_space s c r).
Qed.

Lemma rstrip_prefix (s : str) : exists b, s = rstrip s ++ b.
Proof.
  unfold rstrip.
  destruct (drop_while_split is_space (rev s)) as (b & Eb & _).
  exists (rev b). now rewrite <- rev_app_distr, <- Eb, rev_involutive.
Qed.

Lemma rstrip_last (s : str) (d : char) :
  rstrip s <> [] -> is_space (last (rstrip s) d) = false.
Proof.
  unfold rstrip. destruct (drop_while is_space (rev s)) as [|h v] eqn:E.
  - now intros H.
  - intros _. simpl rev. rewrite last_last.
    now apply (drop_while_head is_space (rev s) h v).
Qed.

(** [strip] leaves no whitespace at either end. *)
Lemma strip_trimmed (s : str) : trimmed (strip s) = true.
Proof.
  unfold strip. apply trimmed_spec.
  destruct (rstrip (lstrip s)) as [|c r] eqn:E; [now left|right].
  exists c, r, c. split; [reflexivity|]. split.
  - destruct (rstrip_prefix (lstrip s)) as [b Hb]. rewrite E in Hb.
    destruct (lstrip_head s) as [H|(c' & r' & H & Hc)].
    + rewrite H in Hb. discriminate.
    + rewrite H in Hb. now injection Hb as -> _.
  - rewrite <- E. apply rstrip_last. rewrite E. discriminate.
Qed.

(** A trimmed string is a fixed point of [strip]. *)
Lemma strip_id (s : str) : trimmed s = true -> strip s = s.
Proof.
  intros H. apply trimmed_spec in H as [->|(c & r & d & -> & H1 & H2)];
    [reflexivity|].
  unfold strip, lstrip. rewrite (drop_while_id is_space c r H1).
  unfold rstrip. destruct (rev (c :: r)) as [|h v] eqn:E.
  - apply (f_equal (@rev char)) in E. rewrite rev_involutive in E.
    discriminate.
  - assert (Hl : last (c :: r) d = h).
    { rewrite <- (rev_involutive (c :: r)), E. simpl. apply last_last. }
    rewrite Hl in H2. rewrite (drop_while_id is_space h v H2), <- E.
    apply rev_involutive.
Qed.

Lemma strip_idempotent (s : str) : strip (strip s) = strip s.
Proof. apply strip_id, strip_trimmed. Qed.

(** ** Runs of newlines *)

Lemma star_greedy_total {A} (p : char -> bool) (s : str) (f : str -> A) :
  star_greedy p s (fun s' => Some (f s')) = Some (f (drop_while p s)).
Proof.
  induction s as [|c s IH]; simpl; [reflexivity|].
  destruct (p c); [now rewrite IH|reflexivity].
Qed.

Lemma match_newlines (s : str) :
  match_at RE_NEWLINES s =
    if (3 <=? count_nl s)%nat
    then Some (drop_while (N.eqb nl) s, None)
    else None.
Proof.
  unfold match_at, RE_NEWLINES, lit.
  destruct s as [|c1 s]; [reflexivity|].
  cbn [mt count_nl drop_while Nat.leb].
  destruct (nl =? c1); [|reflexivity].
  destruct s as [|c2 s]; [reflexivity|].
  cbn [mt count_nl drop_while Nat.leb].
  destruct (nl =? c2); [|reflexivity].
  destruct s as [|c3 s]; [reflexivity|].
  cbn [mt count_nl drop_while Nat.leb].
  destruct (nl =? c3); [|reflexivity].
  apply (star_greedy_total (N.eqb nl) s (fun s' => (s', None))).
Qed.

Lemma starts_with_nl3 (s : str) :
  starts_with NL3 s = (3 <=? count_nl s)%nat.
Proof.
  unfold NL3.
  destruct s as [|c1 s]; [reflexivity|].
  cbn [starts_with count_nl Nat.leb].
  destruct (nl =? c1); [|reflexivity].
  destruct s as [|c2 s]; [reflexivity|].
  cbn [starts_with count_nl Nat.leb andb].
  destruct (nl =? c2); [|reflexivity].
  destruct s as [|c3 s]; [reflexivity|].
  cbn [starts_with count_nl Nat.leb andb].
  destruct (nl =? c3); reflexivity.
Qed.

Lemma count_nl_drop (s : str) : count_nl (drop_while (N.eqb nl) s) = O.
Proof.
  induction s as [|c s IH]; simpl; [reflexivity|].
  destruct (nl =? c) eqn:E; [exact IH|]. simpl. now rewrite E.
Qed.

Lemma drop_nl_length (s : str) :
  (length (drop_while (N.eqb nl) s) + count_nl s = length s)%nat
  \/ (count_nl s = 0)%nat.
Proof.
  induction s as [|c s IH]; simpl; [now left|].
  destruct (nl =? c); [|now right]. left.
  destruct IH as [IH|IH]; [lia|].
  destruct s as [|x s]; [reflexivity|]. simpl in *.
  destruct (nl =? x); [discriminate|]. simpl. lia.
Qed.

Lemma collapse_newlines_le (n : nat) :
  forall s, (length s <= n)%nat ->
    contains NL3 (re_sub RE_NEWLINES (fixed [nl; nl]) s) = false
    /\ count_nl (re_sub RE_NEWLINES (fixed [nl; nl]) s)
       = Nat.min (count_nl s) 2.
Proof.
  induction n as [|n IH]; intros s Hn.
  - destruct s; [|simpl in Hn; lia]. now split.
  - destruct s as [|c s]; [now split|].
    pose proof (match_newlines (c :: s)) as M.
    destruct (3 <=? count_nl (c :: s))%nat eqn:L.
    + apply Nat.leb_le in L.
      assert (Ec : (nl =? c) = true).
      { simpl in L. destruct (nl =? c); [reflexivity|lia]. }
      assert (Hmin : Nat.min (count_nl (c :: s)) 2 = 2%nat) by lia.
      rewrite Hmin.
      replace (drop_while (N.eqb nl) (c :: s))
        with (drop_while (N.eqb nl) s) in M by (simpl; now rewrite Ec).
      destruct (drop_while_split (N.eqb nl) s) as (w & Ea & _).
      remember (drop_while (N.eqb nl) s) as rest eqn:Hrest.
      assert (Z : count_nl rest = 0%nat) by (subst rest; apply count_nl_drop).
      destruct (IH rest) as [I1 I2].
      { rewrite Ea in Hn. simpl in Hn. rewrite length_app in Hn. lia. }
      rewrite Z in I2. simpl in I2.
      assert (M' : match_at RE_NEWLINES (c :: w ++ rest) = Some (rest, None))
        by (rewrite <- Ea; exact M).
      replace (c :: s) with (c :: w ++ rest) by (now rewrite <- Ea).
      rewrite (re_sub_match _ _ _ _ _ _ M').
      change (fixed [nl; nl] None) with [nl; nl]. simpl app.
      rewrite !contains_cons, !starts_with_nl3, I1.
      simpl count_nl. rewrite I2. split; reflexivity.
    + apply Nat.leb_gt in L. rewrite (re_sub_nomatch _ _ _ _ M).
      destruct (IH s) as [I1 I2]; [simpl in Hn; lia|].
      rewrite contains_cons, starts_with_nl3, I1, orb_false_r.
      simpl count_nl in *. destruct (nl =? c).
      * rewrite I2. split; [apply Nat.leb_gt|]; lia.
      * split; reflexivity.
Qed.

(** After [\n{3,}] is collapsed, no three newlines are adjacent. *)
Lemma collapse_newlines (s : str) :
  contains NL3 (re_sub RE_NEWLINES (fixed [nl; nl]) s) = false.
Proof. now apply (collapse_newlines_le (length s)). Qed.

Lemma strip_absent (p s : str) :
  contains p s = false -> contains p (strip s) = false.
Proof.
  intros H. destruct (strip_infix s) as (a & b & E). rewrite E in H.
  exact (contains_absent p a (strip s) b H).
Qed.

(** ** The worked example *)

(** C6. On the one-line answer of the example the output consists of
    five lines: the three sections in their original order, each starting
    with its marker, with one empty line between consecutive sections. *)
Theorem format_ai_response_example :
  format_ai_response EXAMPLE_RAW
  = EXAMPLE_LEVEL ++ [nl; nl] ++ EXAMPLE_POINT ++ [nl; nl] ++ EXAMPLE_ADVICE
  /\ split_nl (format_ai_response EXAMPLE_RAW)
     = [EXAMPLE_LEVEL; []; EXAMPLE_POINT; []; EXAMPLE_ADVICE]
  /\ starts_with M_RISK_LEVEL EXAMPLE_LEVEL = true
  /\ starts_with M_RISK_POINT EXAMPLE_POINT = true
  /\ starts_with M_FEEDING EXAMPLE_ADVICE = true.
Proof. vm_compute. repeat split. Qed.

(** ** Lines *)

Lemma split_nl_nonempty (s : str) : split_nl s <> [].
Proof.
  destruct s as [|c s]; simpl; [discriminate|].
  destruct (c =? nl); [discriminate|].
  destruct (split_nl s); discriminate.
Qed.

Lemma join_cons {A} (sep l : list A) (ls : list (list A)) :
  ls <> [] -> join sep (l :: ls) = l ++ sep ++ join sep ls.
Proof. destruct ls; [now intros H|reflexivity]. Qed.

(** Splitting at newlines and joining with newlines are inverse. *)
Lemma join_split_nl (s : str) : join [nl] (split_nl s) = s.
Proof.
  induction s as [|c s IH]; [reflexivity|]. simpl split_nl.
  destruct (c =? nl) eqn:E.
  - apply N.eqb_eq in E. subst c.
    rewrite join_cons by apply split_nl_nonempty. now rewrite IH.
  - destruct (split_nl s) as [|l ls] eqn:S; [now elim (split_nl_nonempty s)|].
    rewrite <- IH. destruct ls; reflexivity.
Qed.

Lemma split_nl_infix (s l : str) :
  In l (split_nl s) -> exists a b, s = a ++ l ++ b.
Proof.
  intros H. destruct (join_In [nl] l (split_nl s) H) as (a & b & E).
  rewrite join_split_nl in E. now exists a, b.
Qed.

Lemma split_nl_no_nl (s : str) : Forall (fun l => no_nl l = true) (split_nl s).
Proof.
  induction s as [|c s IH]; simpl.
  - now constructor.
  - destruct (c =? nl) eqn:E.
    + now constructor.
    + destruct (split_nl s) as [|l ls].
      { constructor; [|constructor]. simpl. unfold not_char.
        now rewrite E. }
      inversion IH; subst. constructor; [|assumption].
      simpl. unfold not_char at 1. now rewrite E.
Qed.

Lemma split_nl_single (s : str) : no_nl s = true -> split_nl s = [s].
Proof.
  induction s as [|c s IH]; simpl; [reflexivity|].
  intros H. apply andb_true_iff in H as [Hc H]. unfold not_char in Hc.
  apply negb_true_iff in Hc. now rewrite Hc, (IH H).
Qed.

Lemma no_nl_infix (a s b : str) : no_nl (a ++ s ++ b) = true -> no_nl s = true.
Proof.
  unfold no_nl. rewrite !forallb_app. intros H.
  apply andb_true_iff in H as [_ H]. now apply andb_true_iff in H as [H _].
Qed.

Lemma strip_no_nl (s : str) : no_nl s = true -> no_nl (strip s) = true.
Proof.
  intros H. destruct (strip_infix s) as (a & b & E). rewrite E in H.
  exact (no_nl_infix a (strip s) b H).
Qed.

Lemma no_nl_absent (s : str) : contains [nl] s = false -> no_nl s = true.
Proof.
  induction s as [|c s IH]; [reflexivity|].
  rewrite contains_cons. intros H. apply orb_false_iff in H as [H1 H2].
  simpl in *. rewrite andb_true_r in H1. unfold not_char.
  now rewrite N.eqb_sym, H1, IH.
Qed.

(** ** The line loop on text without markers *)

Lemma is_header_false (line : str) :
  contains M_RISK_LEVEL line = false ->
  contains M_RISK_POINT line = false ->
  contains M_FEEDING line = false ->
  is_header line = false.
Proof. unfold is_header. now intros -> -> ->. Qed.

Lemma fold_line_step_plain (lines : list str) (acc : list str) :
  (forall l, In l lines -> is_header (strip l) = false) ->
  fold_left line_step lines
            {| formatted_lines := acc; current_section := [] |}
  = {| formatted_lines :=
         acc ++ filter (fun l => negb (is_empty l)) (map strip lines);
       current_section := [] |}.
Proof.
  revert acc. induction lines as [|l lines IH]; intros acc H; simpl.
  - now rewrite app_nil_r.
  - assert (Hl : is_header (strip l) = false) by (apply H; now left).
    unfold line_step at 2. rewrite Hl. simpl.
    destruct (is_empty (strip l)); simpl.
    + apply IH. intros l' Hl'. apply H. now right.
    + rewrite IH by (intros l' Hl'; apply H; now right).
      now rewrite <- app_assoc.
Qed.

Lemma rebuild_lines_plain (text : str) :
  contains M_RISK_LEVEL text = false ->
  contains M_RISK_POINT text = false ->
  contains M_FEEDING text = false ->
  rebuild_lines (split_nl text) = clean_lines text.
Proof.
  intros H1 H2 H3. unfold rebuild_lines.
  rewrite fold_line_step_plain; [reflexivity|].
  intros l Hl. destruct (split_nl_infix text l Hl) as (a & b & E).
  destruct (strip_infix l) as (a' & b' & E').
  assert (Et : text = (a ++ a') ++ strip l ++ (b' ++ b)).
  { rewrite E, E' at 1. now rewrite <- !app_assoc. }
  rewrite Et in H1, H2, H3.
  apply is_header_false; eapply contains_absent; eassumption.
Qed.

Lemma clean_lines_spec (text : str) :
  Forall (fun l => l <> [] /\ trimmed l = true /\ no_nl l = true)
         (clean_lines text).
Proof.
  unfold clean_lines. apply Forall_forall. intros l Hl.
  apply filter_In in Hl as [Hl Hne]. apply in_map_iff in Hl as (l0 & <- & Hl0).
  split; [|split].
  - destruct (strip l0); [discriminate|discriminate].
  - apply strip_trimmed.
  - apply strip_no_nl.
    exact (proj1 (Forall_forall _ _) (split_nl_no_nl text) l0 Hl0).
Qed.

(** ** Joined trimmed lines *)

Lemma no_nl_count (c : char) (s : str) :
  not_char nl c = true -> count_nl (c :: s) = O.
Proof.
  unfold not_char. intros H. apply negb_true_iff in H.
  simpl. now rewrite N.eqb_sym, H.
Qed.

Lemma no_nl_no_nl3 (l : str) : no_nl l = true -> contains NL3 l = false.
Proof.
  induction l as [|x l IH]; intros H; [reflexivity|].
  simpl in H. apply andb_true_iff in H as [Hx H].
  now rewrite contains_cons, starts_with_nl3, (no_nl_count x l Hx), IH.
Qed.

Lemma line_then_newline (l y : str) :
  l <> [] -> no_nl l = true ->
  contains NL3 y = false -> count_nl y = O ->
  contains NL3 (l ++ nl :: y) = false /\ count_nl (l ++ nl :: y) = O.
Proof.
  intros Hne Hl Hy Hc. induction l as [|x l IH]; [now elim Hne|].
  simpl in Hl. apply andb_true_iff in Hl as [Hx Hl].
  rewrite <- app_comm_cons. split; [|now apply no_nl_count].
  rewrite contains_cons, starts_with_nl3, (no_nl_count x _ Hx).
  simpl orb. destruct l as [|x' l].
  - simpl app. rewrite contains_cons, starts_with_nl3. simpl count_nl.
    now rewrite Hc, Hy.
  - apply IH; [discriminate|assumption].
Qed.

Lemma join_lines_no_nl3 (ls : list str) :
  Forall (fun l => l <> [] /\ trimmed l = true /\ no_nl l = true) ls ->
  contains NL3 (join [nl] ls) = false /\ count_nl (join [nl] ls) = O.
Proof.
  induction 1 as [|l ls (Hne & _ & Hl) Hls IH]; [now split|].
  destruct ls as [|l' ls].
  - simpl join. split; [now apply no_nl_no_nl3|].
    destruct l as [|x l]; [now elim Hne|].
    simpl in Hl. apply andb_true_iff in Hl as [Hx Hl].
    now apply no_nl_count.
  - rewrite join_cons by discriminate. destruct IH as [I1 I2].
    now apply line_then_newline.
Qed.

Lemma contains_nl3_no_match (s : str) :
  contains NL3 s = false -> no_match RE_NEWLINES s.
Proof.
  induction s as [|c s IH]; intros H.
  - split; [reflexivity|exact I].
  - rewrite contains_cons in H. apply orb_false_iff in H as [H1 H2].
    split; [|now apply IH].
    rewrite match_newlines, <- starts_with_nl3. now rewrite H1.
Qed.

Lemma last_app_nonempty (a b : str) (d : char) :
  b <> [] -> last (a ++ b) d = last b d.
Proof.
  intros Hb. induction a as [|x a IH]; [reflexivity|].
  rewrite <- app_comm_cons. destruct (a ++ b) eqn:E.
  - destruct a; [now elim Hb|discriminate].
  - exact IH.
Qed.

Lemma join_lines_trimmed (ls : list str) :
  Forall (fun l => l <> [] /\ trimmed l = true /\ no_nl l = true) ls ->
  trimmed (join [nl] ls) = true /\ (ls <> [] -> join [nl] ls <> []).
Proof.
  induction 1 as [|l ls (Hne & Ht & _) Hls IH]; [now split|].
  destruct ls as [|l' ls].
  - simpl join. split; [exact Ht|now intros _].
  - rewrite join_cons by discriminate. destruct IH as [I1 I2].
    specialize (I2 ltac:(discriminate)).
    split; [|destruct l; [now elim Hne|discriminate]].
    apply trimmed_spec. right.
    apply trimmed_spec in Ht as [->|(c & r & d & -> & H1 & _)];
      [now elim Hne|].
    apply trimmed_spec in I1 as [E|(c' & r' & d' & E & _ & H2)];
      [now elim I2|].
    exists c, (r ++ [nl] ++ join [nl] (l' :: ls)), d'.
    split; [reflexivity|]. split; [exact H1|].
    rewrite app_assoc, last_app_nonempty by assumption. exact H2.
Qed.

(** ** [format_ai_response] on text without markers *)

Lemma tag_at_app (t b : str) : tag_at t = true -> tag_at (t ++ b) = true.
Proof.
  intros H. apply tag_at_inv in H as (body & rest & -> & Hb & Hk).
  replace ((LT :: body ++ GT :: rest) ++ b)
    with (LT :: body ++ GT :: (rest ++ b))
    by (simpl; now rewrite <- app_assoc).
  now apply tag_at_intro.
Qed.

Lemma has_tag_inv (s : str) :
  has_tag s = true -> exists x t, s = x ++ t /\ tag_at t = true.
Proof.
  induction s as [|c s IH]; intros H; [discriminate|].
  rewrite has_tag_cons in H. apply orb_true_iff in H as [H|H].
  - now exists [], (c :: s).
  - destruct (IH H) as (x & t & -> & Ht). now exists (c :: x), t.
Qed.

Lemma has_tag_prefix (x t : str) : tag_at t = true -> has_tag (x ++ t) = true.
Proof.
  intros H. induction x as [|c x IH].
  - destruct t; [discriminate|]. simpl app. now rewrite has_tag_cons, H.
  - rewrite <- app_comm_cons, has_tag_cons, IH. apply orb_true_r.
Qed.

Lemma has_tag_absent (a s b : str) :
  has_tag (a ++ s ++ b) = false -> has_tag s = false.
Proof.
  intros H. destruct (has_tag s) eqn:E; [|reflexivity].
  apply has_tag_inv in E as (x & t & -> & Ht).
  replace (a ++ (x ++ t) ++ b) with ((a ++ x) ++ (t ++ b)) in H
    by (now rewrite <- !app_assoc).
  now rewrite (has_tag_prefix (a ++ x) (t ++ b) (tag_at_app t b Ht)) in H.
Qed.

Lemma strip_thinking_id (text : str) :
  has_tag text = false ->
  contains LBL_THINKING text = false ->
  contains LBL_REASONING text = false ->
  strip_thinking text = text.
Proof.
  intros Ht H1 H2. unfold strip_thinking.
  rewrite (re_sub_no_match _ _ _ (no_tag_no_paired text Ht)).
  rewrite (re_sub_no_match _ _ _ (no_tag_no_single text Ht)).
  unfold RE_LABELLED.
  rewrite (re_sub_no_match _ _ _ (no_match_lits LBL_THINKING _ text H1)).
  now rewrite (re_sub_no_match _ _ _ (no_match_lits LBL_REASONING _ text H2)).
Qed.

Lemma normalize_markers_id (text : str) :
  contains M_RISK_LEVEL text = false ->
  contains M_RISK_POINT text = false ->
  contains M_FEEDING text = false ->
  normalize_markers text = text.
Proof.
  intros H1 H2 H3.
  unfold normalize_markers, RE_ASCII_COLON, RE_BETWEEN, RE_COLON.
  rewrite (re_sub_no_match _ _ _ (no_match_lits M_RISK_LEVEL _ text H1)).
  rewrite (re_sub_no_match _ _ _ (no_match_lits M_RISK_POINT _ text H2)).
  rewrite (re_sub_no_match _ _ _ (no_match_lits M_FEEDING _ text H3)).
  rewrite (re_sub_no_match _ _ _ (no_match_lits M_RISK_LEVEL _ text H1)).
  rewrite (re_sub_no_match _ _ _ (no_match_lits M_RISK_POINT _ text H2)).
  rewrite (re_sub_no_match _ _ _ (no_match_lits M_RISK_LEVEL _ text H1)).
  rewrite (re_sub_no_match _ _ _ (no_match_lits M_RISK_POINT _ text H2)).
  now rewrite (re_sub_no_match _ _ _ (no_match_lits M_FEEDING _ text H3)).
Qed.

(** The formatter after its thinking and marker passes have left the
    text alone. *)
Lemma format_tail_plain (text : str) :
  contains M_RISK_LEVEL text = false ->
  contains M_RISK_POINT text = false ->
  contains M_FEEDING text = false ->
  strip (re_sub RE_NEWLINES (fixed [nl; nl])
                (join [nl] (rebuild_lines (split_nl text))))
  = join [nl] (clean_lines text).
Proof.
  intros H1 H2 H3. rewrite rebuild_lines_plain by assumption.
  pose proof (clean_lines_spec text) as Hs.
  destruct (join_lines_no_nl3 _ Hs) as [Hn _].
  destruct (join_lines_trimmed _ Hs) as [Ht _].
  rewrite (re_sub_no_match _ _ _ (contains_nl3_no_match _ Hn)).
  now apply strip_id.
Qed.

Lemma clean_lines_single (text : str) :
  no_nl text = true -> join [nl] (clean_lines (strip text)) = strip text.
Proof.
  intros H. unfold clean_lines.
  rewrite (split_nl_single _ (strip_no_nl text H)). simpl map.
  rewrite strip_idempotent. simpl filter.
  destruct (strip text); reflexivity.
Qed.

(** C4 as stated fails: blank lines inside the text are dropped, and
    thinking tags are removed, also when no marker is present. *)
Lemma format_ai_response_not_only_trimming :
  let t1 := u "a" ++ [nl; nl] ++ u "b" in
  let t2 := u "<thinking/>a" in
  (contains M_RISK_LEVEL t1 = false /\ contains M_RISK_POINT t1 = false
   /\ contains M_FEEDING t1 = false
   /\ format_ai_response t1 = u "a" ++ [nl] ++ u "b"
   /\ format_ai_response t1 <> strip t1)
  /\ (contains M_RISK_LEVEL t2 = false /\ contains M_RISK_POINT t2 = false
      /\ contains M_FEEDING t2 = false
      /\ format_ai_response t2 = u "a"
      /\ format_ai_response t2 <> strip t2).
Proof.
  intros t1 t2. repeat split; discriminate.
Qed.

(** C4, amended. For text that contains none of the three markers, no
    thinking tag construct and neither thinking label, the formatter
    returns the trimmed text with every line trimmed and blank lines
    dropped; when the text has no newline this is the trimmed text
    itself. *)
Theorem format_ai_response_unmarked (text : str) :
  contains M_RISK_LEVEL text = false ->
  contains M_RISK_POINT text = false ->
  contains M_FEEDING text = false ->
  has_tag text = false ->
  contains LBL_THINKING text = false ->
  contains LBL_REASONING text = false ->
  format_ai_response text = join [nl] (clean_lines (strip text))
  /\ (contains [nl] text = false -> format_ai_response text = strip text).
Proof.
  intros H1 H2 H3 Ht H4 H5.
  assert (E : format_ai_response text = join [nl] (clean_lines (strip text))).
  { unfold format_ai_response. destruct (is_empty text) eqn:Ee.
    - destruct text; [reflexivity|discriminate].
    - destruct (strip_infix text) as (a & b & Es).
      rewrite Es in H1, H2, H3, Ht, H4, H5.
      apply contains_absent in H1, H2, H3, H4, H5.
      apply has_tag_absent in Ht.
      rewrite strip_thinking_id, normalize_markers_id by assumption.
      now apply format_tail_plain. }
  split; [exact E|].
  intros Hnl. rewrite E. apply clean_lines_single. now apply no_nl_absent.
Qed.

Lemma format_ai_response_unmarked_witness :
  let text := u "  dogs can eat <b>cooked</b> rice  " ++ [nl; nl; 32]
              ++ u "in small amounts " ++ [nl] in
  format_ai_response text
  = u "dogs can eat <b>cooked</b> rice" ++ [nl] ++ u "in small amounts"
  /\ format_ai_response (u " plain answer ") = u "plain answer".
Proof.
  intros text.
  assert (H : format_ai_response text = join [nl] (clean_lines (strip text))).
  { apply (format_ai_response_unmarked text); reflexivity. }
  split; [exact H|].
  apply (proj2 (format_ai_response_unmarked (u " plain answer ")
                  eq_refl eq_refl eq_refl eq_refl eq_refl eq_refl)).
  reflexivity.
Defined.

(** ** The line loop as sections *)

Lemma fold_line_step_layout (lines : list str) :
  forall fl cs,
    finish (fold_left line_step lines
                      {| formatted_lines := fl; current_section := cs |})
    = let '(pre, secs) :=
        sections_of (filter (fun l => negb (is_empty l)) (map strip lines)) in
      if is_empty cs then fl ++ pre ++ join [[]] secs
      else fl ++ join [[]] ((cs ++ pre) :: secs).
Proof.
  induction lines as [|l lines IH]; intros fl cs.
  - simpl. unfold finish. simpl.
    destruct cs; simpl; now rewrite ?app_nil_r.
  - simpl fold_left. unfold line_step at 2.
    simpl map. simpl filter.
    destruct (is_empty (strip l)) eqn:El; simpl negb; cbv iota.
    + apply IH.
    + simpl sections_of.
      destruct (is_header (strip l)) eqn:Eh.
      * cbn [formatted_lines current_section]. rewrite IH.
        destruct (sections_of _) as [pre secs]. simpl is_empty.
        destruct cs as [|c0 cs]; simpl is_empty; cbv iota.
        -- reflexivity.
        -- rewrite app_nil_r.
           rewrite (join_cons [[]] (c0 :: cs)) by discriminate.
           now rewrite <- !app_assoc.
      * cbn [formatted_lines current_section].
        destruct cs as [|c0 cs]; simpl is_empty; cbv iota; rewrite IH;
          destruct (sections_of _) as [pre secs]; simpl is_empty; cbv iota.
        -- now rewrite <- app_assoc.
        -- now rewrite <- !app_assoc.
Qed.

(** The loop lays the lines out by sections. *)
Lemma rebuild_lines_layout (lines : list str) :
  rebuild_lines lines
  = layout (filter (fun l => negb (is_empty l)) (map strip lines)).
Proof.
  unfold rebuild_lines, layout.
  change (if is_empty (current_section ?st) then formatted_lines ?st
          else formatted_lines ?st ++ current_section ?st)
    with (finish st).
  rewrite fold_line_step_layout.
  now destruct (sections_of _) as [pre secs].
Qed.

(** ** Substitution of a fixed text keeps a line good *)

Lemma last_indep (s : str) (d d' : char) : s <> [] -> last s d = last s d'.
Proof.
  destruct s as [|c s]; [now intros H|]. intros _.
  now rewrite !last_cons.
Qed.

Lemma trimmed_last (s : str) (d : char) :
  s <> [] -> trimmed s = true -> is_space (last s d) = false.
Proof.
  intros Hne H. apply trimmed_spec in H as [->|(c & r & d' & -> & _ & H)];
    [now elim Hne|].
  now rewrite (last_indep (c :: r) d d') by discriminate.
Qed.

Lemma trimmed_intro (c : char) (r : str) (d : char) :
  is_space c = false -> is_space (last (c :: r) d) = false ->
  trimmed (c :: r) = true.
Proof.
  intros H1 H2. apply trimmed_spec. right. now exists c, r, d.
Qed.

Section SubFixed.

Variables (m : str) (r : regex) (t : str).
Hypothesis m_nonempty : m <> [].
Hypothesis t_good : good t.

Let pat : regex := Seq (lits m) r.

Lemma sub_fixed_nil : re_sub pat (fixed t) [] = [].
Proof.
  apply re_sub_nil, match_at_lits_prefix.
  destruct m; [now elim m_nonempty|reflexivity].
Qed.

(** One step of the scan: a character is copied, or a match that begins
    here is replaced. *)
Lemma sub_fixed_cases (c : char) (s : str) :
  re_sub pat (fixed t) (c :: s) = c :: re_sub pat (fixed t) s
  \/ exists w rest,
      s = w ++ rest
      /\ re_sub pat (fixed t) (c :: s) = t ++ re_sub pat (fixed t) rest.
Proof.
  destruct (match_at pat (c :: s)) as [[rest g]|] eqn:E.
  - right. pose proof E as E'.
    apply match_at_sound in E' as (w0 & Hs & M).
    apply matches_seq in M as (w1 & w2 & -> & M1 & _).
    apply matches_lits in M1. subst w1.
    destruct m as [|x m']; [now elim m_nonempty|].
    simpl in Hs. injection Hs as <- Hs.
    exists (m' ++ w2), rest. split; [exact Hs|].
    rewrite Hs in E |- *. now rewrite (re_sub_match _ _ _ _ _ _ E).
  - left. now apply re_sub_nomatch.
Qed.

Lemma sub_fixed_no_nl_le (n : nat) :
  forall s, (length s <= n)%nat -> no_nl s = true ->
            no_nl (re_sub pat (fixed t) s) = true.
Proof.
  destruct t_good as (_ & _ & Ht).
  induction n as [|n IH]; intros s Hn Hs.
  - destruct s; [|simpl in Hn; lia]. now rewrite sub_fixed_nil.
  - destruct s as [|c s]; [now rewrite sub_fixed_nil|].
    simpl in Hs. apply andb_true_iff in Hs as [Hc Hs].
    destruct (sub_fixed_cases c s) as [-> | (w & rest & -> & ->)].
    + simpl. rewrite Hc. apply IH; [simpl in Hn; lia|assumption].
    + unfold no_nl in *. rewrite forallb_app in *.
      apply andb_true_iff in Hs as [_ Hs]. rewrite Ht.
      apply IH; [|assumption].
      simpl in Hn. rewrite length_app in Hn. lia.
Qed.

Lemma sub_fixed_last_le (n : nat) (d : char) :
  forall s, (length s <= n)%nat -> s <> [] ->
            is_space (last s d) = false ->
            re_sub pat (fixed t) s <> []
            /\ is_space (last (re_sub pat (fixed t) s) d) = false.
Proof.
  destruct t_good as (Hne & Htr & _).
  induction n as [|n IH]; intros s Hn Hs Hl.
  - destruct s; [now elim Hs|simpl in Hn; lia].
  - destruct s as [|c s]; [now elim Hs|].
    destruct (sub_fixed_cases c s) as [-> | (w & rest & -> & ->)].
    + split; [discriminate|].
      destruct s as [|c' s].
      * now rewrite sub_fixed_nil.
      * destruct (IH (c' :: s)) as [I1 I2];
          [simpl in *; lia|discriminate|exact Hl|].
        rewrite last_cons.
        rewrite <- (last_indep _ d c I1). exact I2.
    + split; [destruct t; [now elim Hne|discriminate]|].
      destruct rest as [|c' rest].
      * rewrite sub_fixed_nil, app_nil_r. now apply trimmed_last.
      * destruct (IH (c' :: rest)) as [I1 I2].
        -- simpl in Hn. rewrite length_app in Hn. simpl in *. lia.
        -- discriminate.
        -- change (c :: w ++ c' :: rest) with ((c :: w) ++ c' :: rest) in Hl.
           now rewrite last_app_nonempty in Hl by discriminate.
        -- now rewrite last_app_nonempty.
Qed.

Lemma sub_fixed_good (s : str) : good s -> good (re_sub pat (fixed t) s).
Proof.
  intros (Hne & Htr & Hnl).
  destruct s as [|c s]; [now elim Hne|].
  destruct (sub_fixed_last_le (length (c :: s)) c (c :: s) (le_n _) Hne
              (trimmed_last (c :: s) c Hne Htr)) as [L1 L2].
  split; [exact L1|]. split.
  - destruct (re_sub pat (fixed t) (c :: s)) as [|x y] eqn:E;
      [reflexivity|].
    apply (trimmed_intro x y c); [|exact L2].
    destruct (sub_fixed_cases c s) as [E'| (w & rest & _ & E')];
      rewrite E' in E.
    + injection E as <- _.
      apply trimmed_spec in Htr as [H|(c' & r' & d' & [= <- <-] & H & _)];
        [discriminate|exact H].
    + destruct t_good as (Hne' & Htr' & _).
      destruct t as [|tc t']; [now elim Hne'|].
      injection E as <- _.
      apply trimmed_spec in Htr' as [H|(c' & r' & d' & [= <- <-] & H & _)];
        [discriminate|exact H].
  - now apply (sub_fixed_no_nl_le (length (c :: s))).
Qed.

End SubFixed.

Lemma with_colon_good :
  good (with_colon M_RISK_LEVEL) /\ good (with_colon M_RISK_POINT)
  /\ good (with_colon M_FEEDING).
Proof. repeat split; discriminate. Qed.

Lemma normalize_header_good (line : str) :
  good line -> good (normalize_header line).
Proof.
  intros H. unfold normalize_header, RE_HEADER.
  destruct with_colon_good as (G1 & G2 & G3).
  apply sub_fixed_good; [discriminate|exact G3|].
  apply sub_fixed_good; [discriminate|exact G2|].
  apply sub_fixed_good; [discriminate|exact G1|exact H].
Qed.

(** ** Lines separated by single blank lines *)

Lemma spaced_nonempty (ls : list str) : spaced ls -> ls <> [].
Proof. now destruct 1. Qed.

Lemma good_lines_spaced (ls : list str) :
  Forall good ls -> ls <> [] -> spaced ls.
Proof.
  induction 1 as [|l ls Hl Hls IH]; intros Hne; [now elim Hne|].
  destruct ls as [|l' ls]; [now constructor|].
  apply spaced_cons; [exact Hl|]. now apply IH.
Qed.

Lemma spaced_app (a b : list str) : spaced a -> spaced b -> spaced (a ++ b).
Proof.
  intros Ha Hb. induction Ha as [l Hl|l ls Hl _ IH|l ls Hl _ IH]; simpl.
  - now apply spaced_cons.
  - now apply spaced_cons.
  - now apply spaced_blank.
Qed.

Lemma spaced_blank_app (a b : list str) :
  spaced a -> spaced b -> spaced (a ++ [] :: b).
Proof.
  intros Ha Hb. induction Ha as [l Hl|l ls Hl _ IH|l ls Hl _ IH]; simpl.
  - now apply spaced_blank.
  - now apply spaced_cons.
  - now apply spaced_blank.
Qed.

Lemma sections_of_good (lines : list str) :
  Forall good lines ->
  Forall good (fst (sections_of lines))
  /\ Forall (fun sec => sec <> [] /\ Forall good sec)
            (snd (sections_of lines)).
Proof.
  induction 1 as [|l lines Hl _ [IH1 IH2]]; simpl; [now split|].
  destruct (sections_of lines) as [pre secs]. simpl in IH1, IH2.
  destruct (is_header l); simpl.
  - split; [constructor|]. constructor; [|exact IH2].
    split; [discriminate|].
    constructor; [now apply normalize_header_good|exact IH1].
  - split; [now constructor|exact IH2].
Qed.

Lemma join_sections_spaced (secs : list (list str)) :
  Forall (fun sec => sec <> [] /\ Forall good sec) secs ->
  secs <> [] -> spaced (join [[]] secs).
Proof.
  induction 1 as [|sec secs [Hne Hg] Hs IH]; intros H; [now elim H|].
  destruct secs as [|sec' secs].
  - simpl. now apply good_lines_spaced.
  - rewrite join_cons by discriminate.
    apply spaced_blank_app; [now apply good_lines_spaced|].
    apply IH. discriminate.
Qed.

Lemma layout_spaced (lines : list str) :
  Forall good lines -> layout lines = [] \/ spaced (layout lines).
Proof.
  intros H. destruct (sections_of_good lines H) as [H1 H2].
  unfold layout. destruct (sections_of lines) as [pre secs].
  simpl in H1, H2. destruct secs as [|sec secs].
  - simpl. rewrite app_nil_r. destruct pre as [|l pre]; [now left|right].
    now apply good_lines_spaced.
  - right. pose proof (join_sections_spaced _ H2 ltac:(discriminate)) as Hs.
    destruct pre as [|l pre]; [exact Hs|].
    apply spaced_app; [|exact Hs]. now apply good_lines_spaced.
Qed.

Lemma line_then_newlines (l y : str) :
  l <> [] -> no_nl l = true ->
  contains NL3 y = false -> (count_nl y <= 1)%nat ->
  contains NL3 (l ++ nl :: y) = false /\ count_nl (l ++ nl :: y) = O.
Proof.
  intros Hne Hl Hy Hc. induction l as [|x l IH]; [now elim Hne|].
  simpl in Hl. apply andb_true_iff in Hl as [Hx Hl].
  rewrite <- app_comm_cons. split; [|now apply no_nl_count].
  rewrite contains_cons, starts_with_nl3, (no_nl_count x _ Hx).
  simpl orb. destruct l as [|x' l].
  - simpl app. rewrite contains_cons, starts_with_nl3. simpl count_nl.
    rewrite Hy, orb_false_r. apply Nat.leb_gt. lia.
  - apply IH; [discriminate|assumption].
Qed.

Lemma trimmed_around (l x j : str) :
  good l -> trimmed j = true -> j <> [] -> trimmed (l ++ x ++ j) = true.
Proof.
  intros (Hne & Ht & _) Hj Hjne.
  destruct l as [|c r]; [now elim Hne|].
  apply (trimmed_intro c (r ++ x ++ j) c).
  - apply trimmed_spec in Ht as [H|(c' & r' & d' & [= <- <-] & H & _)];
      [discriminate|exact H].
  - change (c :: r ++ x ++ j) with ((c :: r) ++ x ++ j).
    rewrite !app_assoc, last_app_nonempty by assumption.
    now apply trimmed_last.
Qed.

Lemma spaced_join (ls : list str) :
  spaced ls ->
  contains NL3 (join [nl] ls) = false /\ count_nl (join [nl] ls) = O
  /\ trimmed (join [nl] ls) = true /\ join [nl] ls <> [].
Proof.
  induction 1 as [l Hl|l ls Hl Hs IH|l ls Hl Hs IH].
  - destruct (join_lines_no_nl3 [l]) as [A B];
      [constructor; [exact Hl|constructor]|].
    destruct Hl as (Hne & Ht & Hn). simpl in *. now repeat split.
  - destruct IH as (I1 & I2 & I3 & I4).
    unfold str. rewrite (join_cons [nl] l ls (spaced_nonempty ls Hs)).
    pose proof Hl as (Hne & Ht & Hn).
    destruct (line_then_newlines l (join [nl] ls) Hne Hn I1) as [A B];
      [lia|].
    repeat split; try assumption.
    + now apply trimmed_around.
    + destruct l; [now elim Hne|discriminate].
  - destruct IH as (I1 & I2 & I3 & I4).
    unfold str. rewrite join_cons by discriminate.
    rewrite (join_cons [nl] [] ls (spaced_nonempty ls Hs)).
    pose proof Hl as (Hne & Ht & Hn).
    destruct (line_then_newlines l (nl :: join [nl] ls) Hne Hn) as [A B].
    + rewrite contains_cons, starts_with_nl3. simpl count_nl.
      now rewrite I2, I1.
    + simpl count_nl. rewrite I2. lia.
    + repeat split; try assumption.
      * change ([nl] ++ [] ++ [nl] ++ join [nl] ls)
          with ([nl; nl] ++ join [nl] ls).
        now apply trimmed_around.
      * destruct l; [now elim Hne|discriminate].
Qed.

Lemma clean_lines_good (text : str) : Forall good (clean_lines text).
Proof. exact (clean_lines_spec text). Qed.

(** The formatter in one equation: clean the text, then lay its lines
    out by sections. *)
Lemma format_ai_response_layout (text : str) :
  format_ai_response text
  = join [nl]
         (layout (clean_lines (normalize_markers
                                 (strip_thinking (strip text))))).
Proof.
  unfold format_ai_response. destruct (is_empty text) eqn:E.
  - destruct text; [reflexivity|discriminate].
  - rewrite rebuild_lines_layout.
    change (filter (fun l => negb (is_empty l)) (map strip (split_nl ?t)))
      with (clean_lines t).
    set (lines := clean_lines _).
    destruct (layout_spaced lines (clean_lines_good _)) as [-> | Hs].
    + reflexivity.
    + destruct (spaced_join _ Hs) as (A & _ & B & _).
      rewrite (re_sub_no_match _ _ _ (contains_nl3_no_match _ A)).
      now apply strip_id.
Qed.

(** C10. The formatter's output has no whitespace at either end (the
    empty input is returned as it is, and is empty) and never holds three
    consecutive newlines.  The output is the leading lines followed by the
    sections, with exactly one empty line between consecutive sections;
    the leading lines and the lines of the sections are themselves
    non-empty, so the output has no other empty line. *)
Theorem format_ai_response_trimmed (text : str) :
  let out := format_ai_response text in
  let lines :=
    clean_lines (normalize_markers (strip_thinking (strip text))) in
  trimmed out = true
  /\ contains NL3 out = false
  /\ format_ai_response [] = []
  /\ out = join [nl] (fst (sections_of lines)
                        ++ join [[]] (snd (sections_of lines)))
  /\ Forall good (fst (sections_of lines))
  /\ Forall (fun sec => sec <> [] /\ Forall good sec)
            (snd (sections_of lines)).
Proof.
  intros out lines. subst out.
  split; [|split; [|split; [reflexivity|split]]].
  - unfold format_ai_response. destruct text as [|c text]; [reflexivity|].
    apply strip_trimmed.
  - unfold format_ai_response. destruct text as [|c text]; [reflexivity|].
    apply strip_absent, collapse_newlines.
  - rewrite format_ai_response_layout. fold lines. unfold layout.
    now destruct (sections_of lines).
  - apply sections_of_good, clean_lines_good.
Qed.

(* ===================================================================== *)
(** * Part III. Further properties of the code                            *)
(* ===================================================================== *)

(** ** [ask_ai] *)

Lemma drop_while_all (f : char -> bool) (s : str) :
  forallb f s = true -> drop_while f s = [].
Proof.
  induction s as [|c s IH]; simpl; [reflexivity|].
  intros H. apply andb_true_iff in H as [-> H]. now apply IH.
Qed.

Lemma drop_while_some (f : char -> bool) (s : str) :
  forallb f s = false -> drop_while f s <> [].
Proof.
  induction s as [|c s IH]; simpl; [discriminate|].
  destruct (f c); simpl; [exact IH|discriminate].
Qed.

Lemma forallb_rev (f : char -> bool) (s : str) :
  forallb f (rev s) = forallb f s.
Proof.
  induction s as [|c s IH]; [reflexivity|].
  simpl. rewrite forallb_app, IH. simpl.
  rewrite andb_true_r. apply andb_comm.
Qed.

(** [strip] returns the empty string exactly on whitespace-only text. *)
Lemma strip_empty_iff (s : str) : is_empty (strip s) = forallb is_space s.
Proof.
  unfold strip, rstrip, lstrip.
  destruct (forallb is_space s) eqn:E.
  - now rewrite (drop_while_all is_space s E).
  - destruct (drop_while is_space s) as [|c r] eqn:D.
    + now elim (drop_while_some is_space s E).
    + pose proof (drop_while_head is_space s c r D) as Hc.
      assert (F : forallb is_space (rev (c :: r)) = false).
      { rewrite forallb_rev. simpl. now rewrite Hc. }
      pose proof (drop_while_some is_space _ F) as N.
      destruct (drop_while is_space (rev (c :: r))) as [|h v];
        [now elim N|].
      simpl rev. now destruct (rev v).
Qed.

(** The handler rejects exactly the questions that consist of
    whitespace only, with status 400 and without running the generator;
    any other question is trimmed and streamed, so the generator never
    sees an empty question or one with outer whitespace. *)
Theorem ask_ai_rejects_blank_question
        (str_lower : str -> str) (api_key : option str) (cached : bool)
        (up : upstream) (request : AskRequest) :
  (forallb is_space (question request) = true ->
   ask_ai str_lower api_key cached up request
   = HTTPException 400 DETAIL_EMPTY_QUESTION)
  /\ (forallb is_space (question request) = false ->
      strip (question request) <> []
      /\ trimmed (strip (question request)) = true
      /\ ask_ai str_lower api_key cached up request
         = StreamingResponse
             (stream_zhipu_ai_response str_lower api_key cached up
                (strip (question request)) (pet_profile request))
             MEDIA_TYPE STREAM_HEADERS).
Proof.
  unfold ask_ai. rewrite strip_empty_iff. split; intros H; rewrite H.
  - reflexivity.
  - split; [|split; [apply strip_trimmed|reflexivity]].
    intros E. pose proof (strip_empty_iff (question request)) as S.
    rewrite E, H in S. discriminate.
Qed.

Lemma ask_ai_rejects_blank_question_witness :
  let up := {| construct_ok := true; create_result := Some [] |} in
  ask_ai (map unicode_tolower) (Some (u "key")) false up
         {| question := [32; 10; 12288; 9]; pet_profile := None |}
  = HTTPException 400 DETAIL_EMPTY_QUESTION
  /\ strip (u "  can cats eat grapes? ") = u "can cats eat grapes?"
  /\ ask_ai (map unicode_tolower) (Some (u "key")) false up
            {| question := u "  can cats eat grapes? ";
               pet_profile := None |}
     = StreamingResponse
         (stream_zhipu_ai_response (map unicode_tolower) (Some (u "key"))
            false up (u "can cats eat grapes?") None)
         MEDIA_TYPE STREAM_HEADERS.
Proof.
  intros up. split; [|split].
  - apply (proj1 (ask_ai_rejects_blank_question (map unicode_tolower)
                    (Some (u "key")) false up
                    {| question := [32; 10; 12288; 9];
                       pet_profile := None |})).
    reflexivity.
  - reflexivity.
  - apply (proj2 (ask_ai_rejects_blank_question (map unicode_tolower)
                    (Some (u "key")) false up
                    {| question := u "  can cats eat grapes? ";
                       pet_profile := None |})).
    reflexivity.
Defined.

(** ** Failure paths of [stream_zhipu_ai_response] *)

(** When the client cannot be constructed the run is the status event
    followed by the initialisation error; the chat completion is not
    called, no prompt is built, and no client is kept. *)
Theorem client_init_failure
        (str_lower : str -> str) (key : str) (up : upstream)
        (question : str) (pet_profile : option PetProfile) :
  key <> [] -> construct_ok up = false ->
  let r := stream_zhipu_ai_response str_lower (Some key) false up
                                    question pet_profile in
  events r = [EvStatus STATUS_THINKING; EvError MSG_INIT_FAILED]
  /\ constructions r = 1%nat /\ create_calls r = 0%nat
  /\ client_cached r = false /\ messages r = None
  /\ full_content_buffer r = [].
Proof.
  intros Hkey Hc. destruct key as [|k key]; [now elim Hkey|].
  unfold stream_zhipu_ai_response. rewrite Hc. simpl. repeat split.
Qed.

Lemma client_init_failure_witness :
  let up := {| construct_ok := false;
               create_result := Some [Yield (Chunk (Some [Choice (Some
                 (Delta (Some (u "ok")) None))]))] |} in
  let r := stream_zhipu_ai_response (map unicode_tolower) (Some (u "key"))
                                    false up (u "q") None in
  events r = [EvStatus STATUS_THINKING; EvError MSG_INIT_FAILED]
  /\ constructions r = 1%nat /\ create_calls r = 0%nat
  /\ client_cached r = false /\ messages r = None
  /\ full_content_buffer r = [].
Proof.
  intros up.
  apply (client_init_failure (map unicode_tolower) (u "key") up (u "q") None).
  - discriminate.
  - reflexivity.
Defined.

Lemma delivered_until_raise (pre post : list stream_item) :
  ~ In Raise pre ->
  delivered (pre ++ Raise :: post) = delivered pre.
Proof.
  induction pre as [|[c|] pre IH]; simpl; intros H; [reflexivity| |].
  - f_equal. apply IH. intros Hin. apply H. now right.
  - reflexivity.
Qed.

Lemma existsb_raise_app (pre post : list stream_item) :
  existsb (fun i => match i with Raise => true | Yield _ => false end)
          (pre ++ Raise :: post) = true.
Proof. rewrite existsb_app. simpl. apply orb_true_r. Qed.

(** When the chat completion raises, or the stream raises at some turn,
    the run is the status event, the content events of the fragments
    received before the exception, and the unavailability error: what
    was already emitted stays, nothing is formatted, and no done event
    is emitted.  What the stream would have delivered after the exception
    plays no part. *)
Theorem upstream_failure
        (str_lower : str -> str) (key : str) (cached : bool)
        (up : upstream) (question : str) (pet_profile : option PetProfile) :
  key <> [] ->
  cached = true \/ construct_ok up = true ->
  let r := stream_zhipu_ai_response str_lower (Some key) cached up
                                    question pet_profile in
  (create_result up = None ->
   events r = [EvStatus STATUS_THINKING; EvError MSG_UNAVAILABLE]
   /\ create_calls r = 1%nat)
  /\ (forall pre post,
         create_result up = Some (pre ++ Raise :: post) ->
         ~ In Raise pre ->
         events r =
           EvStatus STATUS_THINKING ::
           map (fun c => EvContent (filter_thinking_content c))
               (kept_fragments pre)
           ++ [EvError MSG_UNAVAILABLE]
         /\ full_content_buffer r = kept_fragments pre
         /\ create_calls r = 1%nat).
Proof.
  intros Hkey Hclient r. split.
  - intros Hcr. subst r. unfold stream_zhipu_ai_response.
    destruct key as [|k key]; [now elim Hkey|].
    assert (negb cached && negb (construct_ok up) = false) as ->.
    { destruct Hclient as [-> | ->]; [reflexivity|apply andb_false_r]. }
    rewrite Hcr. simpl. now split.
  - intros pre post Hcr Hpre.
    destruct (run_with_stream str_lower key cached up question pet_profile
                _ Hkey Hclient Hcr) as [Hbuf Hev].
    fold r in Hbuf, Hev.
    assert (K : kept_fragments (pre ++ Raise :: post) = kept_fragments pre).
    { unfold kept_fragments. now rewrite delivered_until_raise. }
    rewrite K in Hbuf, Hev. rewrite existsb_raise_app in Hev.
    split; [exact Hev|]. split; [exact Hbuf|].
    subst r. unfold stream_zhipu_ai_response.
    destruct key as [|k key]; [now elim Hkey|].
    assert (negb cached && negb (construct_ok up) = false) as ->.
    { destruct Hclient as [-> | ->]; [reflexivity|apply andb_false_r]. }
    rewrite Hcr. now destruct (stream_loop _ _) as [[? ?] ?].
Qed.

Lemma upstream_failure_witness :
  let pre := [Yield (Chunk (Some [Choice (Some
                (Delta (Some (u "【风险等级】")) None))]))] in
  let post := [Yield (Chunk (Some [Choice (Some
                 (Delta (Some (u "never seen")) None))]))] in
  let up := {| construct_ok := true;
               create_result := Some (pre ++ Raise :: post) |} in
  let r := stream_zhipu_ai_response (map unicode_tolower) (Some (u "key"))
                                    false up (u "q") None in
  events r = [EvStatus STATUS_THINKING; EvContent (u "【风险等级】");
              EvError MSG_UNAVAILABLE]
  /\ full_content_buffer r = [u "【风险等级】"]
  /\ create_calls r = 1%nat.
Proof.
  intros pre post up r.
  apply (proj2 (upstream_failure (map unicode_tolower) (u "key") false up
                  (u "q") None ltac:(discriminate)
                  (or_intror eq_refl)) pre post).
  - reflexivity.
  - intros [H|[]]. discriminate H.
Defined.

(** ** What a run costs and when it completes *)

(** A run calls the chat completion at most once and constructs at most
    one client; the prompt is built, and the call made, exactly when a
    credential is present and a client is at hand. *)
Theorem single_attempt
        (str_lower : str -> str) (api_key : option str) (cached : bool)
        (up : upstream) (question : str) (pet_profile : option PetProfile) :
  let r := stream_zhipu_ai_response str_lower api_key cached up
                                    question pet_profile in
  let reached :=
    match api_key with
    | Some (_ :: _) => cached || construct_ok up
    | _ => false
    end in
  (create_calls r <= 1)%nat /\ (constructions r <= 1)%nat
  /\ create_calls r = (if reached then 1%nat else 0%nat)
  /\ (messages r <> None <-> reached = true)
  /\ (cached = true -> constructions r = 0%nat).
Proof.
  unfold stream_zhipu_ai_response.
  destruct api_key as [[|k key]|]; simpl.
  - repeat split; try lia; try discriminate. now intros H.
  - destruct cached, (construct_ok up); simpl;
      try (destruct (create_result up) as [items|];
           [destruct (stream_loop items []) as [[? ?] ?]|]);
      simpl; repeat split; try lia; try discriminate;
      try (now intros H); try (intros H; now elim H).
  - repeat split; try lia; try discriminate. now intros H.
Qed.

Lemma events_last_done_or_error
      (str_lower : str -> str) (api_key : option str) (cached : bool)
      (up : upstream) (question : str) (pet_profile : option PetProfile) :
  let r := stream_zhipu_ai_response str_lower api_key cached up
                                    question pet_profile in
  exists body,
    Forall (fun e => is_terminal e = false) body
    /\ events r = body ++ [if completes api_key cached up then EvDone
                           else EvError
                                  (match api_key with
                                   | Some (_ :: _) =>
                                       if cached || construct_ok up
                                       then MSG_UNAVAILABLE
                                       else MSG_INIT_FAILED
                                   | _ => MSG_NO_KEY
                                   end)].
Proof.
  intros r. subst r. unfold completes.
  destruct api_key as [[|k key]|].
  - exists []. split; [constructor|reflexivity].
  - destruct (cached || construct_ok up) eqn:Hc.
    + assert (Hclient : cached = true \/ construct_ok up = true)
        by (now apply orb_true_iff).
      destruct (create_result up) as [items|] eqn:Hcr.
      * destruct (run_with_stream str_lower (k :: key) cached up question
                    pet_profile items ltac:(discriminate) Hclient Hcr)
          as [_ ->].
        change (existsb is_raise items)
          with (existsb (fun i => match i with Raise => true
                                          | Yield _ => false end) items).
        destruct (existsb _ items); simpl.
        -- exists (EvStatus STATUS_THINKING ::
                   map (fun c => EvContent (filter_thinking_content c))
                       (kept_fragments items)).
           split; [|reflexivity]. constructor; [reflexivity|].
           apply Forall_forall. intros e He.
           apply in_map_iff in He as (c & <- & _). reflexivity.
        -- unfold finalize.
           destruct (is_empty (kept_fragments items)).
           ++ exists (EvStatus STATUS_THINKING ::
                      map (fun c => EvContent (filter_thinking_content c))
                          (kept_fragments items)).
              split; [|reflexivity]. constructor; [reflexivity|].
              apply Forall_forall. intros e He.
              apply in_map_iff in He as (c & <- & _). reflexivity.
           ++ destruct (str_eqb _ _).
              ** exists (EvStatus STATUS_THINKING ::
                         map (fun c => EvContent (filter_thinking_content c))
                             (kept_fragments items)).
                 split; [|reflexivity]. constructor; [reflexivity|].
                 apply Forall_forall. intros e He.
                 apply in_map_iff in He as (c & <- & _). reflexivity.
              ** eexists (EvStatus STATUS_THINKING ::
                          map (fun c => EvContent (filter_thinking_content c))
                              (kept_fragments items) ++ [EvFormatted _]).
                 split.
                 --- constructor; [reflexivity|].
                     apply Forall_app. split.
                     +++ apply Forall_forall. intros e He.
                         apply in_map_iff in He as (c & <- & _). reflexivity.
                     +++ now repeat constructor.
                 --- simpl. now rewrite <- app_assoc.
      * exists [EvStatus STATUS_THINKING]. split; [now repeat constructor|].
        unfold stream_zhipu_ai_response.
        assert (negb cached && negb (construct_ok up) = false) as ->.
        { destruct Hclient as [-> | ->]; [reflexivity|apply andb_false_r]. }
        now rewrite Hcr.
    + exists [EvStatus STATUS_THINKING]. split; [now repeat constructor|].
      unfold stream_zhipu_ai_response.
      apply orb_false_iff in Hc as [-> ->]. reflexivity.
  - exists []. split; [constructor|reflexivity].
Qed.

(** The done event is emitted exactly by the runs that get through (a
    credential, a client, a stream that is created and ends without an
    exception); every other run ends in an error event whose message is
    one of three fixed texts, chosen by the stage that failed. *)
Theorem done_iff_completes
        (str_lower : str -> str) (api_key : option str) (cached : bool)
        (up : upstream) (question : str) (pet_profile : option PetProfile) :
  let r := stream_zhipu_ai_response str_lower api_key cached up
                                    question pet_profile in
  (In EvDone (events r) <-> completes api_key cached up = true)
  /\ (forall m, In (EvError m) (events r) ->
                completes api_key cached up = false
                /\ (m = MSG_NO_KEY \/ m = MSG_INIT_FAILED
                    \/ m = MSG_UNAVAILABLE))
  /\ (completes api_key cached up = false ->
      exists m, In (EvError m) (events r)).
Proof.
  intros r.
  destruct (events_last_done_or_error str_lower api_key cached up question
              pet_profile) as (body & Hb & He).
  fold r in He. rewrite He.
  assert (Nb : forall e, is_terminal e = true -> ~ In e body).
  { intros e Te Hin.
    pose proof (proj1 (Forall_forall _ _) Hb e Hin) as F. congruence. }
  split; [|split].
  - split.
    + intros H. apply in_app_or in H as [H|[H|[]]].
      * now elim (Nb EvDone eq_refl).
      * destruct (completes api_key cached up); [reflexivity|discriminate].
    + intros ->. apply in_or_app. right. now left.
  - intros m H. apply in_app_or in H as [H|[H|[]]].
    + now elim (Nb (EvError m) eq_refl).
    + destruct (completes api_key cached up); [discriminate|].
      injection H as <-. split; [reflexivity|].
      destruct api_key as [[|? ?]|]; auto.
      destruct (cached || construct_ok up); auto.
  - intros ->. eexists. apply in_or_app. right. now left.
Qed.

Lemma done_iff_completes_witness :
  let items := [Yield (Chunk (Some [Choice (Some
                  (Delta (Some (u "ok")) None))]))] in
  let good_up := {| construct_ok := true; create_result := Some items |} in
  let bad_up := {| construct_ok := true;
                   create_result := Some (items ++ [Raise]) |} in
  In EvDone (events (stream_zhipu_ai_response (map unicode_tolower)
                       (Some (u "key")) false good_up (u "q") None))
  /\ completes (Some (u "key")) false bad_up = false
  /\ exists m, In (EvError m)
                  (events (stream_zhipu_ai_response (map unicode_tolower)
                             (Some (u "key")) false bad_up (u "q") None)).
Proof.
  intros items good_up bad_up. split; [|split].
  - apply (proj1 (done_iff_completes (map unicode_tolower) (Some (u "key"))
                    false good_up (u "q") None)).
    reflexivity.
  - reflexivity.
  - apply (proj2 (proj2 (done_iff_completes (map unicode_tolower)
                           (Some (u "key")) false bad_up (u "q") None))).
    reflexivity.
Defined.

Lemma single_attempt_witness :
  let up := {| construct_ok := true; create_result := None |} in
  constructions (stream_zhipu_ai_response (map unicode_tolower)
                   (Some (u "key")) true up (u "q") None) = 0%nat.
Proof.
  intros up.
  apply (single_attempt (map unicode_tolower) (Some (u "key")) true up
           (u "q") None).
  reflexivity.
Defined.

(** ** The client across requests *)

Lemma run_client (str_lower : str -> str) (api_key : option str)
      (cached : bool) (up : upstream) (question : str)
      (pet_profile : option PetProfile) :
  construct_ok up = true ->
  let r := stream_zhipu_ai_response str_lower api_key cached up
                                    question pet_profile in
  let keyed := match api_key with Some (_ :: _) => true | _ => false end in
  constructions r = (if cached then 0 else if keyed then 1 else 0)%nat
  /\ client_cached r = cached || keyed.
Proof.
  intros Hc. unfold stream_zhipu_ai_response. rewrite Hc.
  destruct api_key as [[|k key]|]; simpl.
  - destruct cached; now split.
  - rewrite andb_false_r.
    destruct (create_result up) as [items|];
      [destruct (stream_loop items []) as [[? ?] ?]|];
      simpl; destruct cached; now split.
  - destruct cached; now split.
Qed.

(** Over the requests of one process, as long as constructing the client
    succeeds, the client is constructed at most once, and not at all when
    one is already there. *)
Theorem client_constructed_once
        (str_lower : str -> str) (cached : bool) (reqs : list served) :
  Forall (fun e => construct_ok (env_upstream e) = true) reqs ->
  (list_sum (map constructions (serve str_lower cached reqs)) <= 1)%nat
  /\ (cached = true ->
      list_sum (map constructions (serve str_lower cached reqs)) = 0%nat).
Proof.
  intros H. revert cached.
  induction H as [|e reqs He _ IH]; intros cached; simpl; [split; lia|].
  destruct (run_client str_lower (env_key e) cached (env_upstream e)
              (question (env_request e)) (pet_profile (env_request e)) He)
    as [Hn Hc].
  rewrite Hn, Hc. destruct cached; simpl.
  - destruct (IH true) as [_ I]. rewrite (I eq_refl). split; lia.
  - destruct (env_key e) as [[|k key]|]; simpl.
    + destruct (IH false) as [I _]. split; [lia|discriminate].
    + destruct (IH true) as [_ I]. rewrite (I eq_refl).
      split; [lia|discriminate].
    + destruct (IH false) as [I _]. split; [lia|discriminate].
Qed.

Lemma client_constructed_once_witness :
  let up := {| construct_ok := true; create_result := None |} in
  let req := {| question := u "q"; pet_profile := None |} in
  let reqs := [ {| env_key := None; env_upstream := up; env_request := req |};
                {| env_key := Some (u "k"); env_upstream := up;
                   env_request := req |};
                {| env_key := Some (u "k"); env_upstream := up;
                   env_request := req |} ] in
  map constructions (serve (map unicode_tolower) false reqs)
  = [0%nat; 1%nat; 0%nat]
  /\ (list_sum (map constructions (serve (map unicode_tolower) false reqs))
      <= 1)%nat.
Proof.
  intros up req reqs. split; [reflexivity|].
  apply (client_constructed_once (map unicode_tolower) false reqs).
  repeat constructor.
Defined.

(** ** The prompt that is sent *)

(** When the run reaches the upstream call, the system message is the
    built prompt and the user message is the question, unchanged,
    followed by the retrieved context; if the lower-cased question
    mentions chocolate, the user message contains the chocolate fact. *)
Theorem prompt_sent
        (str_lower : str -> str) (key : str) (cached : bool)
        (up : upstream) (question : str) (pet_profile : option PetProfile) :
  key <> [] ->
  cached = true \/ construct_ok up = true ->
  let r := stream_zhipu_ai_response str_lower (Some key) cached up
                                    question pet_profile in
  messages r = Some (build_system_prompt pet_profile,
                     question ++ get_rag_info str_lower question)
  /\ (contains KW_CHOCOLATE (str_lower question) = true ->
      get_rag_info str_lower question
      = RAG_PREFIX ++ LBRACK ++ KW_CHOCOLATE ++ RBRACK ++ FACT_CHOCOLATE
      /\ contains FACT_CHOCOLATE
                  (question ++ get_rag_info str_lower question) = true).
Proof.
  intros Hkey Hclient r. split.
  - subst r. unfold stream_zhipu_ai_response.
    destruct key as [|k key]; [now elim Hkey|].
    assert (negb cached && negb (construct_ok up) = false) as ->.
    { destruct Hclient as [-> | ->]; [reflexivity|apply andb_false_r]. }
    assert (E : (if is_empty (get_rag_info str_lower question)
                 then question
                 else question ++ get_rag_info str_lower question)
                = question ++ get_rag_info str_lower question).
    { destruct (get_rag_info str_lower question);
        [now rewrite app_nil_r|reflexivity]. }
    rewrite E.
    destruct (create_result up) as [items|];
      [destruct (stream_loop items []) as [[? ?] ?]|]; reflexivity.
  - intros Hc.
    assert (E : get_rag_info str_lower question
                = RAG_PREFIX ++ LBRACK ++ KW_CHOCOLATE ++ RBRACK
                    ++ FACT_CHOCOLATE).
    { unfold get_rag_info.
      change PET_KNOWLEDGE
        with ([] ++ (KW_CHOCOLATE, FACT_CHOCOLATE) :: tl PET_KNOWLEDGE).
      rewrite (rag_loop_first [] (tl PET_KNOWLEDGE) KW_CHOCOLATE
                 FACT_CHOCOLATE _ Hc); [reflexivity|].
      intros kv []. }
    split; [exact E|]. rewrite E.
    replace (question ++ RAG_PREFIX ++ LBRACK ++ KW_CHOCOLATE ++ RBRACK
               ++ FACT_CHOCOLATE)
      with ((question ++ RAG_PREFIX ++ LBRACK ++ KW_CHOCOLATE ++ RBRACK)
              ++ FACT_CHOCOLATE ++ [])
      by (now rewrite app_nil_r, <- !app_assoc).
    apply contains_intro.
Qed.

Lemma prompt_sent_witness :
  let up := {| construct_ok := true; create_result := None |} in
  let q := u "我的狗吃了巧克力怎么办" in
  let r := stream_zhipu_ai_response (map unicode_tolower) (Some (u "key"))
                                    false up q None in
  messages r = Some (build_system_prompt None,
                     q ++ get_rag_info (map unicode_tolower) q)
  /\ contains FACT_CHOCOLATE (q ++ get_rag_info (map unicode_tolower) q)
     = true.
Proof.
  intros up q r.
  destruct (prompt_sent (map unicode_tolower) (u "key") false up q None
              ltac:(discriminate) (or_intror eq_refl)) as [H1 H2].
  split; [exact H1|]. now apply H2.
Defined.

(** ** What the loop reads from a chunk *)

Lemma chunk_content_without_reasoning (c : chunk) :
  chunk_content (chunk_without_reasoning c) = chunk_content c.
Proof.
  destruct c as [[[|[[[content reasoning|]|]|] cs]|]|]; reflexivity.
Qed.

Lemma chunk_content_first_choice (c : chunk) :
  chunk_content (chunk_first_choice c) = chunk_content c.
Proof. destruct c as [[[|ch cs]|]|]; reflexivity. Qed.

Lemma stream_loop_same_content (f : chunk -> chunk)
      (items : list stream_item) (buffer : list str) :
  (forall c, chunk_content (f c) = chunk_content c) ->
  stream_loop (map (fun i => match i with
                             | Yield c => Yield (f c)
                             | Raise => Raise
                             end) items) buffer
  = stream_loop items buffer.
Proof.
  intros Hf. revert buffer.
  induction items as [|[c|] items IH]; intros buffer; simpl;
    [reflexivity| |reflexivity].
  rewrite Hf. destruct (chunk_content c) as [content|]; [|apply IH].
  destruct (is_empty (filter_thinking_content content)); [apply IH|].
  now rewrite IH.
Qed.

(** The upstream's reasoning text never reaches the run, and of the
    choices of a chunk only the first is read: erasing every
    [reasoning_content], or cutting every chunk down to its first choice,
    leaves the whole outcome of the run unchanged. *)
Theorem reasoning_and_later_choices_ignored
        (str_lower : str -> str) (api_key : option str) (cached : bool)
        (up : upstream) (question : str) (pet_profile : option PetProfile) :
  let without f :=
    {| construct_ok := construct_ok up;
       create_result :=
         option_map (map (fun i => match i with
                                   | Yield c => Yield (f c)
                                   | Raise => Raise
                                   end)) (create_result up) |} in
  stream_zhipu_ai_response str_lower api_key cached
                           (without chunk_without_reasoning)
                           question pet_profile
  = stream_zhipu_ai_response str_lower api_key cached up
                             question pet_profile
  /\ stream_zhipu_ai_response str_lower api_key cached
                              (without chunk_first_choice)
                              question pet_profile
     = stream_zhipu_ai_response str_lower api_key cached up
                                question pet_profile.
Proof.
  intros without.
  assert (G : forall f, (forall c, chunk_content (f c) = chunk_content c) ->
              stream_zhipu_ai_response str_lower api_key cached (without f)
                                       question pet_profile
              = stream_zhipu_ai_response str_lower api_key cached up
                                         question pet_profile).
  { intros f Hf. unfold stream_zhipu_ai_response, without. simpl.
    destruct api_key as [[|k key]|]; try reflexivity.
    destruct (negb cached && negb (construct_ok up)); [reflexivity|].
    destruct (create_result up) as [items|]; simpl; [|reflexivity].
    now rewrite (stream_loop_same_content f items [] Hf). }
  split; apply G.
  - apply chunk_content_without_reasoning.
  - apply chunk_content_first_choice.
Qed.

(** ** What the events carry *)

Lemma run_contents
      (str_lower : str -> str) (api_key : option str) (cached : bool)
      (up : upstream) (question : str) (pet_profile : option PetProfile) :
  let r := stream_zhipu_ai_response str_lower api_key cached up
                                    question pet_profile in
  contents_of (events r) = []
  \/ exists items,
       contents_of (events r)
       = map filter_thinking_content (kept_fragments items).
Proof.
  intros r. subst r.
  destruct api_key as [[|k key]|]; try (now left).
  destruct (negb cached && negb (construct_ok up)) eqn:Hc.
  - left. unfold stream_zhipu_ai_response. now rewrite Hc.
  - destruct (create_result up) as [items|] eqn:Hcr.
    + right. exists items.
      assert (Hclient : cached = true \/ construct_ok up = true).
      { destruct cached; [now left|right].
        destruct (construct_ok up); [reflexivity|discriminate]. }
      destruct (run_with_stream str_lower (k :: key) cached up question
                  pet_profile items ltac:(discriminate) Hclient Hcr)
        as [_ ->].
      change (?a :: ?b ++ ?c) with ([a] ++ b ++ c).
      rewrite !contents_of_app, contents_of_map. simpl contents_of at 1.
      destruct (existsb _ items).
      * simpl. now rewrite app_nil_r.
      * rewrite contents_of_finalize. simpl. now rewrite app_nil_r.
    + left. unfold stream_zhipu_ai_response. now rewrite Hc, Hcr.
Qed.

(** No content event is empty, and none carries a denylisted tag
    construct, whatever the upstream sends. *)
Theorem content_events_clean
        (str_lower : str -> str) (api_key : option str) (cached : bool)
        (up : upstream) (question : str) (pet_profile : option PetProfile) :
  Forall (fun s => s <> [] /\ has_tag s = false)
         (contents_of (events (stream_zhipu_ai_response
                                 str_lower api_key cached up
                                 question pet_profile))).
Proof.
  destruct (run_contents str_lower api_key cached up question pet_profile)
    as [-> | (items & ->)]; [constructor|].
  apply Forall_forall. intros s Hs.
  apply in_map_iff in Hs as (c & <- & Hc).
  apply filter_In in Hc as [_ Hc]. unfold survives in Hc.
  split; [|apply filter_thinking_content_clean].
  destruct (filter_thinking_content c); [discriminate|discriminate].
Qed.

Lemma format_output_trimmed (text : str) :
  trimmed (format_ai_response text) = true
  /\ contains NL3 (format_ai_response text) = false.
Proof.
  unfold format_ai_response. destruct text as [|c text]; simpl is_empty.
  - now split.
  - split; [apply strip_trimmed|apply strip_absent, collapse_newlines].
Qed.

(** A formatted event carries the formatter's output for the joined
    buffer, which differs from the joined buffer, has no outer whitespace
    and no three consecutive newlines; and a run that gets through with
    outer whitespace in the joined buffer always emits one. *)
Theorem formatted_event_payload
        (str_lower : str -> str) (api_key : option str) (cached : bool)
        (up : upstream) (question : str) (pet_profile : option PetProfile) :
  let r := stream_zhipu_ai_response str_lower api_key cached up
                                    question pet_profile in
  let answer := concat (full_content_buffer r) in
  (forall f, In (EvFormatted f) (events r) ->
             f = format_ai_response answer /\ f <> answer
             /\ trimmed f = true /\ contains NL3 f = false)
  /\ (completes api_key cached up = true -> trimmed answer = false ->
      In (EvFormatted (format_ai_response answer)) (events r)).
Proof.
  intros r answer. subst answer r.
  destruct api_key as [[|k key]|];
    try (split; [intros f [H|[]]; discriminate H|discriminate]).
  destruct (negb cached && negb (construct_ok up)) eqn:Hc.
  { unfold stream_zhipu_ai_response, completes. rewrite Hc. simpl. split.
    - intros f [H|[H|[]]]; discriminate H.
    - apply andb_true_iff in Hc as [Hc1 Hc2].
      apply negb_true_iff in Hc1, Hc2. rewrite Hc1, Hc2. discriminate. }
  assert (Hclient : cached = true \/ construct_ok up = true).
  { destruct cached; [now left|right].
    destruct (construct_ok up); [reflexivity|discriminate]. }
  destruct (create_result up) as [items|] eqn:Hcr.
  2:{ unfold stream_zhipu_ai_response, completes. rewrite Hc, Hcr. split.
      - intros f [H|[H|[]]]; discriminate H.
      - rewrite andb_false_r. discriminate. }
  destruct (run_with_stream str_lower (k :: key) cached up question
              pet_profile items ltac:(discriminate) Hclient Hcr)
    as [-> ->].
  unfold completes. rewrite Hcr.
  change (existsb is_raise items)
    with (existsb (fun i => match i with Raise => true
                                    | Yield _ => false end) items).
  set (kept := kept_fragments items).
  assert (Nc : forall f, ~ In (EvFormatted f)
                           (map (fun c => EvContent (filter_thinking_content c))
                                kept)).
  { intros f Hin. apply in_map_iff in Hin as (c & Hc' & _). discriminate. }
  split.
  - intros f [H|H]; [discriminate|].
    apply in_app_or in H as [H|H]; [now elim (Nc f)|].
    destruct (existsb _ items); [destruct H as [H|[]]; discriminate|].
    unfold finalize in H.
    destruct (is_empty kept); [destruct H as [H|[]]; discriminate|].
    destruct (str_eqb (format_ai_response (concat kept)) (concat kept)) eqn:E.
    + destruct H as [H|[]]; discriminate.
    + destruct H as [H|[H|[]]]; [|discriminate]. injection H as <-.
      apply str_eqb_neq in E.
      destruct (format_output_trimmed (concat kept)) as [T N].
      now repeat split.
  - intros Hok Ht. apply andb_true_iff in Hok as [_ Hok].
    apply negb_true_iff in Hok. rewrite Hok.
    right. apply in_or_app. right. unfold finalize.
    rewrite <- (concat_nonempty kept (kept_fragments_nonempty items)).
    destruct (concat kept) as [|c0 a] eqn:Ea; [discriminate|].
    simpl is_empty. cbv iota.
    destruct (str_eqb (format_ai_response (c0 :: a)) (c0 :: a)) eqn:E.
    + apply str_eqb_eq in E.
      destruct (format_output_trimmed (c0 :: a)) as [T _].
      rewrite E in T. congruence.
    + now left.
Qed.

Lemma formatted_event_payload_witness :
  let items := [Yield (Chunk (Some [Choice (Some
                  (Delta (Some (u "safe in small amounts ")) None))]))] in
  let up := {| construct_ok := true; create_result := Some items |} in
  let r := stream_zhipu_ai_response (map unicode_tolower) (Some (u "key"))
                                    false up (u "q") None in
  In (EvFormatted (format_ai_response (concat (full_content_buffer r))))
     (events r)
  /\ trimmed (format_ai_response (concat (full_content_buffer r))) = true.
Proof.
  intros items up r.
  destruct (formatted_event_payload (map unicode_tolower) (Some (u "key"))
              false up (u "q") None) as [H1 H2].
  assert (Hin : In (EvFormatted
                      (format_ai_response (concat (full_content_buffer r))))
                   (events r)).
  { apply H2; reflexivity. }
  split; [exact Hin|]. now apply (H1 _ Hin).
Defined.

(** ** More on [get_rag_info] and [build_system_prompt] *)

Lemma rag_loop_sound (table : list (str * str)) (lq fact0 : str)
      (facts : list str) :
  rag_loop table lq = fact0 :: facts ->
  facts = []
  /\ exists item fact,
       In (item, fact) table /\ contains item lq = true
       /\ fact0 = LBRACK ++ item ++ RBRACK ++ fact.
Proof.
  induction table as [|[k v] table IH]; simpl; [discriminate|].
  destruct (contains k lq) eqn:E.
  - intros [= <- <-]. split; [reflexivity|]. exists k, v. auto.
  - intros H. destruct (IH H) as [Hf (item & fact & Hin & Hc & Hq)].
    split; [exact Hf|]. exists item, fact. auto.
Qed.

(** The lookup never cites a fact whose keyword is absent: a non-empty
    result is the entry of a table keyword that occurs in the lower-cased
    question, and the result is empty only if no table keyword occurs. *)
Theorem get_rag_info_sound (str_lower : str -> str) (question : str) :
  (get_rag_info str_lower question <> [] ->
   exists item fact,
     In (item, fact) PET_KNOWLEDGE
     /\ contains item (str_lower question) = true
     /\ get_rag_info str_lower question
        = RAG_PREFIX ++ LBRACK ++ item ++ RBRACK ++ fact)
  /\ (get_rag_info str_lower question = [] ->
      forall kv, In kv PET_KNOWLEDGE ->
                 contains (fst kv) (str_lower question) = false).
Proof.
  unfold get_rag_info. split.
  - destruct (rag_loop PET_KNOWLEDGE (str_lower question)) as [|f fs] eqn:E;
      [now intros H|].
    intros _. apply rag_loop_sound in E as [_ (item & fact & Hin & Hc & ->)].
    now exists item, fact.
  - destruct (rag_loop PET_KNOWLEDGE (str_lower question)) as [|f fs] eqn:E;
      [|discriminate].
    intros _. revert E. generalize PET_KNOWLEDGE.
    induction l as [|[k v] l IH]; simpl; [now intros _ kv []|].
    destruct (contains k (str_lower question)) eqn:Ek; [discriminate|].
    intros E kv [<-|Hin]; [exact Ek|now apply IH].
Qed.

Lemma get_rag_info_sound_witness :
  exists item fact,
    In (item, fact) PET_KNOWLEDGE
    /\ contains item (map unicode_tolower (u "Is 西瓜 OK?")) = true
    /\ get_rag_info (map unicode_tolower) (u "Is 西瓜 OK?")
       = RAG_PREFIX ++ LBRACK ++ item ++ RBRACK ++ fact.
Proof.
  apply (proj1 (get_rag_info_sound (map unicode_tolower) (u "Is 西瓜 OK?"))).
  intros H. vm_compute in H. discriminate H.
Defined.

(** The prompt always begins with the base instruction and ends with the
    format directive, and it reads nothing of the profile but the name
    and the allergy list: the species and the breed never change it, and
    neither does the name when there is no allergy. *)
Theorem build_system_prompt_frame (p : PetProfile) :
  (exists middle,
      build_system_prompt (Some p) = BASE_PROMPT ++ middle ++ FORMAT_DIRECTIVE)
  /\ (forall n t b,
         build_system_prompt
           (Some {| name := name p; type := t; breed := b;
                    allergies := allergies p |})
         = build_system_prompt (Some p)
         /\ (allergy_list (Some p) = [] ->
             build_system_prompt
               (Some {| name := n; type := t; breed := b;
                        allergies := allergies p |})
             = build_system_prompt None)).
Proof.
  unfold build_system_prompt, allergy_list. split.
  - destruct (allergies p) as [[|a l]|].
    + now exists [].
    + exists (ALLERGY_HEAD ++ str_or (name p) DEFAULT_PET_NAME ++ ALLERGY_TO
                ++ join ALLERGY_SEP (a :: l) ++ ALLERGY_TAIL).
      now rewrite <- !app_assoc.
    + now exists [].
  - intros n t b. simpl. split; [reflexivity|].
    destruct (allergies p) as [[|a l]|]; try reflexivity. discriminate.
Qed.

Lemma build_system_prompt_frame_witness :
  let p := {| name := Some (u "Momo"); type := Some (u "cat");
              breed := None; allergies := Some [] |} in
  build_system_prompt
    (Some {| name := None; type := Some (u "dog"); breed := Some (u "pug");
             allergies := allergies p |})
  = build_system_prompt None.
Proof.
  intros p.
  apply (proj2 (build_system_prompt_frame p) None (Some (u "dog"))
               (Some (u "pug"))).
  reflexivity.
Defined.

(** ** The filter only deletes *)

Lemma subseq_refl (s : str) : subseq s s.
Proof. induction s; constructor; assumption. Qed.

Lemma subseq_skip (w a s : str) : subseq a s -> subseq a (w ++ s).
Proof. intros H. induction w; simpl; [exact H|now constructor]. Qed.

Lemma subseq_trans (a b c : str) : subseq a b -> subseq b c -> subseq a c.
Proof.
  intros Hab Hbc. revert a Hab.
  induction Hbc as [|x b c _ IH|x b c _ IH]; intros a Hab.
  - exact Hab.
  - inversion Hab; subst.
    + constructor. now apply IH.
    + apply subseq_drop. now apply IH.
  - apply subseq_drop. now apply IH.
Qed.

Lemma subseq_length (a s : str) : subseq a s -> (length a <= length s)%nat.
Proof. induction 1; simpl; lia. Qed.

Lemma match_at_lit_prefix (x : char) (r : regex) (s : str) (rest : str)
      (g : option str) :
  match_at (Seq (lit x) r) s = Some (rest, g) ->
  exists w, s = x :: w ++ rest.
Proof.
  intros H. apply match_at_sound in H as (w0 & -> & M).
  apply matches_seq in M as (w1 & w2 & -> & M1 & _).
  apply matches_lit in M1. subst w1. now exists w2.
Qed.

Lemma sub_delete_subseq_le (x : char) (r : regex) (n : nat) :
  forall s, (length s <= n)%nat ->
            subseq (re_sub (Seq (lit x) r) (fixed []) s) s.
Proof.
  induction n as [|n IH]; intros s Hn.
  - destruct s; [|simpl in Hn; lia].
    rewrite re_sub_nil; [constructor|].
    destruct (match_at (Seq (lit x) r) []) as [[rest g]|] eqn:E;
      [|reflexivity].
    apply match_at_lit_prefix in E as [w E]. discriminate.
  - destruct s as [|c s].
    { rewrite re_sub_nil; [constructor|].
      destruct (match_at (Seq (lit x) r) []) as [[rest g]|] eqn:E;
        [|reflexivity].
      apply match_at_lit_prefix in E as [w E]. discriminate. }
    destruct (match_at (Seq (lit x) r) (c :: s)) as [[rest g]|] eqn:E.
    + pose proof E as E'. apply match_at_lit_prefix in E' as [w Hs].
      injection Hs as -> ->.
      rewrite (re_sub_match _ _ _ _ _ _ E). simpl app.
      apply subseq_drop, subseq_skip, IH.
      simpl in Hn. rewrite length_app in Hn. lia.
    + rewrite (re_sub_nomatch _ _ _ _ E). constructor.
      apply IH. simpl in Hn. lia.
Qed.

(** Filtering deletes characters and does nothing else: the result is
    the input with some characters removed, in the same order, so it is
    never longer than the input. *)
Theorem filter_thinking_content_deletes (content : str) :
  subseq (filter_thinking_content content) content
  /\ (length (filter_thinking_content content) <= length content)%nat.
Proof.
  assert (H : subseq (filter_thinking_content content) content).
  { unfold filter_thinking_content.
    destruct (is_empty content); [apply subseq_refl|].
    eapply subseq_trans.
    - apply (sub_delete_subseq_le LT _ _ _ (le_n _)).
    - apply (sub_delete_subseq_le LT _ _ _ (le_n _)). }
  split; [exact H|now apply subseq_length].
Qed.

(** ** A thinking block is removed with its content *)

Lemma mt_lit_fail {A} (x c : char) (r : regex) (s : str) (g : option str)
      (k : str -> option str -> option A) :
  (x =? c) = false -> mt (Seq (lit x) r) (c :: s) g k = None.
Proof. intros H. simpl. now rewrite H. Qed.

(** After the opening tag the paired pattern looks, lazily, for the
    closing tag. *)
Lemma paired_after_open (s : str) :
  match_at RE_PAIRED_TAG (TAG_OPEN_THINKING ++ s)
  = match star_lazy any_char s
            (fun s' => mt RE_CLOSING_TAG s' None (fun t g => Some (t, g)))
    with
    | Some a => Some a
    | None => None
    end.
Proof. reflexivity. Qed.

Lemma closing_tag_here (b : str) :
  mt RE_CLOSING_TAG (TAG_CLOSE_THINKING ++ b) None (fun t g => Some (t, g))
  = Some (b, None).
Proof. reflexivity. Qed.

Lemma star_lazy_skip {A} (p : char -> bool) (w s : str)
      (k : str -> option A) :
  forallb p w = true ->
  (forall w1 w2, w = w1 ++ w2 -> w2 <> [] -> k (w2 ++ s) = None) ->
  star_lazy p (w ++ s) k = star_lazy p s k.
Proof.
  induction w as [|c w IH]; intros Hp Hk; [reflexivity|].
  simpl in Hp. apply andb_true_iff in Hp as [Hc Hp].
  pose proof (Hk [] (c :: w) eq_refl ltac:(discriminate)) as H0.
  simpl in H0. simpl app. simpl star_lazy. rewrite H0, Hc.
  apply IH; [exact Hp|].
  intros w1 w2 -> Hne. apply (Hk (c :: w1) w2); [reflexivity|exact Hne].
Qed.

Lemma star_lazy_here {A} (p : char -> bool) (s : str)
      (k : str -> option A) (a : A) :
  k s = Some a -> star_lazy p s k = Some a.
Proof. intros H. destruct s; simpl; now rewrite H. Qed.

Lemma no_closing_inside (body b w1 w2 : str) :
  contains [LT; SLASH] body = false ->
  body = w1 ++ w2 -> w2 <> [] ->
  mt RE_CLOSING_TAG (w2 ++ TAG_CLOSE_THINKING ++ b) None
     (fun t g => Some (t, g)) = None.
Proof.
  intros Hb -> Hne. destruct w2 as [|c w2]; [now elim Hne|].
  destruct (LT =? c) eqn:Ec; [|now apply mt_lit_fail].
  apply N.eqb_eq in Ec. subst c.
  destruct w2 as [|d w2]; [reflexivity|].
  destruct (SLASH =? d) eqn:Ed.
  - apply N.eqb_eq in Ed. subst d.
    pose proof (contains_intro [LT; SLASH] w1 w2) as Hc.
    simpl app in Hc. rewrite Hc in Hb. discriminate.
  - unfold RE_CLOSING_TAG. simpl. now rewrite Ed.
Qed.

Lemma paired_block_match (body b : str) :
  contains [LT; SLASH] body = false ->
  match_at RE_PAIRED_TAG
           (TAG_OPEN_THINKING ++ body ++ TAG_CLOSE_THINKING ++ b)
  = Some (b, None).
Proof.
  intros Hb. rewrite paired_after_open.
  rewrite star_lazy_skip.
  - now rewrite (star_lazy_here _ _ _ _ (closing_tag_here b)).
  - apply forallb_forall. reflexivity.
  - intros w1 w2. now apply no_closing_inside.
Qed.

Lemma sub_copies_prefix (x : char) (r : regex) (f : option str -> str)
      (a s : str) :
  forallb (not_char x) a = true ->
  re_sub (Seq (lit x) r) f (a ++ s) = a ++ re_sub (Seq (lit x) r) f s.
Proof.
  induction a as [|c a IH]; intros H; [reflexivity|].
  simpl in H. apply andb_true_iff in H as [Hc H].
  unfold not_char in Hc. apply negb_true_iff in Hc.
  simpl app. rewrite re_sub_nomatch.
  - now rewrite IH.
  - unfold match_at. apply mt_lit_fail. now rewrite N.eqb_sym.
Qed.

(** A [<thinking>] block is removed as a whole, content included and
    across newlines, up to the first [</thinking>]; text before it that
    holds no [<] is kept, and what follows the block is filtered in
    turn. *)
Theorem filter_removes_thinking_block (a body b : str) :
  forallb (not_char LT) a = true ->
  contains [LT; SLASH] body = false ->
  filter_thinking_content
    (a ++ TAG_OPEN_THINKING ++ body ++ TAG_CLOSE_THINKING ++ b)
  = a ++ filter_thinking_content b.
Proof.
  intros Ha Hb. unfold filter_thinking_content.
  assert (E : is_empty (a ++ TAG_OPEN_THINKING ++ body
                          ++ TAG_CLOSE_THINKING ++ b) = false)
    by (now destruct a).
  rewrite E. unfold RE_PAIRED_TAG at 1. rewrite sub_copies_prefix by exact Ha.
  fold RE_PAIRED_TAG.
  pose proof (paired_block_match body b Hb) as M.
  change (TAG_OPEN_THINKING ++ body ++ TAG_CLOSE_THINKING ++ b)
    with (LT :: (tl TAG_OPEN_THINKING ++ body ++ TAG_CLOSE_THINKING ++ b))
    in M |- *.
  replace (tl TAG_OPEN_THINKING ++ body ++ TAG_CLOSE_THINKING ++ b)
    with ((tl TAG_OPEN_THINKING ++ body ++ TAG_CLOSE_THINKING) ++ b)
    in M |- * by (now rewrite <- !app_assoc).
  rewrite (re_sub_match _ _ _ _ _ _ M). simpl app.
  unfold RE_SINGLE_TAG at 1. rewrite sub_copies_prefix by exact Ha.
  fold RE_SINGLE_TAG. f_equal.
  destruct b as [|c b]; reflexivity.
Qed.

Lemma filter_removes_thinking_block_witness :
  let body := u "step 1" ++ [nl] ++ u "<i>step 2" in
  filter_thinking_content
    (u "Answer: " ++ TAG_OPEN_THINKING ++ body ++ TAG_CLOSE_THINKING
       ++ u "no</thinking>")
  = u "Answer: " ++ filter_thinking_content (u "no</thinking>").
Proof.
  intros body.
  apply (filter_removes_thinking_block (u "Answer: ") body
           (u "no</thinking>")); reflexivity.
Defined.

(** ** Matching at a section marker *)

Lemma mt_lits {A} (m s : str) (g : option str)
      (k : str -> option str -> option A) :
  mt (lits m) (m ++ s) g k = k s g.
Proof.
  revert g k. induction m as [|c m IH]; intros g k; [reflexivity|].
  simpl. rewrite N.eqb_refl. apply IH.
Qed.

Lemma mt_seq_lits {A} (m : str) (r : regex) (s : str) (g : option str)
      (k : str -> option str -> option A) :
  mt (Seq (lits m) r) (m ++ s) g k = mt r s g k.
Proof. exact (mt_lits m s g (fun s1 g1 => mt r s1 g1 k)). Qed.

Lemma star_greedy_stop {A} (p : char -> bool) (c : char) (s : str)
      (k : str -> option A) :
  p c = false -> star_greedy p (c :: s) k = k (c :: s).
Proof. intros H. simpl. now rewrite H. Qed.

Lemma mt_lits_fail {A} (m s : str) (g : option str)
      (k : str -> option str -> option A) :
  starts_with m s = false -> mt (lits m) s g k = None.
Proof.
  revert s g k. induction m as [|c m IH]; intros s g k H; [discriminate|].
  simpl. destruct s as [|d s]; [reflexivity|].
  simpl in H. destruct (c =? d); [|reflexivity].
  now apply IH.
Qed.

Section AtMarker.

Variables (marker content rest : str).
Hypothesis content_starts : exists x c, content = x :: c /\ is_space x = false.

Lemma ascii_colon_none :
  match_at (RE_ASCII_COLON marker) (marker ++ ZH_COLON :: rest) = None.
Proof.
  unfold match_at, RE_ASCII_COLON. rewrite mt_seq_lits. reflexivity.
Qed.

Lemma colon_match :
  match_at (RE_COLON marker) (marker ++ ZH_COLON :: content ++ rest)
  = Some (content ++ rest, None).
Proof.
  destruct content_starts as (x & c & -> & Hx).
  unfold match_at, RE_COLON. rewrite mt_seq_lits. cbn [mt].
  rewrite star_greedy_stop by reflexivity.
  change (is_colon ZH_COLON) with true. cbv iota.
  simpl app. now rewrite star_greedy_stop.
Qed.

Lemma header_match :
  match_at (RE_HEADER marker) (marker ++ ZH_COLON :: content ++ rest)
  = Some (content ++ rest, None).
Proof.
  destruct content_starts as (x & c & -> & Hx).
  unfold match_at, RE_HEADER. rewrite mt_seq_lits. cbn [mt].
  rewrite star_greedy_stop by reflexivity.
  change (is_colon ZH_COLON) with true. cbv iota.
  simpl app. now rewrite star_greedy_stop.
Qed.

End AtMarker.

Lemma between_match (first second content rest : str) :
  forallb (not_char LBRACKET) content = true ->
  (exists m, second = LBRACKET :: m) ->
  match_at (RE_BETWEEN first second)
           (first ++ ZH_COLON :: content ++ second ++ rest)
  = Some (rest, Some content).
Proof.
  intros Hc (m & ->).
  unfold match_at, RE_BETWEEN. rewrite mt_seq_lits. cbn [mt].
  change (is_colon ZH_COLON) with true. cbv iota.
  rewrite star_lazy_skip.
  - rewrite (star_lazy_here (not_char LBRACKET) ((LBRACKET :: m) ++ rest) _
               (rest, Some content)); [reflexivity|].
    rewrite mt_lits. do 3 f_equal.
    rewrite !length_app.
    replace (length content + (length (LBRACKET :: m) + length rest)
             - (length (LBRACKET :: m) + length rest))%nat
      with (length content + 0)%nat by lia.
    rewrite firstn_app_2. simpl. apply app_nil_r.
  - exact Hc.
  - intros w1 w2 -> Hne. destruct w2 as [|d w2]; [now elim Hne|].
    rewrite forallb_app in Hc. apply andb_true_iff in Hc as [_ Hc].
    simpl in Hc. apply andb_true_iff in Hc as [Hd _].
    unfold not_char in Hd. apply negb_true_iff in Hd.
    apply mt_lits_fail. simpl. now rewrite N.eqb_sym, Hd.
Qed.

(** ** Substitutions on a text made of sections *)

Lemma marker_shape (M : str) :
  In M markers ->
  exists m, M = LBRACKET :: m /\ forallb (not_char LBRACKET) m = true.
Proof.
  intros [<-|[<-|[<-|[]]]]; eexists; split; reflexivity.
Qed.

Lemma other_marker (M Mj : str) :
  In M markers -> In Mj markers -> M <> Mj ->
  forall s, starts_with M (Mj ++ s) = false.
Proof.
  intros [<-|[<-|[<-|[]]]] [<-|[<-|[<-|[]]]] H s;
    try (now elim H); reflexivity.
Qed.

Section SubSections.

Variables (M : str) (r : regex) (f : option str -> str).
Hypothesis M_marker : In M markers.

Let pat : regex := Seq (lits M) r.

Lemma sub_sections_nil : re_sub pat f [] = [].
Proof.
  apply re_sub_nil, match_at_lits_prefix.
  destruct (marker_shape M M_marker) as (m & -> & _). reflexivity.
Qed.

Lemma sub_skip_plain (a s : str) :
  forallb (not_char LBRACKET) a = true ->
  re_sub pat f (a ++ s) = a ++ re_sub pat f s.
Proof.
  destruct (marker_shape M M_marker) as (m & HM & _).
  induction a as [|c a IH]; intros H; [reflexivity|].
  simpl in H. apply andb_true_iff in H as [Hc H].
  unfold not_char in Hc. apply negb_true_iff in Hc.
  simpl app. rewrite re_sub_nomatch.
  - now rewrite IH.
  - apply match_at_lits_prefix. rewrite HM. simpl.
    now rewrite N.eqb_sym, Hc.
Qed.

Lemma sub_skip_section (Mj x s : str) :
  In Mj markers ->
  match_at pat (Mj ++ x ++ s) = None ->
  forallb (not_char LBRACKET) x = true ->
  re_sub pat f (Mj ++ x ++ s) = Mj ++ x ++ re_sub pat f s.
Proof.
  intros Hj Hn Hx. destruct (marker_shape Mj Hj) as (mj & -> & Hmj).
  simpl app in *. rewrite (re_sub_nomatch _ _ _ _ Hn). f_equal.
  rewrite !app_assoc. rewrite <- app_assoc. rewrite app_assoc.
  rewrite sub_skip_plain; [reflexivity|].
  now rewrite forallb_app, Hmj, Hx.
Qed.

Lemma sub_other_section (Mj c s : str) :
  In Mj markers -> M <> Mj ->
  forallb (not_char LBRACKET) c = true ->
  re_sub pat f (Mj ++ ZH_COLON :: c ++ s)
  = Mj ++ ZH_COLON :: c ++ re_sub pat f s.
Proof.
  intros Hj Hne Hc.
  apply (sub_skip_section Mj (ZH_COLON :: c) s Hj).
  - apply match_at_lits_prefix.
    apply (other_marker M Mj M_marker Hj Hne).
  - simpl. now rewrite Hc.
Qed.

Lemma sub_hit (w rest : str) (g : option str) :
  match_at pat (M ++ w ++ rest) = Some (rest, g) ->
  re_sub pat f (M ++ w ++ rest) = f g ++ re_sub pat f rest.
Proof.
  destruct (marker_shape M M_marker) as (m & HM & _).
  intros H. revert H. subst pat. rewrite HM at 2 4.
  simpl app. rewrite app_assoc. intros H.
  now rewrite (re_sub_match _ _ _ _ _ _ H).
Qed.

End SubSections.

Lemma content_head (c : str) :
  good c -> exists x c', c = x :: c' /\ is_space x = false.
Proof.
  intros (Hne & Ht & _). destruct c as [|x c']; [now elim Hne|].
  exists x, c'. split; [reflexivity|].
  apply trimmed_spec in Ht as [H|(x' & r' & d & [= <- <-] & H & _)];
    [discriminate|exact H].
Qed.

(** The three colon patterns leave a canonical section as it is. *)
Lemma sub_ascii_colon_section (M Mj c s : str) :
  In M markers -> In Mj markers ->
  forallb (not_char LBRACKET) c = true ->
  re_sub (RE_ASCII_COLON M) (fixed (with_colon M)) (Mj ++ ZH_COLON :: c ++ s)
  = Mj ++ ZH_COLON :: c
       ++ re_sub (RE_ASCII_COLON M) (fixed (with_colon M)) s.
Proof.
  intros HM Hj Hc.
  apply (sub_skip_section M _ _ HM Mj (ZH_COLON :: c) s Hj).
  - destruct (list_eq_dec N.eq_dec M Mj) as [<-|Hne].
    + apply ascii_colon_none.
    + apply match_at_lits_prefix. now apply other_marker.
  - simpl. now rewrite Hc.
Qed.

Lemma sub_colon_section (M Mj c s : str) :
  In M markers -> In Mj markers ->
  good c -> forallb (not_char LBRACKET) c = true ->
  re_sub (RE_COLON M) (fixed (with_colon M)) (Mj ++ ZH_COLON :: c ++ s)
  = Mj ++ ZH_COLON :: c ++ re_sub (RE_COLON M) (fixed (with_colon M)) s.
Proof.
  intros HM Hj Hg Hc.
  destruct (list_eq_dec N.eq_dec M Mj) as [<-|Hne].
  - pose proof (colon_match M c s (content_head c Hg)) as Hm.
    change (M ++ ZH_COLON :: c ++ s) with (M ++ [ZH_COLON] ++ c ++ s)
      in Hm |- *.
    unfold RE_COLON in *.
    rewrite (sub_hit M _ _ HM [ZH_COLON] (c ++ s) None Hm).
    rewrite (sub_skip_plain M _ _ HM c s Hc).
    unfold fixed, with_colon. now rewrite <- app_assoc.
  - now apply sub_other_section.
Qed.

Lemma sub_header_section (M Mj c s : str) :
  In M markers -> In Mj markers ->
  good c -> forallb (not_char LBRACKET) c = true ->
  re_sub (RE_HEADER M) (fixed (with_colon M)) (Mj ++ ZH_COLON :: c ++ s)
  = Mj ++ ZH_COLON :: c ++ re_sub (RE_HEADER M) (fixed (with_colon M)) s.
Proof.
  intros HM Hj Hg Hc.
  destruct (list_eq_dec N.eq_dec M Mj) as [<-|Hne].
  - pose proof (header_match M c s (content_head c Hg)) as Hm.
    change (M ++ ZH_COLON :: c ++ s) with (M ++ [ZH_COLON] ++ c ++ s)
      in Hm |- *.
    unfold RE_HEADER in *.
    rewrite (sub_hit M _ _ HM [ZH_COLON] (c ++ s) None Hm).
    rewrite (sub_skip_plain M _ _ HM c s Hc).
    unfold fixed, with_colon. now rewrite <- app_assoc.
  - now apply sub_other_section.
Qed.

(** ** A one-line answer with three sections *)

Section Stable.

Variables (M : str) (r : regex) (f : option str -> str).
Hypothesis M_marker : In M markers.
Hypothesis section_kept :
  forall Mj c s,
    In Mj markers -> good c -> forallb (not_char LBRACKET) c = true ->
    re_sub (Seq (lits M) r) f (Mj ++ ZH_COLON :: c ++ s)
    = Mj ++ ZH_COLON :: c ++ re_sub (Seq (lits M) r) f s.

Lemma section_text_stable (Mj c : str) :
  In Mj markers -> good c -> forallb (not_char LBRACKET) c = true ->
  re_sub (Seq (lits M) r) f (section_text Mj c) = section_text Mj c.
Proof.
  intros Hj Hg Hc. unfold section_text.
  rewrite <- (app_nil_r c) at 1.
  rewrite section_kept by assumption.
  now rewrite (sub_sections_nil M r f M_marker), app_nil_r.
Qed.

Lemma three_sections_stable (s12 s23 c1 c2 c3 : str) :
  forallb (not_char LBRACKET) s12 = true ->
  forallb (not_char LBRACKET) s23 = true ->
  plain c1 -> plain c2 -> plain c3 ->
  re_sub (Seq (lits M) r) f (three_sections s12 s23 c1 c2 c3)
  = three_sections s12 s23 c1 c2 c3.
Proof.
  intros H12 H23 (G1 & B1 & _) (G2 & B2 & _) (G3 & B3 & _).
  unfold three_sections.
  rewrite section_kept; [|now left|exact G1|exact B1].
  rewrite (sub_skip_plain M r f M_marker s12 _ H12).
  rewrite section_kept; [|right; now left|exact G2|exact B2].
  rewrite (sub_skip_plain M r f M_marker s23 _ H23).
  change (M_FEEDING ++ ZH_COLON :: c3) with (section_text M_FEEDING c3).
  rewrite section_text_stable; [reflexivity| |exact G3|exact B3].
  right. right. now left.
Qed.

End Stable.

Lemma between_first (c1 c2 c3 : str) :
  plain c1 -> plain c2 -> plain c3 ->
  re_sub (RE_BETWEEN M_RISK_LEVEL M_RISK_POINT)
         (between_repl M_RISK_LEVEL M_RISK_POINT)
         (three_sections [] [] c1 c2 c3)
  = three_sections [nl; nl] [] c1 c2 c3.
Proof.
  intros (G1 & B1 & _) (G2 & B2 & _) (G3 & B3 & _).
  assert (HM : In M_RISK_LEVEL markers) by now left.
  unfold three_sections. rewrite ?app_nil_l.
  set (rest := ZH_COLON :: c2 ++ M_FEEDING ++ ZH_COLON :: c3).
  assert (E : M_RISK_LEVEL ++ ZH_COLON :: c1 ++ M_RISK_POINT ++ rest
              = M_RISK_LEVEL ++ (ZH_COLON :: c1 ++ M_RISK_POINT) ++ rest).
  { f_equal. simpl. now rewrite <- app_assoc. }
  pose proof (between_match M_RISK_LEVEL M_RISK_POINT c1 rest B1
                (ex_intro _ _ eq_refl)) as Hm.
  rewrite E in Hm |- *. unfold RE_BETWEEN in *.
  rewrite (sub_hit M_RISK_LEVEL _ _ HM _ _ _ Hm).
  assert (Hr : re_sub (Seq (lits M_RISK_LEVEL)
                           (Seq (Opt (Chr is_colon))
                                (Seq (Group (Star false (not_char LBRACKET)))
                                     (lits M_RISK_POINT))))
                      (between_repl M_RISK_LEVEL M_RISK_POINT) rest = rest).
  { subst rest.
    change (ZH_COLON :: c2 ++ M_FEEDING ++ ZH_COLON :: c3)
      with ((ZH_COLON :: c2) ++ section_text M_FEEDING c3).
    rewrite (sub_skip_plain M_RISK_LEVEL _ _ HM)
      by (simpl; now rewrite B2).
    f_equal. unfold section_text. rewrite <- (app_nil_r c3) at 1.
    rewrite (sub_other_section M_RISK_LEVEL _ _ HM M_FEEDING c3 []);
      [|right; right; now left|discriminate|exact B3].
    now rewrite (sub_sections_nil M_RISK_LEVEL _ _ HM), app_nil_r. }
  rewrite Hr. unfold between_repl, group1. subst rest.
  rewrite <- !app_assoc. simpl. reflexivity.
Qed.

Lemma between_second (c1 c2 c3 : str) :
  plain c1 -> plain c2 -> plain c3 ->
  re_sub (RE_BETWEEN M_RISK_POINT M_FEEDING)
         (between_repl M_RISK_POINT M_FEEDING)
         (three_sections [nl; nl] [] c1 c2 c3)
  = three_sections [nl; nl] [nl; nl] c1 c2 c3.
Proof.
  intros (G1 & B1 & _) (G2 & B2 & _) (G3 & B3 & _).
  assert (HM : In M_RISK_POINT markers) by (right; now left).
  unfold three_sections. rewrite ?app_nil_l.
  unfold RE_BETWEEN.
  rewrite (sub_other_section M_RISK_POINT _ _ HM M_RISK_LEVEL c1);
    [|now left|discriminate|exact B1].
  rewrite (sub_skip_plain M_RISK_POINT _ _ HM [nl; nl]) by reflexivity.
  set (rest := ZH_COLON :: c3).
  assert (E : M_RISK_POINT ++ ZH_COLON :: c2 ++ M_FEEDING ++ rest
              = M_RISK_POINT ++ (ZH_COLON :: c2 ++ M_FEEDING) ++ rest).
  { f_equal. simpl. now rewrite <- app_assoc. }
  pose proof (between_match M_RISK_POINT M_FEEDING c2 rest B2
                (ex_intro _ _ eq_refl)) as Hm.
  rewrite E in Hm |- *. unfold RE_BETWEEN in Hm.
  rewrite (sub_hit M_RISK_POINT _ _ HM _ _ _ Hm).
  assert (Hr : re_sub (Seq (lits M_RISK_POINT)
                           (Seq (Opt (Chr is_colon))
                                (Seq (Group (Star false (not_char LBRACKET)))
                                     (lits M_FEEDING))))
                      (between_repl M_RISK_POINT M_FEEDING) rest = rest).
  { subst rest. rewrite <- (app_nil_r (ZH_COLON :: c3)) at 1.
    rewrite (sub_skip_plain M_RISK_POINT _ _ HM)
      by (simpl; now rewrite B3).
    now rewrite (sub_sections_nil M_RISK_POINT _ _ HM), app_nil_r. }
  rewrite Hr. unfold between_repl, group1. subst rest.
  rewrite <- !app_assoc. simpl. reflexivity.
Qed.

Lemma normalize_markers_three_sections (c1 c2 c3 : str) :
  plain c1 -> plain c2 -> plain c3 ->
  normalize_markers (three_sections [] [] c1 c2 c3)
  = three_sections [nl; nl] [nl; nl] c1 c2 c3.
Proof.
  intros P1 P2 P3. unfold normalize_markers.
  assert (H1 : In M_RISK_LEVEL markers) by now left.
  assert (H2 : In M_RISK_POINT markers) by (right; now left).
  assert (H3 : In M_FEEDING markers) by (right; right; now left).
  unfold RE_ASCII_COLON.
  rewrite !three_sections_stable; try assumption; try reflexivity;
    try (intros Mj c s Hj _ Hc;
         now apply (sub_ascii_colon_section _ Mj c s)).
  rewrite between_first, between_second by assumption.
  unfold RE_COLON.
  rewrite !three_sections_stable; try assumption; try reflexivity;
    intros Mj c s Hj Hg Hc; now apply (sub_colon_section _ Mj c s).
Qed.

Lemma normalize_header_section (Mj c : str) :
  In Mj markers -> good c -> forallb (not_char LBRACKET) c = true ->
  normalize_header (section_text Mj c) = section_text Mj c.
Proof.
  intros Hj Hg Hc. unfold normalize_header, RE_HEADER.
  assert (H1 : In M_RISK_LEVEL markers) by now left.
  assert (H2 : In M_RISK_POINT markers) by (right; now left).
  assert (H3 : In M_FEEDING markers) by (right; right; now left).
  rewrite (section_text_stable M_RISK_LEVEL _ _ H1
             (fun Mj' c' s Hj' Hg' Hc' =>
                sub_header_section M_RISK_LEVEL Mj' c' s H1 Hj' Hg' Hc')
             Mj c Hj Hg Hc).
  rewrite (section_text_stable M_RISK_POINT _ _ H2
             (fun Mj' c' s Hj' Hg' Hc' =>
                sub_header_section M_RISK_POINT Mj' c' s H2 Hj' Hg' Hc')
             Mj c Hj Hg Hc).
  exact (section_text_stable M_FEEDING _ _ H3
           (fun Mj' c' s Hj' Hg' Hc' =>
              sub_header_section M_FEEDING Mj' c' s H3 Hj' Hg' Hc')
           Mj c Hj Hg Hc).
Qed.

Lemma no_lt_no_tag (s : str) :
  forallb (not_char LT) s = true -> has_tag s = false.
Proof.
  induction s as [|c s IH]; intros H; [reflexivity|].
  simpl in H. apply andb_true_iff in H as [Hc H].
  rewrite has_tag_cons, (IH H), orb_false_r. unfold tag_at.
  unfold not_char in Hc. apply negb_true_iff in Hc. now rewrite Hc.
Qed.

Lemma starts_with_app_cut (p x y : str) :
  starts_with p x = false ->
  match y with
  | [] => True
  | c :: _ => forallb (not_char c) p = true
  end ->
  starts_with p (x ++ y) = false.
Proof.
  revert x. induction p as [|a p IH]; intros x Hx Hy; [discriminate|].
  destruct x as [|b x].
  - simpl app. destruct y as [|c y]; [reflexivity|].
    simpl in Hy. apply andb_true_iff in Hy as [Ha _].
    unfold not_char in Ha. apply negb_true_iff in Ha.
    simpl. now rewrite Ha.
  - simpl in *. destruct (a =? b); [|reflexivity]. simpl in *.
    apply IH; [exact Hx|].
    destruct y as [|c y]; [exact I|].
    simpl in Hy. now apply andb_true_iff in Hy as [_ Hy].
Qed.

Lemma contains_app_first (p x y : str) :
  contains p x = false -> contains p y = false ->
  match y with
  | [] => True
  | c :: _ => forallb (not_char c) p = true
  end ->
  contains p (x ++ y) = false.
Proof.
  intros Hx Hy Hc. induction x as [|b x IH]; [exact Hy|].
  apply contains_false_cons in Hx as [H1 H2].
  rewrite <- app_comm_cons, contains_cons, (IH H2), orb_false_r.
  now apply (starts_with_app_cut p (b :: x) y).
Qed.

Lemma contains_cons_absent (p : str) (z : char) (y : str) :
  forallb (not_char z) p = true -> contains p y = false ->
  contains p (z :: y) = false.
Proof.
  intros Hz Hy. rewrite contains_cons, Hy, orb_false_r.
  destruct p as [|a p].
  - destruct y; discriminate.
  - simpl in Hz. apply andb_true_iff in Hz as [Ha _].
    unfold not_char in Ha. apply negb_true_iff in Ha.
    simpl. now rewrite Ha.
Qed.

(** A text of sections is free of a word that has neither [【] nor the
    colon and occurs in no marker and in no content. *)
Lemma section_absent (p M c s : str) :
  In M markers ->
  forallb (not_char ZH_COLON) p = true ->
  forallb (not_char LBRACKET) p = true ->
  contains p M_RISK_LEVEL = false -> contains p M_RISK_POINT = false ->
  contains p M_FEEDING = false ->
  contains p c = false -> contains p s = false ->
  (s = [] \/ exists s', s = LBRACKET :: s') ->
  contains p (M ++ ZH_COLON :: c ++ s) = false.
Proof.
  intros HM Hz Hb P1 P2 P3 Hc Hs Hshape.
  apply contains_app_first.
  - destruct HM as [<-|[<-|[<-|[]]]]; assumption.
  - apply contains_cons_absent; [exact Hz|].
    apply contains_app_first; [exact Hc|exact Hs|].
    destruct Hshape as [->|[s' ->]]; [exact I|exact Hb].
  - exact Hz.
Qed.

Lemma three_sections_forallb (q : char -> bool) (s12 s23 c1 c2 c3 : str) :
  forallb q M_RISK_LEVEL = true -> forallb q M_RISK_POINT = true ->
  forallb q M_FEEDING = true -> q ZH_COLON = true ->
  forallb q s12 = true -> forallb q s23 = true ->
  forallb q c1 = true -> forallb q c2 = true -> forallb q c3 = true ->
  forallb q (three_sections s12 s23 c1 c2 c3) = true.
Proof.
  intros M1 M2 M3 Z S12 S23 C1 C2 C3. unfold three_sections.
  assert (K : forall s : str,
             forallb q s = true -> forallb q (ZH_COLON :: s) = true).
  { intros s Hs. cbn [forallb]. now rewrite Z, Hs. }
  rewrite forallb_app, M1. cbn [andb]. apply K.
  rewrite forallb_app, C1. cbn [andb].
  rewrite forallb_app, S12. cbn [andb].
  rewrite forallb_app, M2. cbn [andb]. apply K.
  rewrite forallb_app, C2. cbn [andb].
  rewrite forallb_app, S23. cbn [andb].
  rewrite forallb_app, M3. cbn [andb]. apply K. exact C3.
Qed.

Lemma section_text_good (M c : str) :
  In M markers -> good c -> good (section_text M c).
Proof.
  intros HM Hg. pose proof Hg as (Hne & Ht & Hn).
  assert (GM : good M).
  { destruct HM as [<-|[<-|[<-|[]]]]; repeat split; discriminate. }
  unfold section_text. split; [|split].
  - destruct GM as (HMne & _). destruct M; [now elim HMne|discriminate].
  - change (M ++ ZH_COLON :: c) with (M ++ [ZH_COLON] ++ c).
    now apply trimmed_around.
  - destruct GM as (_ & _ & HMn). unfold no_nl in *.
    rewrite forallb_app. simpl. now rewrite HMn, Hn.
Qed.

Lemma split_nl_line (a s : str) :
  no_nl a = true -> split_nl (a ++ nl :: s) = a :: split_nl s.
Proof.
  induction a as [|c a IH]; intros H.
  - reflexivity.
  - simpl in H. apply andb_true_iff in H as [Hc H].
    unfold not_char in Hc. apply negb_true_iff in Hc.
    simpl. now rewrite Hc, (IH H).
Qed.

Lemma is_header_section (M c : str) :
  In M markers -> is_header (section_text M c) = true.
Proof.
  intros HM. unfold is_header, section_text.
  assert (K : forall m : str, contains m (m ++ ZH_COLON :: c) = true)
    by (intros m; exact (contains_intro m [] (ZH_COLON :: c))).
  destruct HM as [<-|[<-|[<-|[]]]]; rewrite K.
  - reflexivity.
  - now rewrite orb_true_r.
  - now rewrite !orb_true_r.
Qed.

Lemma three_sections_lines (c1 c2 c3 : str) :
  plain c1 -> plain c2 -> plain c3 ->
  split_nl (three_sections [nl; nl] [nl; nl] c1 c2 c3)
  = [section_text M_RISK_LEVEL c1; []; section_text M_RISK_POINT c2; [];
     section_text M_FEEDING c3].
Proof.
  intros (G1 & _) (G2 & _) (G3 & _).
  assert (H1 : In M_RISK_LEVEL markers) by now left.
  assert (H2 : In M_RISK_POINT markers) by (right; now left).
  assert (H3 : In M_FEEDING markers) by (right; right; now left).
  destruct (section_text_good _ _ H1 G1) as (_ & _ & N1).
  destruct (section_text_good _ _ H2 G2) as (_ & _ & N2).
  destruct (section_text_good _ _ H3 G3) as (_ & _ & N3).
  assert (E : three_sections [nl; nl] [nl; nl] c1 c2 c3
              = section_text M_RISK_LEVEL c1 ++ nl ::
                [] ++ nl ::
                section_text M_RISK_POINT c2 ++ nl ::
                [] ++ nl :: section_text M_FEEDING c3).
  { unfold three_sections, section_text.
    rewrite <- ?app_assoc, <- ?app_comm_cons, <- ?app_assoc.
    reflexivity. }
  rewrite E.
  rewrite (split_nl_line _ _ N1), (split_nl_line [] _ eq_refl).
  rewrite (split_nl_line _ _ N2), (split_nl_line [] _ eq_refl).
  now rewrite (split_nl_single _ N3).
Qed.

Lemma three_sections_layout (c1 c2 c3 : str) :
  plain c1 -> plain c2 -> plain c3 ->
  layout (clean_lines (three_sections [nl; nl] [nl; nl] c1 c2 c3))
  = [section_text M_RISK_LEVEL c1; []; section_text M_RISK_POINT c2; [];
     section_text M_FEEDING c3].
Proof.
  intros P1 P2 P3. unfold clean_lines.
  rewrite (three_sections_lines c1 c2 c3 P1 P2 P3).
  destruct P1 as (G1 & B1 & _), P2 as (G2 & B2 & _), P3 as (G3 & B3 & _).
  assert (H1 : In M_RISK_LEVEL markers) by now left.
  assert (H2 : In M_RISK_POINT markers) by (right; now left).
  assert (H3 : In M_FEEDING markers) by (right; right; now left).
  pose proof (section_text_good _ _ H1 G1) as (E1 & T1 & _).
  pose proof (section_text_good _ _ H2 G2) as (E2 & T2 & _).
  pose proof (section_text_good _ _ H3 G3) as (E3 & T3 & _).
  cbn [map]. rewrite (strip_id _ T1), (strip_id _ T2), (strip_id _ T3).
  change (strip []) with (@nil char).
  assert (F : forall a b c : str,
             a <> [] -> b <> [] -> c <> [] ->
             filter (fun l : str => negb (is_empty l)) [a; []; b; []; c]
             = [a; b; c]).
  { intros [|? ?] [|? ?] [|? ?] Ha Hb Hc'; try reflexivity;
      (now elim Ha) || (now elim Hb) || (now elim Hc'). }
  etransitivity; [exact (f_equal layout (F _ _ _ E1 E2 E3))|].
  unfold layout. cbn [sections_of].
  rewrite !is_header_section by assumption.
  now rewrite !normalize_header_section by assumption.
Qed.

(** An answer written on one line as three canonical sections comes out
    with the sections unchanged, in order, and one empty line between
    consecutive sections, whatever the plain contents are. *)
Theorem format_one_line_answer (c1 c2 c3 : str) :
  plain c1 -> plain c2 -> plain c3 ->
  format_ai_response
    (section_text M_RISK_LEVEL c1 ++ section_text M_RISK_POINT c2
       ++ section_text M_FEEDING c3)
  = section_text M_RISK_LEVEL c1 ++ [nl; nl]
      ++ section_text M_RISK_POINT c2 ++ [nl; nl]
      ++ section_text M_FEEDING c3.
Proof.
  intros P1 P2 P3.
  assert (E : section_text M_RISK_LEVEL c1 ++ section_text M_RISK_POINT c2
                ++ section_text M_FEEDING c3
              = three_sections [] [] c1 c2 c3).
  { unfold three_sections, section_text.
    rewrite <- ?app_assoc, <- ?app_comm_cons, <- ?app_assoc.
    reflexivity. }
  rewrite E, format_ai_response_layout.
  pose proof P1 as (G1 & B1 & L1 & K1 & R1).
  pose proof P2 as (G2 & B2 & L2 & K2 & R2).
  pose proof P3 as (G3 & B3 & L3 & K3 & R3).
  assert (H1 : In M_RISK_LEVEL markers) by now left.
  assert (H2 : In M_RISK_POINT markers) by (right; now left).
  assert (H3 : In M_FEEDING markers) by (right; right; now left).
  assert (St : strip (three_sections [] [] c1 c2 c3)
               = three_sections [] [] c1 c2 c3).
  { apply strip_id.
    assert (Et : three_sections [] [] c1 c2 c3
                 = M_RISK_LEVEL
                     ++ (ZH_COLON :: c1 ++ M_RISK_POINT ++ ZH_COLON :: c2
                           ++ M_FEEDING ++ [ZH_COLON]) ++ c3).
    { unfold three_sections. f_equal.
      rewrite <- !app_comm_cons, ?app_nil_l. f_equal.
      now rewrite <- !app_assoc, <- !app_comm_cons, <- !app_assoc. }
    rewrite Et. apply trimmed_around.
    - repeat split; discriminate.
    - now destruct G3 as (_ & T & _).
    - now destruct G3. }
  assert (Th : strip_thinking (three_sections [] [] c1 c2 c3)
               = three_sections [] [] c1 c2 c3).
  { apply strip_thinking_id.
    - apply no_lt_no_tag.
      now apply three_sections_forallb.
    - unfold three_sections. rewrite ?app_nil_l.
      apply section_absent;
        [exact H1|reflexivity|reflexivity|reflexivity|reflexivity
        |reflexivity|exact K1| |right; now eexists].
      apply section_absent;
        [exact H2|reflexivity|reflexivity|reflexivity|reflexivity
        |reflexivity|exact K2| |right; now eexists].
      rewrite <- (app_nil_r c3).
      apply section_absent;
        [exact H3|reflexivity|reflexivity|reflexivity|reflexivity
        |reflexivity|exact K3|reflexivity|now left].
    - unfold three_sections. rewrite ?app_nil_l.
      apply section_absent;
        [exact H1|reflexivity|reflexivity|reflexivity|reflexivity
        |reflexivity|exact R1| |right; now eexists].
      apply section_absent;
        [exact H2|reflexivity|reflexivity|reflexivity|reflexivity
        |reflexivity|exact R2| |right; now eexists].
      rewrite <- (app_nil_r c3).
      apply section_absent;
        [exact H3|reflexivity|reflexivity|reflexivity|reflexivity
        |reflexivity|exact R3|reflexivity|now left]. }
  rewrite St, Th, (normalize_markers_three_sections c1 c2 c3 P1 P2 P3).
  rewrite (three_sections_layout c1 c2 c3 P1 P2 P3).
  assert (J : forall a b c : str,
             join [nl] [a; []; b; []; c]
             = a ++ [nl; nl] ++ b ++ [nl; nl] ++ c)
    by (intros; reflexivity).
  exact (J _ _ _).
Qed.

Lemma format_one_line_answer_witness :
  format_ai_response
    (section_text M_RISK_LEVEL (u "低")
       ++ section_text M_RISK_POINT (u "果核含氰化物，推荐去核")
       ++ section_text M_FEEDING (u "small pieces: 1-2 per day"))
  = section_text M_RISK_LEVEL (u "低") ++ [nl; nl]
      ++ section_text M_RISK_POINT (u "果核含氰化物，推荐去核") ++ [nl; nl]
      ++ section_text M_FEEDING (u "small pieces: 1-2 per day").
Proof.
  apply format_one_line_answer; repeat split; discriminate.
Defined.

(** ** A section line whose colon is not canonical *)

Lemma star_greedy_run {A} (p : char -> bool) (w s : str)
      (k : str -> option A) (a : A) :
  forallb p w = true ->
  match s with
  | [] => True
  | x :: _ => p x = false
  end ->
  k s = Some a ->
  star_greedy p (w ++ s) k = Some a.
Proof.
  intros Hw Hs Hk. induction w as [|c w IH].
  - destruct s as [|x s]; [exact Hk|]. simpl. now rewrite Hs.
  - cbn [forallb] in Hw. apply andb_true_iff in Hw as [Hc Hw].
    simpl. now rewrite Hc, (IH Hw).
Qed.

Lemma star_lazy_none {A} (p : char -> bool) (s : str)
      (k : str -> option A) :
  (forall w1 w2, s = w1 ++ w2 -> k w2 = None) -> star_lazy p s k = None.
Proof.
  induction s as [|c s IH]; intros H.
  - simpl. now rewrite (H [] [] eq_refl).
  - simpl. rewrite (H [] (c :: s) eq_refl). destruct (p c); [|reflexivity].
    apply IH. intros w1 w2 ->. now apply (H (c :: w1) w2).
Qed.

Lemma no_bracket_suffix (y w1 w2 m : str) :
  forallb (not_char LBRACKET) y = true -> y = w1 ++ w2 ->
  starts_with (LBRACKET :: m) w2 = false.
Proof.
  intros Hy ->. rewrite forallb_app in Hy.
  apply andb_true_iff in Hy as [_ Hy].
  destruct w2 as [|d w2]; [reflexivity|].
  cbn [forallb] in Hy. apply andb_true_iff in Hy as [Hd _].
  unfold not_char in Hd. apply negb_true_iff in Hd.
  simpl. now rewrite N.eqb_sym, Hd.
Qed.

(** Without a second marker ahead, the pattern between two markers does
    not match. *)
Lemma between_none (first second x : str) :
  forallb (not_char LBRACKET) x = true ->
  (exists m, second = LBRACKET :: m) ->
  match_at (RE_BETWEEN first second) (first ++ x) = None.
Proof.
  intros Hx (m & ->).
  unfold match_at, RE_BETWEEN. rewrite mt_seq_lits. cbn [mt].
  destruct x as [|c x'].
  - apply star_lazy_none. intros w1 w2 E. apply mt_lits_fail.
    now apply (no_bracket_suffix [] w1 w2 m).
  - assert (Hx' : forallb (not_char LBRACKET) x' = true).
    { cbn [forallb] in Hx. now apply andb_true_iff in Hx as [_ Hx]. }
    destruct (is_colon c).
    + rewrite star_lazy_none.
      * apply star_lazy_none. intros w1 w2 E. apply mt_lits_fail.
        now apply (no_bracket_suffix (c :: x') w1 w2 m).
      * intros w1 w2 E. apply mt_lits_fail.
        now apply (no_bracket_suffix x' w1 w2 m).
    + apply star_lazy_none. intros w1 w2 E. apply mt_lits_fail.
      now apply (no_bracket_suffix (c :: x') w1 w2 m).
Qed.

Lemma sub_marker_line (Mi : str) (r : regex) (f : option str -> str)
      (M x : str) :
  In Mi markers -> In M markers ->
  forallb (not_char LBRACKET) x = true ->
  match_at (Seq (lits Mi) r) (M ++ x) = None ->
  re_sub (Seq (lits Mi) r) f (M ++ x) = M ++ x.
Proof.
  intros Hi HM Hx Hn.
  pose proof (sub_skip_section Mi r f Hi M x [] HM) as H.
  rewrite app_nil_r in H. rewrite (H Hn Hx).
  now rewrite (sub_sections_nil Mi r f Hi), app_nil_r.
Qed.

Lemma sub_plain (Mi : str) (r : regex) (f : option str -> str) (c : str) :
  In Mi markers -> forallb (not_char LBRACKET) c = true ->
  re_sub (Seq (lits Mi) r) f c = c.
Proof.
  intros Hi Hc. rewrite <- (app_nil_r c) at 1.
  rewrite (sub_skip_plain Mi r f Hi c [] Hc).
  now rewrite (sub_sections_nil Mi r f Hi), app_nil_r.
Qed.

Lemma sub_between_line (first second M x : str) :
  In first markers -> (exists m, second = LBRACKET :: m) ->
  In M markers -> forallb (not_char LBRACKET) x = true ->
  re_sub (RE_BETWEEN first second) (between_repl first second) (M ++ x)
  = M ++ x.
Proof.
  intros Hf Hs HM Hx. unfold RE_BETWEEN.
  apply sub_marker_line; try assumption.
  destruct (list_eq_dec N.eq_dec first M) as [<-|Hne].
  - now apply between_none.
  - apply match_at_lits_prefix. now apply other_marker.
Qed.

Lemma is_colon_cases (col : char) :
  is_colon col = true -> col = COLON \/ col = ZH_COLON.
Proof.
  unfold is_colon. intros H. apply orb_true_iff in H as [H|H];
    apply N.eqb_eq in H; auto.
Qed.

Lemma space_not_char (z : char) (w : str) :
  is_space z = false -> forallb is_space w = true ->
  forallb (not_char z) w = true.
Proof.
  intros Hz. induction w as [|a w IH]; intros Hw; [reflexivity|].
  cbn [forallb] in *. apply andb_true_iff in Hw as [Ha Hw].
  rewrite (IH Hw), andb_true_r. unfold not_char.
  destruct (a =? z) eqn:E; [|reflexivity].
  apply N.eqb_eq in E. subst a. congruence.
Qed.

(** What stands between the marker and the content holds no character
    of a given kind [z], where [z] is neither whitespace nor a colon. *)
Lemma line_forallb (z : char) (ws1 ws2 c : str) (col : char) :
  is_space z = false -> is_colon z = false ->
  is_colon col = true ->
  forallb is_space ws1 = true -> forallb is_space ws2 = true ->
  forallb (not_char z) c = true ->
  forallb (not_char z) (ws1 ++ col :: ws2 ++ c) = true.
Proof.
  intros Hz Hz' Hcol H1 H2 Hc.
  rewrite forallb_app. cbn [forallb]. rewrite forallb_app.
  rewrite (space_not_char z ws1 Hz H1), (space_not_char z ws2 Hz H2), Hc.
  unfold not_char. destruct (col =? z) eqn:E; [|reflexivity].
  apply N.eqb_eq in E. subst col. congruence.
Qed.

(** The pattern with the ASCII colon either rewrites the line into its
    canonical form or leaves it as it is. *)
Lemma ascii_colon_line (Mi M ws1 ws2 c : str) (col : char) :
  In Mi markers -> In M markers -> is_colon col = true ->
  forallb is_space ws1 = true -> forallb is_space ws2 = true ->
  good c -> forallb (not_char LBRACKET) c = true ->
  exists ws1' col' ws2',
    is_colon col' = true /\ forallb is_space ws1' = true
    /\ forallb is_space ws2' = true
    /\ re_sub (RE_ASCII_COLON Mi) (fixed (with_colon Mi))
              (M ++ ws1 ++ col :: ws2 ++ c)
       = M ++ ws1' ++ col' :: ws2' ++ c.
Proof.
  intros Hi HM Hcol H1 H2 Hg Hc.
  assert (Hx : forallb (not_char LBRACKET) (ws1 ++ col :: ws2 ++ c) = true)
    by now apply line_forallb.
  assert (Same : match_at (RE_ASCII_COLON Mi) (M ++ ws1 ++ col :: ws2 ++ c)
                 = None ->
                 exists ws1' col' ws2',
                   is_colon col' = true /\ forallb is_space ws1' = true
                   /\ forallb is_space ws2' = true
                   /\ re_sub (RE_ASCII_COLON Mi) (fixed (with_colon Mi))
                             (M ++ ws1 ++ col :: ws2 ++ c)
                      = M ++ ws1' ++ col' :: ws2' ++ c).
  { intros Hn. exists ws1, col, ws2. repeat split; try assumption.
    unfold RE_ASCII_COLON in *. now apply sub_marker_line. }
  destruct (list_eq_dec N.eq_dec Mi M) as [->|Hne].
  - destruct ws1 as [|w ws1].
    + destruct (col =? COLON) eqn:E.
      * apply N.eqb_eq in E. subst col.
        exists [], ZH_COLON, []. repeat split.
        destruct (content_head c Hg) as (x & c' & Ec & Hxs).
        assert (Hm : match_at (RE_ASCII_COLON M)
                              (M ++ (COLON :: ws2) ++ c) = Some (c, None)).
        { unfold match_at, RE_ASCII_COLON, lit. rewrite mt_seq_lits.
          cbn [mt app]. rewrite N.eqb_refl.
          apply star_greedy_run; [exact H2| |reflexivity].
          rewrite Ec. exact Hxs. }
        unfold RE_ASCII_COLON in *.
        change (M ++ [] ++ COLON :: ws2 ++ c)
          with (M ++ (COLON :: ws2) ++ c).
        rewrite (sub_hit M _ _ HM (COLON :: ws2) c None Hm).
        rewrite (sub_plain M _ _ c HM Hc).
        unfold fixed, with_colon. now rewrite <- app_assoc.
      * apply Same. unfold match_at, RE_ASCII_COLON, lit.
        rewrite mt_seq_lits. cbn [mt app].
        now rewrite N.eqb_sym, E.
    + apply Same. unfold match_at, RE_ASCII_COLON, lit.
      rewrite mt_seq_lits. cbn [mt app].
      cbn [forallb] in H1. apply andb_true_iff in H1 as [Hw _].
      destruct (COLON =? w) eqn:E; [|reflexivity].
      apply N.eqb_eq in E. subst w. discriminate Hw.
  - apply Same. apply match_at_lits_prefix. now apply other_marker.
Qed.

Lemma colon_line_same (M ws1 ws2 c : str) (col : char) :
  In M markers -> is_colon col = true ->
  forallb is_space ws1 = true -> forallb is_space ws2 = true ->
  good c -> forallb (not_char LBRACKET) c = true ->
  re_sub (RE_COLON M) (fixed (with_colon M)) (M ++ ws1 ++ col :: ws2 ++ c)
  = section_text M c.
Proof.
  intros HM Hcol H1 H2 Hg Hc.
  destruct (content_head c Hg) as (x & c' & Ec & Hxs).
  assert (Hs : is_space col = false)
    by (destruct (is_colon_cases col Hcol) as [-> | ->]; reflexivity).
  assert (Hm : match_at (RE_COLON M) (M ++ (ws1 ++ col :: ws2) ++ c)
               = Some (c, None)).
  { unfold match_at, RE_COLON. rewrite mt_seq_lits. cbn [mt].
    rewrite <- app_assoc. rewrite <- app_comm_cons.
    apply star_greedy_run; [exact H1|exact Hs|].
    rewrite Hcol.
    apply star_greedy_run; [exact H2| |reflexivity].
    rewrite Ec. exact Hxs. }
  unfold RE_COLON in *.
  replace (M ++ ws1 ++ col :: ws2 ++ c)
    with (M ++ (ws1 ++ col :: ws2) ++ c)
    by (now rewrite <- app_assoc, <- app_comm_cons).
  rewrite (sub_hit M _ _ HM (ws1 ++ col :: ws2) c None Hm).
  rewrite (sub_plain M _ _ c HM Hc).
  unfold fixed, with_colon, section_text. now rewrite <- app_assoc.
Qed.

Lemma colon_line_other (Mi M ws1 ws2 c : str) (col : char) :
  In Mi markers -> In M markers -> Mi <> M -> is_colon col = true ->
  forallb is_space ws1 = true -> forallb is_space ws2 = true ->
  forallb (not_char LBRACKET) c = true ->
  re_sub (RE_COLON Mi) (fixed (with_colon Mi)) (M ++ ws1 ++ col :: ws2 ++ c)
  = M ++ ws1 ++ col :: ws2 ++ c.
Proof.
  intros Hi HM Hne Hcol H1 H2 Hc. unfold RE_COLON.
  apply sub_marker_line; try assumption.
  - now apply line_forallb.
  - apply match_at_lits_prefix. now apply other_marker.
Qed.

Lemma colon_section_other (Mi M c : str) :
  In Mi markers -> In M markers -> Mi <> M ->
  forallb (not_char LBRACKET) c = true ->
  re_sub (RE_COLON Mi) (fixed (with_colon Mi)) (section_text M c)
  = section_text M c.
Proof.
  intros Hi HM Hne Hc.
  exact (colon_line_other Mi M [] [] c ZH_COLON Hi HM Hne eq_refl
           eq_refl eq_refl Hc).
Qed.

(** The three colon patterns, applied in the order of the code, bring
    the line to its canonical form. *)
Lemma colon_line_all (M ws1 ws2 c : str) (col : char) :
  In M markers -> is_colon col = true ->
  forallb is_space ws1 = true -> forallb is_space ws2 = true ->
  good c -> forallb (not_char LBRACKET) c = true ->
  re_sub (RE_COLON M_FEEDING) (fixed (with_colon M_FEEDING))
    (re_sub (RE_COLON M_RISK_POINT) (fixed (with_colon M_RISK_POINT))
       (re_sub (RE_COLON M_RISK_LEVEL) (fixed (with_colon M_RISK_LEVEL))
          (M ++ ws1 ++ col :: ws2 ++ c)))
  = section_text M c.
Proof.
  intros HM Hcol H1 H2 Hg Hc.
  assert (I1 : In M_RISK_LEVEL markers) by now left.
  assert (I2 : In M_RISK_POINT markers) by (right; now left).
  assert (I3 : In M_FEEDING markers) by (right; right; now left).
  assert (N12 : M_RISK_LEVEL <> M_RISK_POINT) by discriminate.
  assert (N13 : M_RISK_LEVEL <> M_FEEDING) by discriminate.
  assert (N23 : M_RISK_POINT <> M_FEEDING) by discriminate.
  destruct HM as [<-|[<-|[<-|[]]]].
  - rewrite colon_line_same by assumption.
    rewrite colon_section_other by (assumption || now apply not_eq_sym).
    now rewrite colon_section_other by (assumption || now apply not_eq_sym).
  - rewrite colon_line_other by assumption.
    rewrite colon_line_same by assumption.
    now rewrite colon_section_other by (assumption || now apply not_eq_sym).
  - rewrite colon_line_other by assumption.
    rewrite colon_line_other by assumption.
    now rewrite colon_line_same by assumption.
Qed.

Lemma normalize_markers_line (M ws1 ws2 c : str) (col : char) :
  In M markers -> is_colon col = true ->
  forallb is_space ws1 = true -> forallb is_space ws2 = true ->
  good c -> forallb (not_char LBRACKET) c = true ->
  normalize_markers (M ++ ws1 ++ col :: ws2 ++ c) = section_text M c.
Proof.
  intros HM Hcol H1 H2 Hg Hc. unfold normalize_markers.
  assert (I1 : In M_RISK_LEVEL markers) by now left.
  assert (I2 : In M_RISK_POINT markers) by (right; now left).
  assert (I3 : In M_FEEDING markers) by (right; right; now left).
  destruct (ascii_colon_line M_RISK_LEVEL M ws1 ws2 c col I1 HM Hcol H1 H2
              Hg Hc) as (wa & ca & wa' & Hca & Ha & Ha' & ->).
  destruct (ascii_colon_line M_RISK_POINT M wa wa' c ca I2 HM Hca Ha Ha'
              Hg Hc) as (wb & cb & wb' & Hcb & Hb & Hb' & ->).
  destruct (ascii_colon_line M_FEEDING M wb wb' c cb I3 HM Hcb Hb Hb'
              Hg Hc) as (wc & cc & wc' & Hcc & Hw & Hw' & ->).
  assert (Hx : forallb (not_char LBRACKET) (wc ++ cc :: wc' ++ c) = true)
    by now apply line_forallb.
  rewrite (sub_between_line M_RISK_LEVEL M_RISK_POINT M _ I1
             (ex_intro _ _ eq_refl) HM Hx).
  rewrite (sub_between_line M_RISK_POINT M_FEEDING M _ I2
             (ex_intro _ _ eq_refl) HM Hx).
  now apply colon_line_all.
Qed.

Lemma section_line_layout (M c : str) :
  In M markers -> good c -> forallb (not_char LBRACKET) c = true ->
  join [nl] (layout (clean_lines (section_text M c))) = section_text M c.
Proof.
  intros HM Hg Hc.
  destruct (section_text_good M c HM Hg) as (Hne & Ht & Hn).
  unfold clean_lines. rewrite (split_nl_single _ Hn). cbn [map].
  rewrite (strip_id _ Ht).
  assert (F : forall a : str,
             a <> [] ->
             filter (fun l : str => negb (is_empty l)) [a] = [a])
    by (intros [|? ?] Ha; [now elim Ha|reflexivity]).
  assert (L : layout [section_text M c] = [section_text M c]).
  { unfold layout. cbn [sections_of].
    rewrite (is_header_section M c HM).
    now rewrite (normalize_header_section M c HM Hg Hc). }
  etransitivity;
    [exact (f_equal (fun ls => join [nl] (layout ls)) (F _ Hne))|].
  now rewrite L.
Qed.

(** A section line whose marker is followed by either colon, with any
    whitespace around the colon, comes out with the full-width colon
    directly between the marker and the content. *)
Theorem format_normalizes_colon (M ws1 ws2 c : str) (col : char) :
  In M markers -> is_colon col = true ->
  forallb is_space ws1 = true -> forallb is_space ws2 = true ->
  plain c ->
  format_ai_response (M ++ ws1 ++ col :: ws2 ++ c) = section_text M c.
Proof.
  intros HM Hcol H1 H2 (Hg & Hb & Hl & Kt & Kr).
  assert (GM : good M)
    by (destruct HM as [<-|[<-|[<-|[]]]]; repeat split; discriminate).
  assert (E : M ++ ws1 ++ col :: ws2 ++ c = M ++ (ws1 ++ col :: ws2) ++ c)
    by (now rewrite <- app_assoc, <- app_comm_cons).
  rewrite format_ai_response_layout.
  assert (St : strip (M ++ ws1 ++ col :: ws2 ++ c)
               = M ++ ws1 ++ col :: ws2 ++ c).
  { apply strip_id. rewrite E. apply trimmed_around; [exact GM| |];
      now destruct Hg as (? & ? & ?). }
  assert (Absent : forall p,
             forallb (fun a => negb (is_space a) && negb (is_colon a)) p
             = true ->
             p <> [] ->
             contains p M_RISK_LEVEL = false ->
             contains p M_RISK_POINT = false ->
             contains p M_FEEDING = false ->
             contains p c = false ->
             contains p (M ++ ws1 ++ col :: ws2 ++ c) = false).
  { intros p Hp Hpne P1 P2 P3 Pc.
    assert (Z : forall z, is_space z || is_colon z = true ->
                          forallb (not_char z) p = true).
    { intros z Hz. clear - Hp Hz. induction p as [|a p IH]; [reflexivity|].
      cbn [forallb] in *. apply andb_true_iff in Hp as [Ha Hp].
      rewrite (IH Hp), andb_true_r. unfold not_char.
      destruct (a =? z) eqn:Ea; [|reflexivity].
      apply N.eqb_eq in Ea. subst a.
      apply andb_true_iff in Ha as [A1 A2].
      apply negb_true_iff in A1, A2. rewrite A1, A2 in Hz. discriminate. }
    assert (W : forall w y, forallb is_space w = true ->
                            contains p y = false ->
                            contains p (w ++ y) = false).
    { intros w y Hw Hy. induction w as [|a w IH]; [exact Hy|].
      cbn [forallb] in Hw. apply andb_true_iff in Hw as [Ha Hw].
      rewrite <- app_comm_cons. apply contains_cons_absent; [|now apply IH].
      apply Z. now rewrite Ha. }
    assert (Y : contains p (ws1 ++ col :: ws2 ++ c) = false).
    { apply W; [exact H1|]. apply contains_cons_absent.
      - apply Z. now rewrite Hcol, orb_true_r.
      - now apply W. }
    apply contains_app_first; [|exact Y|].
    - destruct HM as [<-|[<-|[<-|[]]]]; assumption.
    - destruct ws1 as [|a ws1]; cbn [app].
      + apply Z. now rewrite Hcol, orb_true_r.
      + cbn [forallb] in H1. apply andb_true_iff in H1 as [Ha _].
        apply Z. now rewrite Ha. }
  assert (Th : strip_thinking (M ++ ws1 ++ col :: ws2 ++ c)
               = M ++ ws1 ++ col :: ws2 ++ c).
  { apply strip_thinking_id.
    - apply no_lt_no_tag. rewrite forallb_app.
      rewrite (line_forallb LT ws1 ws2 c col eq_refl eq_refl Hcol H1 H2 Hl).
      destruct HM as [<-|[<-|[<-|[]]]]; reflexivity.
    - apply Absent; try assumption; try reflexivity. discriminate.
    - apply Absent; try assumption; try reflexivity. discriminate. }
  rewrite St, Th, (normalize_markers_line M ws1 ws2 c col HM Hcol H1 H2 Hg Hb).
  now apply section_line_layout.
Qed.

Lemma format_normalizes_colon_witness :
  format_ai_response
    (M_RISK_POINT ++ [32] ++ COLON :: [32; 32] ++ u "果核含氰化物")
  = section_text M_RISK_POINT (u "果核含氰化物").
Proof.
  apply (format_normalizes_colon M_RISK_POINT [32] [32; 32]
           (u "果核含氰化物") COLON).
  - right. now left.
  - reflexivity.
  - reflexivity.
  - reflexivity.
  - repeat split; discriminate.
Defined.

(** ** A labelled preamble before a section *)

(** The labelled pattern, tried at the label, runs up to the next [【]. *)
Lemma labelled_match (lbl junk rest : str) (col : char) :
  is_colon col = true ->
  forallb (not_char LBRACKET) junk = true ->
  match_at (RE_LABELLED lbl) (lbl ++ col :: junk ++ LBRACKET :: rest)
  = Some (LBRACKET :: rest, None).
Proof.
  intros Hcol Hj. unfold match_at, RE_LABELLED. rewrite mt_seq_lits.
  cbn [mt]. rewrite Hcol.
  rewrite star_lazy_skip.
  - apply star_lazy_here. cbn [mt LBRACK lits lit]. unfold lit. cbn [mt].
    change LBRACKET with 12304. now rewrite N.eqb_refl.
  - clear. now induction junk.
  - intros w1 w2 -> Hne. destruct w2 as [|d w2]; [now elim Hne|].
    rewrite forallb_app in Hj. apply andb_true_iff in Hj as [_ Hj].
    cbn [forallb] in Hj. apply andb_true_iff in Hj as [Hd _].
    unfold not_char in Hd. apply negb_true_iff in Hd.
    cbn [mt LBRACK lits app]. unfold lit. cbn [mt].
    change 12304 with LBRACKET. rewrite N.eqb_sym, Hd.
    destruct w2; reflexivity.
Qed.

Lemma sub_labelled_preamble (lbl junk M c : str) (col : char) :
  lbl <> [] -> is_colon col = true ->
  forallb (not_char LBRACKET) junk = true ->
  In M markers -> contains lbl (section_text M c) = false ->
  re_sub (RE_LABELLED lbl) (fixed []) (lbl ++ col :: junk ++ section_text M c)
  = section_text M c.
Proof.
  intros Hne Hcol Hj HM Hc.
  destruct (marker_shape M HM) as (m & EM & _).
  assert (ER : section_text M c = LBRACKET :: (m ++ ZH_COLON :: c))
    by (unfold section_text; now rewrite EM).
  pose proof (labelled_match lbl junk (m ++ ZH_COLON :: c) col Hcol Hj) as Hm.
  rewrite <- ER in Hm.
  destruct lbl as [|c0 l']; [now elim Hne|].
  assert (E : (c0 :: l') ++ col :: junk ++ section_text M c
              = c0 :: (l' ++ col :: junk) ++ section_text M c)
    by (now rewrite <- app_comm_cons, <- app_assoc, <- app_comm_cons).
  rewrite E in Hm |- *.
  rewrite (re_sub_match _ _ _ _ _ _ Hm).
  unfold fixed at 1. cbn [app].
  apply re_sub_no_match. unfold RE_LABELLED. now apply no_match_lits.
Qed.

(** A preamble announced by one of the two labels is dropped up to the
    first section marker, across newlines; the section that follows is
    kept. *)
Theorem format_drops_labelled_preamble (lbl junk M c : str) (col : char) :
  lbl = LBL_THINKING
  \/ (lbl = LBL_REASONING /\ contains LBL_THINKING junk = false) ->
  is_colon col = true ->
  forallb (not_char LBRACKET) junk = true ->
  forallb (not_char LT) junk = true ->
  In M markers -> plain c ->
  format_ai_response (lbl ++ col :: junk ++ section_text M c)
  = section_text M c.
Proof.
  intros Hlbl Hcol Hj Hjt HM (Hg & Hb & Hl & Kt & Kr).
  set (R := section_text M c).
  assert (GR : good R) by now apply section_text_good.
  assert (Glbl : good lbl /\ forallb (not_char LT) lbl = true).
  { destruct Hlbl as [->|[-> _]]; repeat split; discriminate. }
  destruct Glbl as [Glbl Tlbl].
  destruct (marker_shape M HM) as (m & EM & _).
  assert (RT : forallb (not_char LT) R = true).
  { unfold R, section_text. rewrite forallb_app. cbn [forallb].
    rewrite Hl, andb_true_r.
    destruct HM as [<-|[<-|[<-|[]]]]; reflexivity. }
  assert (RA : forall p,
             forallb (not_char ZH_COLON) p = true ->
             forallb (not_char LBRACKET) p = true ->
             contains p M_RISK_LEVEL = false ->
             contains p M_RISK_POINT = false ->
             contains p M_FEEDING = false ->
             contains p c = false -> contains p R = false).
  { intros p Q1 Q2 P1 P2 P3 Pc. unfold R, section_text.
    rewrite <- (app_nil_r c).
    apply section_absent; try assumption; [|now left].
    destruct p; [destruct c; discriminate Pc|reflexivity]. }
  assert (R1 : contains LBL_THINKING R = false)
    by (apply RA; (assumption || reflexivity)).
  assert (R2 : contains LBL_REASONING R = false)
    by (apply RA; (assumption || reflexivity)).
  rewrite format_ai_response_layout.
  assert (St : strip (lbl ++ col :: junk ++ R) = lbl ++ col :: junk ++ R).
  { apply strip_id.
    assert (E : lbl ++ col :: junk ++ R
                = lbl ++ (col :: junk ++ M ++ [ZH_COLON]) ++ c).
    { unfold R, section_text. f_equal.
      rewrite <- app_comm_cons. f_equal.
      now rewrite <- !app_assoc. }
    rewrite E. apply trimmed_around; [exact Glbl| |];
      now destruct Hg as (? & ? & ?). }
  assert (Tag : has_tag (lbl ++ col :: junk ++ R) = false).
  { apply no_lt_no_tag. rewrite forallb_app. cbn [forallb].
    rewrite forallb_app, Tlbl, Hjt, RT, !andb_true_r. cbn [andb].
    unfold not_char.
    destruct (is_colon_cases col Hcol) as [-> | ->]; reflexivity. }
  assert (Th : strip_thinking (lbl ++ col :: junk ++ R) = R).
  { unfold strip_thinking.
    rewrite (re_sub_no_match _ _ _ (no_tag_no_paired _ Tag)).
    subst R.
    rewrite (re_sub_no_match _ _ _ (no_tag_no_single _ Tag)).
    destruct Hlbl as [->|[-> Hjl]].
    - rewrite (sub_labelled_preamble LBL_THINKING junk M c col);
        try assumption; [|discriminate].
      unfold RE_LABELLED.
      now rewrite (re_sub_no_match _ _ _
                     (no_match_lits LBL_REASONING _ _ R2)).
    - assert (C : contains LBL_THINKING
                           (LBL_REASONING ++ col :: junk
                              ++ section_text M c) = false).
      { apply contains_app_first; [reflexivity| |].
        - apply contains_cons_absent.
          + destruct (is_colon_cases col Hcol) as [-> | ->]; reflexivity.
          + apply contains_app_first; [exact Hjl|exact R1|].
            unfold section_text. rewrite EM. reflexivity.
        - destruct (is_colon_cases col Hcol) as [-> | ->]; reflexivity. }
      change (RE_LABELLED LBL_THINKING)
        with (Seq (lits LBL_THINKING)
                  (Chr is_colon ;; Star false any_char ;;
                   Ahead (lits LBRACK <|> Eos))%re).
      rewrite (re_sub_no_match _ _ _ (no_match_lits LBL_THINKING _ _ C)).
      apply sub_labelled_preamble; try assumption. discriminate. }
  rewrite St, Th. unfold R.
  pose proof (normalize_markers_line M [] [] c ZH_COLON HM eq_refl eq_refl
                eq_refl Hg Hb) as Nm.
  change (M ++ [] ++ ZH_COLON :: [] ++ c) with (section_text M c) in Nm.
  rewrite Nm. now apply section_line_layout.
Qed.

Lemma format_drops_labelled_preamble_witness :
  format_ai_response
    (LBL_THINKING ++ COLON :: (u "step 1" ++ [nl] ++ u "step 2 ")
       ++ section_text M_RISK_LEVEL (u "低"))
  = section_text M_RISK_LEVEL (u "低").
Proof.
  apply (format_drops_labelled_preamble LBL_THINKING
           (u "step 1" ++ [nl] ++ u "step 2 ") M_RISK_LEVEL (u "低") COLON).
  - now left.
  - reflexivity.
  - reflexivity.
  - reflexivity.
  - now left.
  - repeat split; discriminate.
Defined.

(** ** A section line without colon *)

Lemma star_greedy_fail {A} (p : char -> bool) (ws s : str)
      (k : str -> option A) :
  forallb p ws = true ->
  match s with
  | [] => True
  | h :: _ => p h = false
  end ->
  (forall w1 w2, ws = w1 ++ w2 -> k (w2 ++ s) = None) ->
  star_greedy p (ws ++ s) k = None.
Proof.
  intros Hw Hs. induction ws as [|a ws IH]; intros Hk.
  - pose proof (Hk [] [] eq_refl) as H0. cbn [app] in *.
    destruct s as [|h s]; [exact H0|]. simpl. now rewrite Hs.
  - cbn [forallb] in Hw. apply andb_true_iff in Hw as [Ha Hw].
    simpl. rewrite Ha, (IH Hw).
    + exact (Hk [] (a :: ws) eq_refl).
    + intros w1 w2 ->. exact (Hk (a :: w1) w2 eq_refl).
Qed.

Lemma space_not_colon (a : char) : is_space a = true -> is_colon a = false.
Proof.
  intros Ha. destruct (is_colon a) eqn:E; [|reflexivity].
  destruct (is_colon_cases a E) as [-> | ->]; discriminate Ha.
Qed.

Section NoColon.

Variables (M ws c : str) (h : char) (c' : str).
Hypothesis M_marker : In M markers.
Hypothesis ws_spaces : forallb is_space ws = true.
Hypothesis c_head : c = h :: c'.
Hypothesis h_not_space : is_space h = false.
Hypothesis h_not_colon : is_colon h = false.
Hypothesis c_plain : forallb (not_char LBRACKET) c = true.

Lemma no_colon_no_bracket : forallb (not_char LBRACKET) (ws ++ c) = true.
Proof.
  rewrite forallb_app, c_plain.
  now rewrite (space_not_char LBRACKET ws eq_refl ws_spaces).
Qed.

Lemma no_colon_head :
  match ws ++ c with
  | [] => False
  | a :: _ => is_colon a = false
  end.
Proof.
  destruct ws as [|a w]; cbn [app].
  - now rewrite c_head.
  - pose proof ws_spaces as H. cbn [forallb] in H.
    apply andb_true_iff in H as [Ha _]. now apply space_not_colon.
Qed.

Lemma ascii_colon_none_here :
  match_at (RE_ASCII_COLON M) (M ++ ws ++ c) = None.
Proof.
  unfold match_at, RE_ASCII_COLON, lit. rewrite mt_seq_lits. cbn [mt].
  pose proof no_colon_head as H.
  destruct (ws ++ c) as [|a s]; [reflexivity|].
  destruct (COLON =? a) eqn:E; [|reflexivity].
  apply N.eqb_eq in E. subst a. discriminate H.
Qed.

Lemma colon_none_here : match_at (RE_COLON M) (M ++ ws ++ c) = None.
Proof.
  unfold match_at, RE_COLON. rewrite mt_seq_lits. cbn [mt].
  apply star_greedy_fail.
  - exact ws_spaces.
  - now rewrite c_head.
  - intros w1 w2 E. destruct w2 as [|d w2]; cbn [app].
    + now rewrite c_head, h_not_colon.
    + pose proof ws_spaces as H. rewrite E, forallb_app in H.
      apply andb_true_iff in H as [_ H]. cbn [forallb] in H.
      apply andb_true_iff in H as [Hd _].
      now rewrite (space_not_colon d Hd).
Qed.

Lemma header_match_here :
  match_at (RE_HEADER M) (M ++ ws ++ c) = Some (c, None).
Proof.
  unfold match_at, RE_HEADER. rewrite mt_seq_lits. cbn [mt].
  apply star_greedy_run.
  - exact ws_spaces.
  - now rewrite c_head.
  - rewrite c_head, h_not_colon. simpl. now rewrite h_not_space.
Qed.

(** No pattern of the marker step touches the line. *)
Lemma normalize_markers_no_colon :
  normalize_markers (M ++ ws ++ c) = M ++ ws ++ c.
Proof.
  assert (I1 : In M_RISK_LEVEL markers) by now left.
  assert (I2 : In M_RISK_POINT markers) by (right; now left).
  assert (I3 : In M_FEEDING markers) by (right; right; now left).
  pose proof no_colon_no_bracket as Hx.
  assert (A : forall Mi, In Mi markers ->
                re_sub (RE_ASCII_COLON Mi) (fixed (with_colon Mi))
                       (M ++ ws ++ c) = M ++ ws ++ c).
  { intros Mi Hi. unfold RE_ASCII_COLON.
    apply sub_marker_line; try assumption.
    destruct (list_eq_dec N.eq_dec Mi M) as [->|Hne].
    - exact ascii_colon_none_here.
    - apply match_at_lits_prefix. now apply other_marker. }
  assert (C : forall Mi, In Mi markers ->
                re_sub (RE_COLON Mi) (fixed (with_colon Mi))
                       (M ++ ws ++ c) = M ++ ws ++ c).
  { intros Mi Hi. unfold RE_COLON.
    apply sub_marker_line; try assumption.
    destruct (list_eq_dec N.eq_dec Mi M) as [->|Hne].
    - exact colon_none_here.
    - apply match_at_lits_prefix. now apply other_marker. }
  unfold normalize_markers.
  rewrite (A _ I1), (A _ I2), (A _ I3).
  rewrite (sub_between_line M_RISK_LEVEL M_RISK_POINT M _ I1
             (ex_intro _ _ eq_refl) M_marker Hx).
  rewrite (sub_between_line M_RISK_POINT M_FEEDING M _ I2
             (ex_intro _ _ eq_refl) M_marker Hx).
  now rewrite (C _ I1), (C _ I2), (C _ I3).
Qed.

Lemma header_same :
  re_sub (RE_HEADER M) (fixed (with_colon M)) (M ++ ws ++ c)
  = section_text M c.
Proof.
  pose proof header_match_here as Hm. unfold RE_HEADER in *.
  rewrite (sub_hit M _ _ M_marker ws c None Hm).
  rewrite (sub_plain M _ _ c M_marker c_plain).
  unfold fixed, with_colon, section_text. now rewrite <- app_assoc.
Qed.

Lemma header_other (Mi x : str) :
  In Mi markers -> Mi <> M -> forallb (not_char LBRACKET) x = true ->
  re_sub (RE_HEADER Mi) (fixed (with_colon Mi)) (M ++ x) = M ++ x.
Proof.
  intros Hi Hne Hx. unfold RE_HEADER.
  apply sub_marker_line; try assumption.
  apply match_at_lits_prefix. now apply other_marker.
Qed.

End NoColon.

(** The header step supplies the full-width colon. *)
Lemma normalize_header_no_colon (M ws c : str) (h : char) (c' : str) :
  In M markers -> forallb is_space ws = true -> c = h :: c' ->
  is_space h = false -> is_colon h = false ->
  forallb (not_char LBRACKET) c = true ->
  normalize_header (M ++ ws ++ c) = section_text M c.
Proof.
  intros HM Hws Ec Hhs Hhc Hb.
  assert (I1 : In M_RISK_LEVEL markers) by now left.
  assert (I2 : In M_RISK_POINT markers) by (right; now left).
  assert (I3 : In M_FEEDING markers) by (right; right; now left).
  assert (N12 : M_RISK_LEVEL <> M_RISK_POINT) by discriminate.
  assert (N13 : M_RISK_LEVEL <> M_FEEDING) by discriminate.
  assert (N23 : M_RISK_POINT <> M_FEEDING) by discriminate.
  assert (N21 : M_RISK_POINT <> M_RISK_LEVEL) by discriminate.
  assert (N31 : M_FEEDING <> M_RISK_LEVEL) by discriminate.
  assert (N32 : M_FEEDING <> M_RISK_POINT) by discriminate.
  pose proof (no_colon_no_bracket ws c Hws Hb) as Hx.
  assert (Hs : forallb (not_char LBRACKET) (ZH_COLON :: c) = true)
    by (cbn [forallb]; now rewrite Hb).
  pose proof (header_same M ws c h c' HM Hws Ec Hhs Hhc Hb) as Hh.
  unfold normalize_header.
  destruct HM as [<-|[<-|[<-|[]]]].
  - rewrite Hh. unfold section_text.
    now rewrite (header_other _ I1 _ _ I2 N21 Hs),
                (header_other _ I1 _ _ I3 N31 Hs).
  - rewrite (header_other _ I2 _ _ I1 N12 Hx), Hh. unfold section_text.
    now rewrite (header_other _ I2 _ _ I3 N32 Hs).
  - now rewrite (header_other _ I3 _ _ I1 N13 Hx),
                (header_other _ I3 _ _ I2 N23 Hx).
Qed.

Lemma contains_skip_not_head (a : char) (p x y : str) :
  forallb (not_char a) x = true -> contains (a :: p) y = false ->
  contains (a :: p) (x ++ y) = false.
Proof.
  intros Hx Hy. induction x as [|z x IH]; [exact Hy|].
  cbn [forallb] in Hx. apply andb_true_iff in Hx as [Hz Hx].
  rewrite <- app_comm_cons, contains_cons, (IH Hx), orb_false_r.
  unfold not_char in Hz. apply negb_true_iff in Hz.
  simpl. now rewrite N.eqb_sym, Hz.
Qed.

Lemma is_header_line (M x : str) :
  In M markers -> is_header (M ++ x) = true.
Proof.
  intros HM. unfold is_header.
  assert (K : forall m : str, contains m (m ++ x) = true)
    by (intros m; exact (contains_intro m [] x)).
  destruct HM as [<-|[<-|[<-|[]]]]; rewrite K.
  - reflexivity.
  - now rewrite orb_true_r.
  - now rewrite !orb_true_r.
Qed.

(** A section line on which the marker is followed by the content, with
    no colon and at most some whitespace in between, comes out with the
    full-width colon between the marker and the content. *)
Theorem format_supplies_colon (M ws c : str) :
  In M markers ->
  forallb is_space ws = true -> no_nl ws = true ->
  plain c ->
  match c with
  | [] => True
  | h :: _ => is_colon h = false
  end ->
  format_ai_response (M ++ ws ++ c) = section_text M c.
Proof.
  intros HM Hws Hnl (Hg & Hb & Hl & Kt & Kr) Hh.
  destruct (content_head c Hg) as (h & c' & Ec & Hhs).
  assert (Hhc : is_colon h = false) by (now rewrite Ec in Hh).
  assert (GM : good M /\ forallb (not_char LT) M = true
               /\ forallb (not_char 24605) M = true
               /\ forallb (not_char 25512) M = true).
  { destruct HM as [<-|[<-|[<-|[]]]]; repeat split; discriminate. }
  destruct GM as (GM & TM & AM & BM).
  rewrite format_ai_response_layout.
  assert (St : strip (M ++ ws ++ c) = M ++ ws ++ c).
  { apply strip_id. apply trimmed_around; [exact GM| |];
      now destruct Hg as (? & ? & ?). }
  assert (Th : strip_thinking (M ++ ws ++ c) = M ++ ws ++ c).
  { apply strip_thinking_id.
    - apply no_lt_no_tag. rewrite !forallb_app, TM, Hl.
      now rewrite (space_not_char LT ws eq_refl Hws).
    - rewrite app_assoc.
      apply (contains_skip_not_head 24605); [|exact Kt].
      rewrite forallb_app, AM.
      now rewrite (space_not_char 24605 ws eq_refl Hws).
    - rewrite app_assoc.
      apply (contains_skip_not_head 25512); [|exact Kr].
      rewrite forallb_app, BM.
      now rewrite (space_not_char 25512 ws eq_refl Hws). }
  rewrite St, Th.
  rewrite (normalize_markers_no_colon M ws c h c' HM Hws Ec Hhs Hhc Hb).
  assert (Hne : M ++ ws ++ c <> []).
  { destruct GM as (Hn & _). destruct M; [now elim Hn|discriminate]. }
  assert (Hn : no_nl (M ++ ws ++ c) = true).
  { destruct GM as (_ & _ & HMn). destruct Hg as (_ & _ & Hcn).
    unfold no_nl in *. now rewrite !forallb_app, HMn, Hnl, Hcn. }
  unfold clean_lines. rewrite (split_nl_single _ Hn). cbn [map].
  rewrite St.
  assert (F : forall a : str,
             a <> [] ->
             filter (fun l : str => negb (is_empty l)) [a] = [a])
    by (intros [|? ?] Ha; [now elim Ha|reflexivity]).
  etransitivity;
    [exact (f_equal (fun ls => join [nl] (layout ls)) (F _ Hne))|].
  unfold layout. cbn [sections_of].
  rewrite (is_header_line M (ws ++ c) HM).
  now rewrite (normalize_header_no_colon M ws c h c' HM Hws Ec Hhs Hhc Hb).
Qed.

Lemma format_supplies_colon_witness :
  format_ai_response (M_FEEDING ++ [32] ++ u "去核后少量喂食")
  = section_text M_FEEDING (u "去核后少量喂食").
Proof.
  apply (format_supplies_colon M_FEEDING [32] (u "去核后少量喂食")).
  - right. right. now left.
  - reflexivity.
  - reflexivity.
  - repeat split; discriminate.
  - reflexivity.
Defined.
